(** * mcp-nano-banana: the job / batch lifecycle engine of [index.ts]

    A shallow embedding of the in-memory job tracker of the MCP server:
    the two [Map] registries ([jobs], [batchJobs]), the dispatcher
    ([generateImage]), the aggregator ([getBatchStatus]), the persister
    ([saveImageToFile], [saveBatchImages]) and the tool handlers that
    call them.

    Conventions.
    - A JavaScript [Map<string, T>] is a [gmap string T]; an object held
      by the map and mutated in place is an update at its key.
    - [Date] values are milliseconds ([Z]); an optional property is an
      [option].
    - Everything the runtime decides (clock reads, the random suffix of an
      identifier, the outcome of the remote generation call, the result
      of a filesystem call, Node's [path] functions) is an explicit
      argument or a section variable.
    - A thrown [Error] is the [Throw] case of [Outcome].
    - JavaScript runs one turn of the event loop at a time. A tool call
      is one turn; the generation request a call issues is a network
      request, which does not settle within the turn that issues it: the
      closure awaiting it resumes in a later turn of its own
      ([Settled]). The one loop that re-reads the job store across awaits
      on the filesystem, in [saveBatchImages], takes the store it finds
      at each iteration as an argument; the [save_batch_images] handler
      gets it from the run ([e_seen]): the turns that run while the
      handler is suspended are events of their own, and the loop sees
      their effect on the job store through it.
    - A [Map] enumerates its entries in insertion order, which a [gmap]
      does not record. The two listings ([list_jobs], [list_batches])
      take the entries in the order of [map_to_list]; what is proved of a
      listing is proved for every enumeration of the store, or of its
      entries regardless of their order. *)

From stdpp Require Import gmap strings list fin_maps pretty.

Open Scope string_scope.
Open Scope nat_scope.
Open Scope list_scope.

(** ** Data model (index.ts, lines 55-77) *)

Inductive JobStatus := Pending | Processing | Completed | Failed.

Inductive BatchStatus :=
  BatchPending | BatchProcessing | BatchCompleted | BatchPartial | BatchFailed.

Global Instance JobStatus_eq_dec : EqDecision JobStatus.
Proof. solve_decision. Defined.

Global Instance BatchStatus_eq_dec : EqDecision BatchStatus.
Proof. solve_decision. Defined.

Record ImageJob := mkJob {
  job_id : string;
  job_status : JobStatus;
  job_prompt : string;
  job_result : option string;      (* base64 image data *)
  job_error : option string;
  job_createdAt : Z;
  job_completedAt : option Z
}.

Record BatchJob := mkBatch {
  batch_id : string;
  batch_jobIds : list string;
  batch_totalCount : nat;
  batch_createdAt : Z;
  batch_completedAt : option Z
}.

(** The process state: the two module-level maps, and the identifiers of
    the jobs whose detached generation closure is suspended at its
    [await] (one entry per closure). *)
Record Server := mkServer {
  jobs : gmap string ImageJob;
  batchJobs : gmap string BatchJob;
  inflight : list string
}.

Definition init : Server := mkServer ∅ ∅ [].

Definition with_jobs (s : Server) (js : gmap string ImageJob) : Server :=
  mkServer js (batchJobs s) (inflight s).

Definition with_batchJobs (s : Server) (bs : gmap string BatchJob) : Server :=
  mkServer (jobs s) bs (inflight s).

Definition with_inflight (s : Server) (l : list string) : Server :=
  mkServer (jobs s) (batchJobs s) l.

(** ** Errors *)

Definition status_text (st : JobStatus) : string :=
  match st with
  | Pending => "pending"
  | Processing => "processing"
  | Completed => "completed"
  | Failed => "failed"
  end.

(** Every [throw new Error(...)] of the file, one constructor each, and
    the rejection of a filesystem call. *)
Inductive Error :=
  | JobNotFound (jobId : string)
  | JobNotCompleted (jobId : string) (st : JobStatus)
  | JobNoResultData (jobId : string)
  | PathNotPng
  | BatchNotFound (batchId : string)
  | InvalidArguments
  | UnknownTool (name : string)
  | FsError (msg : string).

Definition message (e : Error) : string :=
  match e with
  | JobNotFound jobId => "Job " +:+ jobId +:+ " not found"
  | JobNotCompleted jobId st =>
      "Job " +:+ jobId +:+ " is not completed (status: " +:+ status_text st +:+ ")"
  | JobNoResultData jobId => "Job " +:+ jobId +:+ " has no result data"
  | PathNotPng => "File path must end in .png"
  | BatchNotFound batchId => "Batch " +:+ batchId +:+ " not found"
  | InvalidArguments => "Invalid arguments"
  | UnknownTool name => "Unknown tool: " +:+ name
  | FsError msg => msg
  end.

(** The error classes of the specification, as names for the errors
    above. *)
Inductive ErrorClass := NotFound | InvalidState | ValidationError | IOError.

Definition classify (e : Error) : ErrorClass :=
  match e with
  | JobNotFound _ | BatchNotFound _ => NotFound
  | JobNotCompleted _ _ | JobNoResultData _ => InvalidState
  | PathNotPng | InvalidArguments | UnknownTool _ => ValidationError
  | FsError _ => IOError
  end.

Inductive Outcome (A : Type) :=
  | Return (a : A)
  | Throw (e : Error).
Arguments Return {A} a.
Arguments Throw {A} e.

(** ** Identifiers (lines 80-82, 152-154)

    [rnd] is the text of [Math.random().toString(36).substr(2, 9)]. *)

Definition generateJobId (now : Z) (rnd : string) : string :=
  "job_" +:+ pretty now +:+ "_" +:+ rnd.

Definition generateBatchId (now : Z) (rnd : string) : string :=
  "batch_" +:+ pretty now +:+ "_" +:+ rnd.

(** ** The aggregator: [getBatchStatus] (lines 267-350) *)

Record JobDetail := mkDetail {
  d_jobId : string;
  d_status : JobStatus;
  d_prompt : string
}.

(** [job.prompt.substring(0, 50) + (job.prompt.length > 50 ? "..." : "")] *)
Definition preview (p : string) : string :=
  String.substring 0 50 p +:+ (if 50 <? String.length p then "..." else "").

Record Tally := mkTally {
  completedCount : nat;
  failedCount : nat;
  pendingCount : nat;
  processingCount : nat;
  jobDetails : list JobDetail
}.

Definition tally0 : Tally := mkTally 0 0 0 0 [].

(** The body of [for (const jobId of batch.jobIds)]. *)
Definition tally_step (js : gmap string ImageJob) (t : Tally) (jobId : string) : Tally :=
  match js !! jobId with
  | Some job =>
      let ds := jobDetails t ++ [mkDetail (job_id job) (job_status job) (preview (job_prompt job))] in
      match job_status job with
      | Completed =>
          mkTally (S (completedCount t)) (failedCount t) (pendingCount t) (processingCount t) ds
      | Failed =>
          mkTally (completedCount t) (S (failedCount t)) (pendingCount t) (processingCount t) ds
      | Pending =>
          mkTally (completedCount t) (failedCount t) (S (pendingCount t)) (processingCount t) ds
      | Processing =>
          mkTally (completedCount t) (failedCount t) (pendingCount t) (S (processingCount t)) ds
      end
  | None => t
  end.

Definition tally (js : gmap string ImageJob) (ids : list string) : Tally :=
  foldl (tally_step js) tally0 ids.

Definition allDone (t : Tally) (batch : BatchJob) : bool :=
  completedCount t + failedCount t =? batch_totalCount batch.

(** Lines 316-336, the status only. *)
Definition overall (t : Tally) (batch : BatchJob) : BatchStatus :=
  if allDone t batch then
    if failedCount t =? batch_totalCount batch then BatchFailed
    else if 0 <? failedCount t then BatchPartial
    else BatchCompleted
  else if (0 <? processingCount t) || (0 <? completedCount t) then BatchProcessing
  else BatchPending.

(** Lines 328-331: [if (!batch.completedAt) batch.completedAt = new Date()],
    inside the [allDone] branch. *)
Definition stamp (t : Tally) (now : Z) (batch : BatchJob) : BatchJob :=
  if allDone t batch then
    match batch_completedAt batch with
    | None =>
        mkBatch (batch_id batch) (batch_jobIds batch) (batch_totalCount batch)
                (batch_createdAt batch) (Some now)
    | Some _ => batch
    end
  else batch.

Record BatchReport := mkReport {
  r_batchId : string;
  r_status : BatchStatus;
  r_totalCount : nat;
  r_completedCount : nat;
  r_failedCount : nat;
  r_pendingCount : nat;
  r_processingCount : nat;
  r_jobs : list JobDetail;
  r_createdAt : Z;
  r_completedAt : option Z
}.

(** [now] is the value [new Date()] has if the function reads it. *)
Definition getBatchStatus (batchId : string) (now : Z) (s : Server)
  : Server * Outcome BatchReport :=
  match batchJobs s !! batchId with
  | None => (s, Throw (BatchNotFound batchId))
  | Some batch =>
      let t := tally (jobs s) (batch_jobIds batch) in
      let status := overall t batch in
      let batch' := stamp t now batch in
      (with_batchJobs s (<[batchId := batch']> (batchJobs s)),
       Return (mkReport (batch_id batch') status (batch_totalCount batch')
                 (completedCount t) (failedCount t) (pendingCount t) (processingCount t)
                 (jobDetails t) (batch_createdAt batch') (batch_completedAt batch')))
  end.

(** ** The dispatcher: [generateImage] (lines 157-204) *)

(** What one call of [generateImage] reads from the runtime. *)
Record GenEnv := mkGenEnv {
  g_now : Z;          (* Date.now() inside generateJobId *)
  g_rnd : string;     (* the random suffix inside generateJobId *)
  g_created : Z       (* new Date() for createdAt *)
}.

(** How the awaited [generateContent] call ends: it resolves, and
    [imagePart?.inlineData?.data] is [undefined] or a string; or it
    rejects (or reading the response throws) and [msg] is
    [error instanceof Error ? error.message : String(error)]. *)
Inductive GenResult :=
  | Resolved (data : option string)
  | Rejected (msg : string).

(** [jobs.set(jobId, {id: jobId, status: "pending", prompt, createdAt})] *)
Definition createJob (jobId prompt : string) (created : Z) (s : Server) : Server :=
  with_jobs s (<[jobId := mkJob jobId Pending prompt None None created None]> (jobs s)).

Definition set_processing (job : ImageJob) : ImageJob :=
  mkJob (job_id job) Processing (job_prompt job) (job_result job) (job_error job)
        (job_createdAt job) (job_completedAt job).

(** The detached closure, from its start to its [await]:
    [jobs.get(jobId)!.status = "processing"], then the remote call is
    issued and the closure is suspended. *)
Definition startGeneration (jobId : string) (s : Server) : Server :=
  with_inflight (with_jobs s (alter set_processing jobId (jobs s)))
                (inflight s ++ [jobId]).

(** [aspectRatio] and [model] only travel to the remote call. *)
Definition generateImage (prompt aspectRatio model : string) (e : GenEnv) (s : Server)
  : Server * string :=
  let jobId := generateJobId (g_now e) (g_rnd e) in
  (startGeneration jobId (createJob jobId prompt (g_created e) s), jobId).

(** Lines 188-191: the three assignments of the success branch. *)
Definition complete (data : string) (now : Z) (job : ImageJob) : ImageJob :=
  mkJob (job_id job) Completed (job_prompt job) (Some data) (job_error job)
        (job_createdAt job) (Some now).

(** Lines 196-199: the three assignments of the [catch] branch. *)
Definition fail (msg : string) (now : Z) (job : ImageJob) : ImageJob :=
  mkJob (job_id job) Failed (job_prompt job) (job_result job) (Some msg)
        (job_createdAt job) (Some now).

(** JavaScript truthiness of a string. *)
Definition truthy (x : string) : bool :=
  match x with "" => false | _ => true end.

(** The closure from its [await] to its end. A job absent from the map
    makes [jobs.get(jobId)!] fail in [try] and again in [catch]: nothing
    is written, which is what [alter] does. *)
Definition settle (jobId : string) (r : GenResult) (now : Z) (s : Server) : Server :=
  match r with
  | Resolved (Some data) =>
      if truthy data
      then with_jobs s (alter (complete data now) jobId (jobs s))
      else with_jobs s (alter (fail "No image data in response" now) jobId (jobs s))
  | Resolved None =>
      with_jobs s (alter (fail "No image data in response" now) jobId (jobs s))
  | Rejected msg =>
      with_jobs s (alter (fail msg now) jobId (jobs s))
  end.

(** ** Batch submission: [generateBatchImages] (lines 239-264) *)

Record BatchPrompt := mkPrompt {
  bp_prompt : string;
  bp_aspectRatio : option string;
  bp_model : option string
}.

(** [x || d] for an optional string [x]. *)
Definition or_default (x : option string) (d : string) : string :=
  match x with
  | Some v => if truthy v then v else d
  | None => d
  end.

(** The [for (const promptConfig of prompts)] loop; [gen i] is what the
    [i]-th call of [generateImage] reads from the runtime. *)
Fixpoint submitAll (prompts : list BatchPrompt) (defaultAspectRatio defaultModel : string)
    (gen : nat → GenEnv) (i : nat) (s : Server) (jobIds : list string)
  : Server * list string :=
  match prompts with
  | [] => (s, jobIds)
  | promptConfig :: rest =>
      let aspectRatio := or_default (bp_aspectRatio promptConfig) defaultAspectRatio in
      let model := or_default (bp_model promptConfig) defaultModel in
      let '(s', jobId) := generateImage (bp_prompt promptConfig) aspectRatio model (gen i) s in
      submitAll rest defaultAspectRatio defaultModel gen (S i) s' (jobIds ++ [jobId])
  end.

(** What one tool call reads from the runtime. [e_seen i js] is what the
    job store [js] of the call has become when iteration [i] of the loop
    of [save_batch_images] reads it: the handler is suspended at each
    filesystem call, other turns run meanwhile, and each iteration reads
    [jobs] anew. *)
Record Env := mkEnv {
  e_gen : nat → GenEnv;     (* per generateImage call, in call order *)
  e_now : Z;                (* Date.now() inside generateBatchId *)
  e_rnd : string;           (* the random suffix inside generateBatchId *)
  e_date : Z;               (* new Date() read by the call itself *)
  e_dates : string → Z;     (* list_batches: new Date() while visiting a batch *)
  e_seen : nat → gmap string ImageJob → gmap string ImageJob
}.

Definition generateBatchImages (prompts : list BatchPrompt)
    (defaultAspectRatio defaultModel : string) (e : Env) (s : Server)
  : Server * (string * list string) :=
  let batchId := generateBatchId (e_now e) (e_rnd e) in
  let '(s', jobIds) := submitAll prompts defaultAspectRatio defaultModel (e_gen e) 0 s [] in
  (with_batchJobs s'
     (<[batchId := mkBatch batchId jobIds (length prompts) (e_date e) None]> (batchJobs s')),
   (batchId, jobIds)).

(** ** The persister (lines 207-234, 353-385) *)

(** Node's [path] and [fs/promises] functions and [Buffer.from(_, "base64")].
    A filesystem call returns the filesystem it leaves behind and, when
    its promise rejects, the message of the rejection. *)
Class Node := {
  FS : Type;
  path_resolve : string → string;
  path_dirname : string → string;
  path_join : string → string → string;
  fs_mkdir : string → FS → FS * option string;        (* mkdir(p, {recursive: true}) *)
  fs_writeFile : string → list Byte.byte → FS → FS * option string;
  Buffer_from_base64 : string → list Byte.byte
}.

(** [s.endsWith(suffix)] *)
Definition endsWith (s suffix : string) : bool :=
  (String.length suffix <=? String.length s) &&
  String.eqb (String.substring (String.length s - String.length suffix)
                               (String.length suffix) s) suffix.

Record SavedEntry := mkSaved { sv_jobId : string; sv_filePath : string }.
Record FailedEntry := mkFailed { fl_jobId : string; fl_error : string }.

Section Persister.
Context `{Node}.

Definition saveImageToFile (js : gmap string ImageJob) (jobId filePath : string) (fs : FS)
  : FS * Outcome unit :=
  match js !! jobId with
  | None => (fs, Throw (JobNotFound jobId))
  | Some job =>
      if decide (job_status job = Completed) then
        match job_result job with
        | None => (fs, Throw (JobNoResultData jobId))
        | Some data =>
            if truthy data then
              let absolutePath := path_resolve filePath in
              if endsWith absolutePath ".png" then
                let '(fs1, r1) := fs_mkdir (path_dirname absolutePath) fs in
                match r1 with
                | Some msg => (fs1, Throw (FsError msg))
                | None =>
                    let buffer := Buffer_from_base64 data in
                    let '(fs2, r2) := fs_writeFile absolutePath buffer fs1 in
                    match r2 with
                    | Some msg => (fs2, Throw (FsError msg))
                    | None => (fs2, Return ())
                    end
                end
              else (fs, Throw PathNotPng)
            else (fs, Throw (JobNoResultData jobId))
        end
      else (fs, Throw (JobNotCompleted jobId (job_status job)))
  end.

(** [join(absoluteDir, `${filenamePrefix}_${i + 1}.png`)] *)
Definition batchFilePath (absoluteDir filenamePrefix : string) (i : nat) : string :=
  path_join absoluteDir (filenamePrefix +:+ "_" +:+ pretty (i + 1) +:+ ".png").

(** The [for (let i = 0; i < batch.jobIds.length; i++)] loop, entered at
    index [i] with the ids from [i] on still to visit. The loop awaits
    each save, so other turns of the event loop can run between two
    iterations: [view i] is the job store as iteration [i] finds it. *)
Fixpoint saveAll (view : nat → gmap string ImageJob) (absoluteDir filenamePrefix : string)
    (i : nat) (ids : list string) (fs : FS)
    (saved : list SavedEntry) (failed : list FailedEntry)
  : FS * (list SavedEntry * list FailedEntry) :=
  match ids with
  | [] => (fs, (saved, failed))
  | jobId :: rest =>
      let filePath := batchFilePath absoluteDir filenamePrefix i in
      match saveImageToFile (view i) jobId filePath fs with
      | (fs', Return _) =>
          saveAll view absoluteDir filenamePrefix (S i) rest fs'
                  (saved ++ [mkSaved jobId filePath]) failed
      | (fs', Throw e) =>
          saveAll view absoluteDir filenamePrefix (S i) rest fs'
                  saved (failed ++ [mkFailed jobId (message e)])
      end
  end.

Definition saveBatchImages (bs : gmap string BatchJob) (view : nat → gmap string ImageJob)
    (batchId directory filenamePrefix : string) (fs : FS)
  : FS * Outcome (list SavedEntry * list FailedEntry) :=
  match bs !! batchId with
  | None => (fs, Throw (BatchNotFound batchId))
  | Some batch =>
      let absoluteDir := path_resolve directory in
      let '(fs1, r1) := fs_mkdir absoluteDir fs in
      match r1 with
      | Some msg => (fs1, Throw (FsError msg))
      | None =>
          let '(fs2, lists) :=
            saveAll view absoluteDir filenamePrefix 0 (batch_jobIds batch) fs1 [] [] in
          (fs2, Return lists)
      end
  end.
End Persister.

(** ** Tool arguments and their Zod schemas (lines 84-149) *)

(** The value of [request.params.arguments]. A number keeps its literal:
    no schema of this file accepts one. An absent property or argument
    ([undefined]) is [None]. *)
#[warnings="-register-all"]
Inductive JSON :=
  | JNull
  | JBool (b : bool)
  | JNumber (literal : string)
  | JString (s : string)
  | JArray (items : list JSON)
  | JObject (fields : list (string * JSON)).

Fixpoint prop (key : string) (fields : list (string * JSON)) : option JSON :=
  match fields with
  | [] => None
  | (k, v) :: rest => if decide (k = key) then Some v else prop key rest
  end.

(** A schema parses a possibly absent value; [None] is a [ZodError]. *)
Definition Schema (A : Type) : Type := option JSON → option A.

Definition z_string : Schema string := λ v,
  match v with Some (JString s) => Some s | _ => None end.

Definition z_enum (values : list string) : Schema string := λ v,
  match v with
  | Some (JString s) => if decide (s ∈ values) then Some s else None
  | _ => None
  end.

Definition z_optional {A} (inner : Schema A) : Schema (option A) := λ v,
  match v with None => Some None | Some _ => Some <$> inner v end.

Definition z_default {A} (inner : Schema A) (d : A) : Schema A := λ v,
  match v with None => Some d | Some _ => inner v end.

(** [z.array(inner).min(lo).max(hi)] *)
Definition z_array {A} (inner : Schema A) (lo hi : nat) : Schema (list A) := λ v,
  match v with
  | Some (JArray items) =>
      if (lo <=? length items) && (length items <=? hi)
      then mapM (λ x, inner (Some x)) items
      else None
  | _ => None
  end.

Definition AVAILABLE_MODELS : list string :=
  [ "gemini-2.5-flash-image"; "gemini-2.5-flash-image-preview";
    "gemini-3-pro-image-preview"; "gemini-2.0-flash-exp-image-generation" ].

Definition ASPECT_RATIOS : list string := [ "1:1"; "3:4"; "4:3"; "9:16"; "16:9" ].

Definition GenerateImageSchema : Schema (string * string * string) := λ v,
  match v with
  | Some (JObject o) =>
      prompt ← z_string (prop "prompt" o);
      aspectRatio ← z_default (z_enum ASPECT_RATIOS) "1:1" (prop "aspectRatio" o);
      model ← z_default (z_enum AVAILABLE_MODELS) "gemini-3-pro-image-preview" (prop "model" o);
      Some (prompt, aspectRatio, model)
  | _ => None
  end.

Definition CheckJobStatusSchema : Schema string := λ v,
  match v with
  | Some (JObject o) => z_string (prop "jobId" o)
  | _ => None
  end.

Definition SaveImageSchema : Schema (string * string) := λ v,
  match v with
  | Some (JObject o) =>
      jobId ← z_string (prop "jobId" o);
      filePath ← z_string (prop "filePath" o);
      Some (jobId, filePath)
  | _ => None
  end.

Definition BatchPromptSchema : Schema BatchPrompt := λ v,
  match v with
  | Some (JObject o) =>
      prompt ← z_string (prop "prompt" o);
      aspectRatio ← z_optional (z_enum ASPECT_RATIOS) (prop "aspectRatio" o);
      model ← z_optional (z_enum AVAILABLE_MODELS) (prop "model" o);
      Some (mkPrompt prompt aspectRatio model)
  | _ => None
  end.

Definition GenerateBatchImagesSchema : Schema (list BatchPrompt * string * string) := λ v,
  match v with
  | Some (JObject o) =>
      prompts ← z_array BatchPromptSchema 1 20 (prop "prompts" o);
      defaultAspectRatio ←
        z_default (z_enum ASPECT_RATIOS) "1:1" (prop "defaultAspectRatio" o);
      defaultModel ←
        z_default (z_enum AVAILABLE_MODELS) "gemini-3-pro-image-preview" (prop "defaultModel" o);
      Some (prompts, defaultAspectRatio, defaultModel)
  | _ => None
  end.

Definition CheckBatchStatusSchema : Schema string := λ v,
  match v with
  | Some (JObject o) => z_string (prop "batchId" o)
  | _ => None
  end.

Definition SaveBatchImagesSchema : Schema (string * string * string) := λ v,
  match v with
  | Some (JObject o) =>
      batchId ← z_string (prop "batchId" o);
      directory ← z_string (prop "directory" o);
      filenamePrefix ← z_default z_string "image" (prop "filenamePrefix" o);
      Some (batchId, directory, filenamePrefix)
  | _ => None
  end.

(** ** The tool handlers (lines 576-837) *)

Record JobStatusResponse := mkJobStatusResponse {
  js_jobId : string;
  js_status : JobStatus;
  js_prompt : string;
  js_createdAt : Z;
  js_completedAt : option Z;
  js_hasResult : bool;
  js_error : option string
}.

Record JobSummary := mkJobSummary {
  ls_jobId : string;
  ls_status : JobStatus;
  ls_prompt : string;
  ls_createdAt : Z;
  ls_completedAt : option Z
}.

Record BatchSummary := mkBatchSummary {
  lb_batchId : string;
  lb_status : BatchStatus;
  lb_completedCount : nat;
  lb_totalCount : nat;
  lb_createdAt : Z;
  lb_completedAt : option Z
}.

Record SaveBatchResponse := mkSaveBatchResponse {
  sb_success : bool;
  sb_savedCount : nat;
  sb_failedCount : nat;
  sb_saved : list SavedEntry;
  sb_failed : option (list FailedEntry)
}.

(** The JSON text a handler returns, as data. *)
Inductive Response :=
  | GenerateImageResponse (jobId : string) (status : JobStatus)
  | CheckJobStatusResponse (r : JobStatusResponse)
  | SaveImageResponse (filePath : string)
  | ListJobsResponse (l : list JobSummary)
  | GenerateBatchImagesResponse (batchId : string) (jobIds : list string) (totalImages : nat)
  | CheckBatchStatusResponse (r : BatchReport)
  | SaveBatchImagesResponse (r : SaveBatchResponse)
  | ListBatchesResponse (l : list BatchSummary).

Definition check_job_status (jobId : string) (s : Server) : Outcome Response :=
  match jobs s !! jobId with
  | None => Throw (JobNotFound jobId)
  | Some job =>
      Return (CheckJobStatusResponse
        (mkJobStatusResponse (job_id job) (job_status job) (job_prompt job)
           (job_createdAt job) (job_completedAt job)
           (bool_decide (job_status job = Completed))
           (if decide (job_status job = Failed) then job_error job else None)))
  end.

(** [Array.from(jobs.values()).map(...)]; the order of the listing is
    that of [map_to_list], not the insertion order of the [Map]: only
    what does not depend on the order is proved of it. *)
Definition list_jobs (s : Server) : list JobSummary :=
  (λ kj : string * ImageJob,
     mkJobSummary (job_id kj.2) (job_status kj.2) (preview (job_prompt kj.2))
                  (job_createdAt kj.2) (job_completedAt kj.2))
  <$> map_to_list (jobs s).

(** One turn of the [map] callback of [list_batches], for the batch
    object held under [kb.1]: it calls [getBatchStatus(batch.id)] and then
    reads [totalCount] and [completedAt] from the batch object itself. *)
Definition list_batches_step (dates : string → Z)
    (acc : Server * Outcome (list BatchSummary)) (kb : string * BatchJob)
  : Server * Outcome (list BatchSummary) :=
  match acc with
  | (s, Throw e) => (s, Throw e)
  | (s, Return out) =>
      match getBatchStatus (batch_id kb.2) (dates (batch_id kb.2)) s with
      | (s', Throw e) => (s', Throw e)
      | (s', Return status) =>
          let batch := default kb.2 (batchJobs s' !! kb.1) in
          (s', Return (out ++ [mkBatchSummary (batch_id batch) (r_status status)
                                 (r_completedCount status) (batch_totalCount batch)
                                 (batch_createdAt batch) (batch_completedAt batch)]))
      end
  end.

Definition list_batches (dates : string → Z) (s : Server)
  : Server * Outcome (list BatchSummary) :=
  foldl (list_batches_step dates) (s, Return []) (map_to_list (batchJobs s)).

(** The same [map] over the entries of the store in a given order
    [order]: [Array.from(batchJobs.values())] is the enumeration in
    insertion order. *)
Definition list_batches_in (dates : string → Z) (order : list (string * BatchJob))
    (s : Server) : Server * Outcome (list BatchSummary) :=
  foldl (list_batches_step dates) (s, Return []) order.

(** The object the [save_batch_images] handler serialises (lines 781-789). *)
Definition save_batch_response (result : list SavedEntry * list FailedEntry)
  : SaveBatchResponse :=
  mkSaveBatchResponse (0 <? length result.1) (length result.1) (length result.2) result.1
    (if 0 <? length result.2 then Some result.2 else None).

Section Handlers.
Context `{Node}.

(** The [switch (name)] of the [CallToolRequestSchema] handler, with its
    [catch] that turns a [ZodError] into "Invalid arguments". The
    [save_batch_images] branch reads [batchJobs] when it is called and
    [jobs] at each iteration of its loop, as the run shows it then. *)
Definition handle (name : string) (args : option JSON) (e : Env) (w : Server * FS)
  : (Server * FS) * Outcome Response :=
  let '(s, fs) := w in
  if decide (name = "generate_image") then
    match GenerateImageSchema args with
    | None => (w, Throw InvalidArguments)
    | Some (prompt, aspectRatio, model) =>
        let '(s', jobId) := generateImage prompt aspectRatio model (e_gen e 0) s in
        ((s', fs), Return (GenerateImageResponse jobId Pending))
    end
  else if decide (name = "check_job_status") then
    match CheckJobStatusSchema args with
    | None => (w, Throw InvalidArguments)
    | Some jobId => (w, check_job_status jobId s)
    end
  else if decide (name = "save_image") then
    match SaveImageSchema args with
    | None => (w, Throw InvalidArguments)
    | Some (jobId, filePath) =>
        match saveImageToFile (jobs s) jobId filePath fs with
        | (fs', Return _) => ((s, fs'), Return (SaveImageResponse filePath))
        | (fs', Throw err) => ((s, fs'), Throw err)
        end
    end
  else if decide (name = "list_jobs") then
    (w, Return (ListJobsResponse (list_jobs s)))
  else if decide (name = "generate_batch_images") then
    match GenerateBatchImagesSchema args with
    | None => (w, Throw InvalidArguments)
    | Some (prompts, defaultAspectRatio, defaultModel) =>
        let '(s', (batchId, jobIds)) :=
          generateBatchImages prompts defaultAspectRatio defaultModel e s in
        ((s', fs), Return (GenerateBatchImagesResponse batchId jobIds (length prompts)))
    end
  else if decide (name = "check_batch_status") then
    match CheckBatchStatusSchema args with
    | None => (w, Throw InvalidArguments)
    | Some batchId =>
        match getBatchStatus batchId (e_date e) s with
        | (s', Return status) => ((s', fs), Return (CheckBatchStatusResponse status))
        | (s', Throw err) => ((s', fs), Throw err)
        end
    end
  else if decide (name = "save_batch_images") then
    match SaveBatchImagesSchema args with
    | None => (w, Throw InvalidArguments)
    | Some (batchId, directory, filenamePrefix) =>
        match saveBatchImages (batchJobs s) (λ i, e_seen e i (jobs s))
                batchId directory filenamePrefix fs
        with
        | (fs', Return result) =>
            ((s, fs'), Return (SaveBatchImagesResponse (save_batch_response result)))
        | (fs', Throw err) => ((s, fs'), Throw err)
        end
    end
  else if decide (name = "list_batches") then
    match list_batches (e_dates e) s with
    | (s', Return l) => ((s', fs), Return (ListBatchesResponse l))
    | (s', Throw err) => ((s', fs), Throw err)
    end
  else (w, Throw (UnknownTool name)).

(** ** The event loop

    One turn of the event loop is a tool call, or the resumption of one
    suspended generation closure ([k] is its position among the
    outstanding ones). *)
Inductive Event :=
  | ToolCall (name : string) (args : option JSON) (e : Env)
  | Settled (k : nat) (r : GenResult) (now : Z).

Definition exec (ev : Event) (w : Server * FS) : Server * FS :=
  match ev with
  | ToolCall name args e => (handle name args e w).1
  | Settled k r now =>
      match inflight w.1 !! k with
      | Some jobId => (with_inflight (settle jobId r now w.1) (delete k (inflight w.1)), w.2)
      | None => w
      end
  end.

Inductive reachable : Server * FS → Prop :=
  | reachable_init fs : reachable (init, fs)
  | reachable_exec w ev : reachable w → reachable (exec ev w).

(** The job identifiers and the batch identifier an event mints. *)
Definition minted_jobs (ev : Event) : list string :=
  match ev with
  | ToolCall name args e =>
      if decide (name = "generate_image") then
        match GenerateImageSchema args with
        | Some _ => [generateJobId (g_now (e_gen e 0)) (g_rnd (e_gen e 0))]
        | None => []
        end
      else if decide (name = "generate_batch_images") then
        match GenerateBatchImagesSchema args with
        | Some (prompts, _, _) =>
            (λ i, generateJobId (g_now (e_gen e i)) (g_rnd (e_gen e i)))
            <$> seq 0 (length prompts)
        | None => []
        end
      else []
  | Settled _ _ _ => []
  end.

Definition minted_batches (ev : Event) : list string :=
  match ev with
  | ToolCall name args e =>
      if decide (name = "generate_batch_images") then
        match GenerateBatchImagesSchema args with
        | Some _ => [generateBatchId (e_now e) (e_rnd e)]
        | None => []
        end
      else []
  | Settled _ _ _ => []
  end.

(** The identifier generator did not repeat itself: what the event
    mints is new to the stores, and pairwise distinct. *)
Definition fresh (ev : Event) (w : Server * FS) : Prop :=
  NoDup (minted_jobs ev)
  ∧ (∀ jobId, jobId ∈ minted_jobs ev → jobs w.1 !! jobId = None)
  ∧ (∀ batchId, batchId ∈ minted_batches ev → batchJobs w.1 !! batchId = None).

Inductive reachable_fresh : Server * FS → Prop :=
  | reachable_fresh_init fs : reachable_fresh (init, fs)
  | reachable_fresh_exec w ev :
      reachable_fresh w → fresh ev w → reachable_fresh (exec ev w).
End Handlers.

(** ** The [.env] loader and the API key (lines 26-49)

    A string is the sequence of its code units, and this development's
    characters are the 256 code units of Latin-1; among them JavaScript's
    white space and line terminators, which [trim] strips, are 9 to 13,
    32 and 160. *)

Definition newline : Ascii.ascii := Ascii.ascii_of_nat 10.
Definition equals_sign : Ascii.ascii := Ascii.ascii_of_nat 61.

Definition is_space (c : Ascii.ascii) : bool :=
  let n := Ascii.nat_of_ascii c in
  ((9 <=? n) && (n <=? 13)) || (n =? 32) || (n =? 160).

Fixpoint trimStart (s : string) : string :=
  match s with
  | EmptyString => EmptyString
  | String c rest => if is_space c then trimStart rest else s
  end.

Fixpoint trimEnd (s : string) : string :=
  match s with
  | EmptyString => EmptyString
  | String c rest =>
      match trimEnd rest with
      | EmptyString => if is_space c then EmptyString else String c EmptyString
      | rest' => String c rest'
      end
  end.

(** [s.trim()] *)
Definition trim (s : string) : string := trimEnd (trimStart s).

(** [s.split(sep)] for a separator of one character. *)
Fixpoint split (sep : Ascii.ascii) (s : string) : list string :=
  match s with
  | EmptyString => [EmptyString]
  | String c rest =>
      if Ascii.eqb c sep then EmptyString :: split sep rest
      else match split sep rest with
           | x :: xs => String c x :: xs
           | [] => [String c EmptyString]
           end
  end.

(** [parts.join(sep)] *)
Fixpoint join (sep : string) (parts : list string) : string :=
  match parts with
  | [] => EmptyString
  | x :: rest =>
      match rest with
      | [] => x
      | _ :: _ => x +:+ sep +:+ join sep rest
      end
  end.

(** The callback of [forEach], on [process.env] as a map (lines 32-39). *)
Definition load_line (env : gmap string string) (line : string) : gmap string string :=
  let trimmed := trim line in
  if truthy trimmed && negb (String.prefix "#" trimmed) then
    match split equals_sign trimmed with
    | key :: valueParts =>
        if truthy key && (0 <? length valueParts)
        then <[trim key := trim (join "=" valueParts)]> env
        else env
    | [] => env
    end
  else env.

(** Lines 30-41; [envContent] is the content of the file, if it exists. *)
Definition load_env (envContent : option string) (env : gmap string string)
  : gmap string string :=
  match envContent with
  | Some content => foldl load_line env (split newline content)
  | None => env
  end.

(** Lines 44-50: [process.env.GEMINI_API_KEY || ""], and the exit when it
    is empty: [None] is [process.exit(1)]. *)
Definition GEMINI_API_KEY (env : gmap string string) : string :=
  or_default (env !! "GEMINI_API_KEY") "".

Definition startup (envContent : option string) (env : gmap string string) : option string :=
  let key := GEMINI_API_KEY (load_env envContent env) in
  if truthy key then Some key else None.

(** ** The advertised tools (lines 401-574)

    The names the [ListToolsRequestSchema] handler lists, and the model
    names and aspect ratios its input schemas advertise. *)
Definition TOOLS : list string :=
  [ "generate_image"; "check_job_status"; "save_image"; "list_jobs";
    "generate_batch_images"; "check_batch_status"; "save_batch_images"; "list_batches" ].

Definition ADVERTISED_MODELS : list string :=
  [ "gemini-3-pro-image-preview"; "gemini-2.5-flash-image";
    "gemini-2.5-flash-image-preview"; "gemini-2.0-flash-exp-image-generation" ].

Definition ADVERTISED_ASPECT_RATIOS : list string := [ "1:1"; "3:4"; "4:3"; "9:16"; "16:9" ].

(** ** Vocabulary of the properties *)

Definition terminal (st : JobStatus) : Prop := st = Completed ∨ st = Failed.

(** How many of the listed members are in the store with status [st]. *)
Definition members_with (js : gmap string ImageJob) (st : JobStatus) (ids : list string) : nat :=
  length (filter (λ jobId, job_status <$> js !! jobId = Some st) ids).

(** How many of the listed members are in the store at all. *)
Definition members_present (js : gmap string ImageJob) (ids : list string) : nat :=
  length (filter (λ jobId, is_Some (js !! jobId)) ids).

(** The precedence table of the specification (section 4.5, step 3),
    written from its words. *)
Definition precedence (totalCount completed failed processing : nat) : BatchStatus :=
  let allDone := completed + failed =? totalCount in
  if allDone && (failed =? totalCount) then BatchFailed
  else if allDone && (0 <? failed) then BatchPartial
  else if allDone then BatchCompleted
  else if (0 <? processing) || (0 <? completed) then BatchProcessing
  else BatchPending.


(** One turn of the event loop takes the record [job] to [job']: nothing
    happened to it, or it was being processed and its generation call
    settled at [now]. *)
Definition job_evolves (job job' : ImageJob) : Prop :=
  job' = job
  ∨ (job_status job = Processing
     ∧ ∃ now, (∃ data, truthy data = true ∧ job' = complete data now job)
              ∨ (∃ msg, job' = fail msg now job)).

(** The record [generateImage] leaves behind for a new job: inserted as
    pending, advanced to processing before the call returns. *)
Definition job_born (jobId : string) (job' : ImageJob) : Prop :=
  ∃ prompt created,
    job' = set_processing (mkJob jobId Pending prompt None None created None).

Definition all_terminal (js : gmap string ImageJob) (ids : list string) : Prop :=
  Forall (λ jobId, ∃ job, js !! jobId = Some job ∧ terminal (job_status job)) ids.

Section Vocabulary.
Context `{Node}.

Definition execs (evs : list Event) (w : Server * FS) : Server * FS :=
  foldl (λ w ev, exec ev w) w evs.

Fixpoint fresh_run (evs : list Event) (w : Server * FS) : Prop :=
  match evs with
  | [] => True
  | ev :: rest => fresh ev w ∧ fresh_run rest (exec ev w)
  end.




End Vocabulary.

(** What one turn of the event loop can do to the stores, with the job
    and batch identifiers it mints. *)
Inductive move (s : Server) : list string → list string → Server → Prop :=
  | move_none : move s [] [] s
  | move_generate prompt aspectRatio model e :
      move s [generateJobId (g_now e) (g_rnd e)] []
           (generateImage prompt aspectRatio model e s).1
  | move_settle k jobId r now :
      inflight s !! k = Some jobId →
      move s [] [] (with_inflight (settle jobId r now s) (delete k (inflight s)))
  | move_batch prompts defaultAspectRatio defaultModel e :
      move s ((λ i, generateJobId (g_now (e_gen e i)) (g_rnd (e_gen e i)))
              <$> seq 0 (length prompts))
           [generateBatchId (e_now e) (e_rnd e)]
           (generateBatchImages prompts defaultAspectRatio defaultModel e s).1
  | move_status batchId now : move s [] [] (getBatchStatus batchId now s).1
  | move_list dates : move s [] [] (list_batches dates s).1.

(** The shape of a job record, status by status. *)
Definition job_shape (job : ImageJob) : Prop :=
  match job_status job with
  | Pending => False
  | Processing =>
      job_result job = None ∧ job_error job = None ∧ job_completedAt job = None
  | Completed =>
      (∃ data, job_result job = Some data ∧ truthy data = true)
      ∧ job_error job = None ∧ is_Some (job_completedAt job)
  | Failed =>
      job_result job = None ∧ is_Some (job_error job) ∧ is_Some (job_completedAt job)
  end.

(** Every outstanding generation call belongs to one job that is being
    processed, and every record has the shape of its status. *)
Definition dispatch_inv (s : Server) : Prop :=
  NoDup (inflight s)
  ∧ (∀ jobId, jobId ∈ inflight s →
       ∃ job, jobs s !! jobId = Some job ∧ job_status job = Processing)
  ∧ (∀ jobId job, jobs s !! jobId = Some job → job_shape job).

(** A completed job carries a non-empty result. *)
Definition result_inv (s : Server) : Prop :=
  ∀ jobId job, jobs s !! jobId = Some job → job_status job = Completed →
    ∃ data, job_result job = Some data ∧ truthy data = true.

(** A batch is stored under its own identifier, counts its members, and
    lists only jobs of the job store. *)
Definition batch_inv (s : Server) : Prop :=
  ∀ batchId batch, batchJobs s !! batchId = Some batch →
    batch_id batch = batchId
    ∧ batch_totalCount batch = length (batch_jobIds batch)
    ∧ ∀ jobId, jobId ∈ batch_jobIds batch → is_Some (jobs s !! jobId).

(** [s'] has the jobs of [s] unchanged, and new ones just born. *)
Definition extends (s s' : Server) : Prop :=
  (∀ jobId job, jobs s !! jobId = Some job → jobs s' !! jobId = Some job)
  ∧ (∀ jobId job', jobs s !! jobId = None → jobs s' !! jobId = Some job' →
       job_born jobId job').

(** What a turn of the event loop does to each job record. *)
Definition evolution (s s' : Server) : Prop :=
  ∀ jobId,
    match jobs s !! jobId with
    | None => ∀ job', jobs s' !! jobId = Some job' → job_born jobId job'
    | Some job =>
        ∃ job', jobs s' !! jobId = Some job' ∧ job_evolves job job'
                ∧ (terminal (job_status job) → job' = job)
    end.

(** What any number of turns does to each job record: a job that was
    there is left as it is or taken from processing to a terminal state;
    a job that was not there was born and then, possibly, settled. *)
Definition lifecycle (s s' : Server) : Prop :=
  ∀ jobId,
    match jobs s !! jobId with
    | None =>
        ∀ job', jobs s' !! jobId = Some job' →
          ∃ job0, job_born jobId job0 ∧ job_evolves job0 job'
    | Some job =>
        ∃ job', jobs s' !! jobId = Some job' ∧ job_evolves job job'
                ∧ (terminal (job_status job) → job' = job)
    end.

(** The tally kept for status [st], and the sum of the four tallies. *)
Definition count_of (st : JobStatus) (t : Tally) : nat :=
  match st with
  | Completed => completedCount t
  | Failed => failedCount t
  | Pending => pendingCount t
  | Processing => processingCount t
  end.

Definition total_of (t : Tally) : nat :=
  completedCount t + failedCount t + pendingCount t + processingCount t.

(** The identifiers [submitAll] mints from index [i] on. *)
Definition minted (gen : nat → GenEnv) (i n : nat) : list string :=
  (λ k, generateJobId (g_now (gen k)) (g_rnd (gen k))) <$> seq i n.

(** Every job is stored under its own identifier and is past pending. *)
Definition store_inv (s : Server) : Prop :=
  ∀ jobId job, jobs s !! jobId = Some job →
    job_id job = jobId ∧ job_status job ≠ Pending.

(** Every job being processed has a generation call outstanding. *)
Definition outstanding_inv (s : Server) : Prop :=
  ∀ jobId job, jobs s !! jobId = Some job → job_status job = Processing →
    jobId ∈ inflight s.

(** The entry of [jobDetails] for a job. *)
Definition detail_of (job : ImageJob) : JobDetail :=
  mkDetail (job_id job) (job_status job) (preview (job_prompt job)).

(** Every batch has between 1 and 20 members. *)
Definition size_inv (s : Server) : Prop :=
  ∀ batchId batch, batchJobs s !! batchId = Some batch → 1 ≤ batch_totalCount batch ≤ 20.

(** What [list_batches] makes of one batch: the batch after the visit, and
    the summary it reports. *)
Definition visited (dates : string → Z) (js : gmap string ImageJob) (batch : BatchJob)
  : BatchJob :=
  stamp (tally js (batch_jobIds batch)) (dates (batch_id batch)) batch.

Definition summary_of (dates : string → Z) (js : gmap string ImageJob) (batch : BatchJob)
  : BatchSummary :=
  let t := tally js (batch_jobIds batch) in
  mkBatchSummary (batch_id batch) (overall t batch) (completedCount t)
                 (batch_totalCount batch) (batch_createdAt batch)
                 (batch_completedAt (visited dates js batch)).

(** The character ["_"], and the strings that do not contain a character. *)
Definition underscore : Ascii.ascii := Ascii.ascii_of_nat 95.

Fixpoint free_of (c : Ascii.ascii) (s : string) : Prop :=
  match s with
  | EmptyString => True
  | String a rest => a ≠ c ∧ free_of c rest
  end.

(** A batch that carries a completion time has every member in a
    terminal state. *)
Definition stamped_inv (s : Server) : Prop :=
  ∀ batchId batch, batchJobs s !! batchId = Some batch →
    is_Some (batch_completedAt batch) → all_terminal (jobs s) (batch_jobIds batch).

(** The error [saveImageToFile] ends in for a job that is not in the
    store, or in it and not completed. *)
Definition not_ready (js : gmap string ImageJob) (jobId : string) : Error :=
  match js !! jobId with
  | Some job => JobNotCompleted jobId (job_status job)
  | None => JobNotFound jobId
  end.

(** ** A runtime to run the model on

    The filesystem is the list of calls it received; [mkdir] always
    succeeds and [writeFile] rejects a destination under ["/readonly/"]. *)

Inductive FsCall :=
  | MkdirCall (path : string)
  | WriteFileCall (path : string) (data : list Byte.byte).

Fixpoint last_slash (s : string) : option nat :=
  match s with
  | EmptyString => None
  | String c rest =>
      match last_slash rest with
      | Some n => Some (S n)
      | None => if String.eqb (String c EmptyString) "/" then Some 0 else None
      end
  end.

Definition test_dirname (p : string) : string :=
  match last_slash p with
  | Some 0 => "/"
  | Some n => String.substring 0 n p
  | None => "."
  end.

Definition test_node : Node := {|
  FS := list FsCall;
  path_resolve := λ p, p;
  path_dirname := test_dirname;
  path_join := λ d f, d +:+ "/" +:+ f;
  fs_mkdir := λ p fs, (fs ++ [MkdirCall p], None);
  fs_writeFile := λ p data fs,
    if String.prefix "/readonly/" p
    then (fs, Some ("EACCES: permission denied, open '" +:+ p +:+ "'"))
    else (fs ++ [WriteFileCall p data], None);
  Buffer_from_base64 := λ data, Byte.x00 :: []
|}.

Definition job_done : ImageJob :=
  mkJob "job_1_a" Completed "a cat" (Some "aGk=") None 1%Z (Some 5%Z).

Definition job_busy : ImageJob :=
  mkJob "job_2_b" Processing "a dog" None None 2%Z None.

Definition job_lost : ImageJob :=
  mkJob "job_3_c" Failed "a fox" None (Some "quota exceeded") 3%Z (Some 9%Z).

Definition sample_jobs : gmap string ImageJob :=
  <["job_1_a" := job_done]> (<["job_2_b" := job_busy]> (<["job_3_c" := job_lost]> ∅)).

Definition sample_batch : BatchJob :=
  mkBatch "batch_4_d" ["job_1_a"; "job_2_b"; "job_3_c"] 3 4%Z None.

Definition sample_server : Server :=
  mkServer sample_jobs (<["batch_4_d" := sample_batch]> ∅) ["job_2_b"].

(** A batch that lists an identifier the job store does not hold. *)
Definition orphan_batch : BatchJob :=
  mkBatch "batch_4_d" ["job_1_a"; "job_9_z"] 2 4%Z None.

Definition orphan_server : Server :=
  mkServer (<["job_1_a" := job_done]> ∅) (<["batch_4_d" := orphan_batch]> ∅) [].

Definition sample_env : Env :=
  mkEnv (λ i, mkGenEnv (1 + Z.of_nat i) ("r" +:+ pretty i) (1 + Z.of_nat i)) 4 "d" 4 (λ _, 7%Z)
        (λ _ js, js).

Definition submit_cat : Event :=
  ToolCall "generate_image" (Some (JObject [("prompt", JString "a cat")])) sample_env.

Definition cat_arrives : Event := Settled 0 (Resolved (Some "aGk=")) 5.

Definition world0 : Server * list FsCall := (init, []).
Definition world1 : Server * list FsCall := exec (H := test_node) submit_cat world0.
Definition world2 : Server * list FsCall := exec (H := test_node) cat_arrives world1.

Definition submit_pair : Event :=
  ToolCall "generate_batch_images"
    (Some (JObject [("prompts",
       JArray [ JObject [("prompt", JString "a cat")];
                JObject [("prompt", JString "a dog"); ("aspectRatio", JString "16:9")] ])]))
    sample_env.

Definition dog_fails : Event := Settled 0 (Rejected "quota exceeded") 6.

Definition world3 : Server * list FsCall := exec (H := test_node) submit_pair world0.
Definition world4 : Server * list FsCall := exec (H := test_node) cat_arrives world3.
Definition world5 : Server * list FsCall := exec (H := test_node) dog_fails world4.

Definition pair_batch : BatchJob :=
  mkBatch "batch_4_d" ["job_1_r0"; "job_2_r1"] 2 4 None.

(** The batch of [world5], polled once both members have settled. *)
Definition poll_pair : Event :=
  ToolCall "check_batch_status" (Some (JObject [("batchId", JString "batch_4_d")])) sample_env.

Definition world6 : Server * list FsCall := exec (H := test_node) poll_pair world5.

Definition pair_batch_done : BatchJob :=
  mkBatch "batch_4_d" ["job_1_r0"; "job_2_r1"] 2 4 (Some 4%Z).


(** A second batch, submitted after the batch of [world5]. *)
Definition later_env : Env :=
  mkEnv (λ i, mkGenEnv (11 + Z.of_nat i) ("s" +:+ pretty i) (11 + Z.of_nat i)) 9 "z" 9
        (λ _, 7%Z) (λ _ js, js).

Definition submit_bird : Event :=
  ToolCall "generate_batch_images"
    (Some (JObject [("prompts", JArray [ JObject [("prompt", JString "a bird")] ])]))
    later_env.

Definition world7 : Server * list FsCall := exec (H := test_node) submit_bird world5.

Definition bird_batch : BatchJob := mkBatch "batch_9_z" ["job_11_s0"] 1 9 None.



(** A request with twenty-one prompts. *)
Definition oversized_args : list (string * JSON) :=
  [("prompts", JArray (replicate 21 (JObject [("prompt", JString "a cat")])))].

(** A store with one batch ["b"] whose members have the given statuses,
    and the status the aggregator reports for it. *)
Definition snapshot (statuses : list JobStatus) : Server :=
  mkServer
    (list_to_map (imap (λ i st, ("j" +:+ pretty i,
                                 mkJob ("j" +:+ pretty i) st "p" None None 0 None)) statuses))
    (<["b" := mkBatch "b" (imap (λ i _, "j" +:+ pretty i) statuses) (length statuses) 0 None]> ∅)
    [].

Definition aggregate (statuses : list JobStatus) : option BatchStatus :=
  match (getBatchStatus "b" 1 (snapshot statuses)).2 with
  | Return r => Some (r_status r)
  | Throw _ => None
  end.

(** * Properties *)

(** ** The tallies of the aggregator *)

Lemma members_with_cons js st jobId ids :
  members_with js st (jobId :: ids) =
  (if decide (job_status <$> js !! jobId = Some st) then 1 else 0) + members_with js st ids.
Proof.
  unfold members_with. rewrite filter_cons. by case_decide.
Qed.

Lemma tally_step_count js st t jobId :
  count_of st (tally_step js t jobId) =
  count_of st t + (if decide (job_status <$> js !! jobId = Some st) then 1 else 0).
Proof.
  unfold tally_step.
  destruct (js !! jobId) as [job|]; cbn [fmap option_fmap option_map].
  - case_decide as E.
    + injection E as <-. destruct (job_status job); simpl; lia.
    + destruct (job_status job), st; simpl; (lia || congruence).
  - case_decide; [congruence | lia].
Qed.

Lemma tally_fold_count js st ids : ∀ t,
  count_of st (foldl (tally_step js) t ids) = count_of st t + members_with js st ids.
Proof.
  induction ids as [|jobId ids IH]; intros t; simpl.
  - unfold members_with. simpl. lia.
  - rewrite IH, tally_step_count, members_with_cons. lia.
Qed.

Lemma tally_count js st ids : count_of st (tally js ids) = members_with js st ids.
Proof. unfold tally. rewrite tally_fold_count. by destruct st. Qed.

Lemma members_with_le js st ids : members_with js st ids ≤ length ids.
Proof. unfold members_with. apply length_filter. Qed.

Lemma members_with_all js st ids :
  members_with js st ids = length ids →
  Forall (λ jobId, job_status <$> js !! jobId = Some st) ids.
Proof.
  induction ids as [|jobId ids IH]; [constructor|].
  rewrite members_with_cons. simpl. intros Hlen.
  pose proof (members_with_le js st ids).
  case_decide; [|lia].
  constructor; [done|]. apply IH. lia.
Qed.

Lemma overall_precedence t batch :
  overall t batch =
  precedence (batch_totalCount batch) (completedCount t) (failedCount t) (processingCount t).
Proof.
  unfold overall, precedence, allDone.
  destruct (completedCount t + failedCount t =? batch_totalCount batch); simpl; [|done].
  destruct (failedCount t =? batch_totalCount batch); [done|].
  by destruct (0 <? failedCount t).
Qed.

Lemma stamp_fields t now batch :
  batch_id (stamp t now batch) = batch_id batch
  ∧ batch_jobIds (stamp t now batch) = batch_jobIds batch
  ∧ batch_totalCount (stamp t now batch) = batch_totalCount batch
  ∧ batch_createdAt (stamp t now batch) = batch_createdAt batch.
Proof.
  unfold stamp. destruct (allDone t batch); [|done].
  by destruct (batch_completedAt batch).
Qed.

(** C1. For every batch and every snapshot of the job store,
    [getBatchStatus] returns the tallies of its members' statuses and the
    status the precedence table gives for them: with [allDone] meaning
    completed + failed = totalCount, failed if [allDone] and every count is
    a failure, else partial if [allDone] with a failure, else completed if
    [allDone], else processing if something is processing or completed,
    else pending. A failed batch has failedCount = totalCount (and, when
    totalCount is the number of members, every member failed); an all-done
    batch with a completed member is never failed, and is partial as soon
    as it also has a failure. *)
Theorem C1_precedence_table (s : Server) (batchId : string) (batch : BatchJob) (now : Z) :
  batchJobs s !! batchId = Some batch →
  ∃ r, (getBatchStatus batchId now s).2 = Return r
    ∧ r_totalCount r = batch_totalCount batch
    ∧ r_completedCount r = members_with (jobs s) Completed (batch_jobIds batch)
    ∧ r_failedCount r = members_with (jobs s) Failed (batch_jobIds batch)
    ∧ r_pendingCount r = members_with (jobs s) Pending (batch_jobIds batch)
    ∧ r_processingCount r = members_with (jobs s) Processing (batch_jobIds batch)
    ∧ r_status r =
        precedence (r_totalCount r) (r_completedCount r) (r_failedCount r) (r_processingCount r)
    ∧ (r_status r = BatchFailed → r_failedCount r = r_totalCount r)
    ∧ (r_status r = BatchFailed → batch_totalCount batch = length (batch_jobIds batch) →
       Forall (λ jobId, job_status <$> jobs s !! jobId = Some Failed) (batch_jobIds batch))
    ∧ (r_completedCount r + r_failedCount r = r_totalCount r → 0 < r_completedCount r →
       r_status r ≠ BatchFailed ∧ (0 < r_failedCount r → r_status r = BatchPartial)).
Proof.
  intros Hb. unfold getBatchStatus. rewrite Hb. simpl.
  set (t := tally (jobs s) (batch_jobIds batch)).
  destruct (stamp_fields t now batch) as (_ & _ & Htot & _).
  assert (Hfailed : overall t batch = BatchFailed → failedCount t = batch_totalCount batch).
  { unfold overall. destruct (allDone t batch).
    - destruct (failedCount t =? batch_totalCount batch) eqn:E.
      + intros _. by apply Nat.eqb_eq.
      + by destruct (0 <? failedCount t).
    - by destruct ((0 <? processingCount t) || (0 <? completedCount t)). }
  eexists. split; [reflexivity|]. simpl.
  rewrite Htot.
  repeat split.
  - apply (tally_count _ Completed).
  - apply (tally_count _ Failed).
  - apply (tally_count _ Pending).
  - apply (tally_count _ Processing).
  - apply overall_precedence.
  - done.
  - intros Hst Hlen. apply members_with_all.
    rewrite <- (tally_count _ Failed). simpl. fold t.
    rewrite <- Hlen. by apply Hfailed.
  - intros Hst. apply Hfailed in Hst. lia.
  - intros Hf. unfold overall, allDone.
    apply Nat.eqb_eq in H. rewrite H.
    destruct (failedCount t =? batch_totalCount batch) eqn:E.
    + apply Nat.eqb_eq in E. apply Nat.eqb_eq in H. lia.
    + apply Nat.ltb_lt in Hf. by rewrite Hf.
Qed.

Lemma C1_precedence_table_witness :
  batchJobs sample_server !! "batch_4_d" = Some sample_batch
  ∧ ∃ r, (getBatchStatus "batch_4_d" 7 sample_server).2 = Return r
      ∧ r_status r = BatchProcessing.
Proof.
  assert (Hb : batchJobs sample_server !! "batch_4_d" = Some sample_batch)
    by (vm_compute; reflexivity).
  split; [exact Hb|].
  destruct (C1_precedence_table sample_server "batch_4_d" sample_batch 7 Hb)
    as (r & Hr & Htot & Hc & Hf & Hp & Hg & Hst & _).
  exists r. split; [exact Hr|].
  rewrite Hst, Htot, Hc, Hf, Hg. vm_compute. reflexivity.
Defined.

(** The five snapshots of section 8 of the specification. *)
Example aggregate_all_failed : aggregate [Failed; Failed; Failed] = Some BatchFailed.
Proof. vm_compute. reflexivity. Qed.

Example aggregate_one_success : aggregate [Completed; Failed; Failed] = Some BatchPartial.
Proof. vm_compute. reflexivity. Qed.

Example aggregate_all_completed :
  aggregate [Completed; Completed; Completed] = Some BatchCompleted.
Proof. vm_compute. reflexivity. Qed.

Example aggregate_all_pending : aggregate [Pending; Pending; Pending] = Some BatchPending.
Proof. vm_compute. reflexivity. Qed.

Example aggregate_mixed : aggregate [Processing; Completed; Pending] = Some BatchProcessing.
Proof. vm_compute. reflexivity. Qed.

(** Failures alone do not end a batch: with a member outstanding it is
    pending or processing. *)
Example aggregate_failed_and_pending : aggregate [Failed; Failed; Pending] = Some BatchPending.
Proof. vm_compute. reflexivity. Qed.

(** ** What each operation does to the stores *)

Lemma getBatchStatus_jobs batchId now s :
  jobs (getBatchStatus batchId now s).1 = jobs s
  ∧ inflight (getBatchStatus batchId now s).1 = inflight s.
Proof. unfold getBatchStatus. by destruct (batchJobs s !! batchId). Qed.

Lemma getBatchStatus_lookup batchId now s other :
  batchJobs (getBatchStatus batchId now s).1 !! other =
  (λ batch, if decide (other = batchId)
            then stamp (tally (jobs s) (batch_jobIds batch)) now batch
            else batch) <$> batchJobs s !! other.
Proof.
  unfold getBatchStatus.
  destruct (batchJobs s !! batchId) as [batch|] eqn:Hb; simpl.
  - destruct (decide (other = batchId)) as [->|Hne].
    + by rewrite lookup_insert_eq, Hb.
    + rewrite lookup_insert_ne by done. by destruct (batchJobs s !! other).
  - destruct (decide (other = batchId)) as [->|Hne].
    + by rewrite Hb.
    + by destruct (batchJobs s !! other).
Qed.

Lemma list_batches_fold (P : Server → Prop) dates l :
  (∀ s batchId now, P s → P (getBatchStatus batchId now s).1) →
  ∀ acc, P acc.1 → P (foldl (list_batches_step dates) acc l).1.
Proof.
  intros Hstep. induction l as [|kb l IH]; intros acc Hacc; simpl; [done|].
  apply IH. unfold list_batches_step.
  destruct acc as [s [out|e]]; simpl in *; [|done].
  specialize (Hstep s (batch_id kb.2) (dates (batch_id kb.2)) Hacc).
  destruct (getBatchStatus (batch_id kb.2) (dates (batch_id kb.2)) s) as [s' [r|e]];
    simpl in *; done.
Qed.

Lemma list_batches_preserves (P : Server → Prop) dates s :
  (∀ s batchId now, P s → P (getBatchStatus batchId now s).1) →
  P s → P (list_batches dates s).1.
Proof. intros Hstep Hs. unfold list_batches. by apply list_batches_fold. Qed.

Lemma generateImage_lookup prompt aspectRatio model e s jobId :
  jobs (generateImage prompt aspectRatio model e s).1 !! jobId =
  if decide (jobId = generateJobId (g_now e) (g_rnd e))
  then Some (set_processing (mkJob jobId Pending prompt None None (g_created e) None))
  else jobs s !! jobId.
Proof.
  unfold generateImage, startGeneration, createJob. simpl.
  case_decide as Hid.
  - subst jobId. by rewrite lookup_alter_eq, lookup_insert_eq.
  - rewrite lookup_alter_ne by done. by rewrite lookup_insert_ne.
Qed.

Lemma generateImage_rest prompt aspectRatio model e s :
  batchJobs (generateImage prompt aspectRatio model e s).1 = batchJobs s
  ∧ inflight (generateImage prompt aspectRatio model e s).1 =
    inflight s ++ [generateJobId (g_now e) (g_rnd e)]
  ∧ (generateImage prompt aspectRatio model e s).2 = generateJobId (g_now e) (g_rnd e).
Proof. done. Qed.

Lemma settle_lookup jobId r now s other :
  jobs (settle jobId r now s) !! other =
  if decide (other = jobId)
  then (λ job, match r with
               | Resolved (Some data) =>
                   if truthy data then complete data now job
                   else fail "No image data in response" now job
               | Resolved None => fail "No image data in response" now job
               | Rejected msg => fail msg now job
               end) <$> jobs s !! other
  else jobs s !! other.
Proof.
  unfold settle. case_decide as Hid.
  - subst other.
    destruct r as [[data|]|msg]; [destruct (truthy data)|..]; simpl;
      by rewrite lookup_alter_eq.
  - destruct r as [[data|]|msg]; [destruct (truthy data)|..]; simpl;
      by rewrite lookup_alter_ne.
Qed.

Lemma settle_rest jobId r now s :
  batchJobs (settle jobId r now s) = batchJobs s
  ∧ inflight (settle jobId r now s) = inflight s.
Proof. unfold settle. by destruct r as [[data|]|msg]; [destruct (truthy data)|..]. Qed.

Lemma submitAll_spec prompts dar dm gen : ∀ i s ids,
  (submitAll prompts dar dm gen i s ids).2 = ids ++ minted gen i (length prompts)
  ∧ batchJobs (submitAll prompts dar dm gen i s ids).1 = batchJobs s
  ∧ inflight (submitAll prompts dar dm gen i s ids).1 =
    inflight s ++ minted gen i (length prompts)
  ∧ (∀ jobId, is_Some (jobs s !! jobId) →
       is_Some (jobs (submitAll prompts dar dm gen i s ids).1 !! jobId))
  ∧ (∀ jobId, jobId ∈ minted gen i (length prompts) →
       is_Some (jobs (submitAll prompts dar dm gen i s ids).1 !! jobId)).
Proof.
  induction prompts as [|p prompts IH]; intros i s ids; simpl.
  - unfold minted. simpl. rewrite !app_nil_r. repeat split; [done|].
    intros jobId Hin. by apply elem_of_nil in Hin.
  - set (e := gen i).
    set (s1 := startGeneration _ _).
    destruct (IH (S i) s1 (ids ++ [generateJobId (g_now e) (g_rnd e)]))
      as (Hids & Hb & Hfl & Hdom & Hnew).
    assert (Hs1 : ∀ jobId, jobs s1 !! jobId =
                     jobs (generateImage (bp_prompt p) (or_default (bp_aspectRatio p) dar)
                             (or_default (bp_model p) dm) e s).1 !! jobId) by done.
    unfold minted in *. simpl. fold e.
    repeat split.
    + rewrite Hids. by rewrite <- app_assoc.
    + by rewrite Hb.
    + rewrite Hfl. subst s1. simpl. by rewrite <- app_assoc.
    + intros jobId Hj. apply Hdom. rewrite Hs1, generateImage_lookup.
      by case_decide.
    + intros jobId Hin. apply elem_of_cons in Hin as [->|Hin].
      * apply Hdom. rewrite Hs1, generateImage_lookup. by rewrite decide_True.
      * by apply Hnew.
Qed.

Section Moves.
Context `{Node}.

Lemma exec_move ev w : move w.1 (minted_jobs ev) (minted_batches ev) (exec ev w).1.
Proof.
  destruct ev as [name args e|k r now]; destruct w as [s fs]; simpl.
  - unfold handle.
    destruct (decide (name = "generate_image")) as [->|?].
    { destruct (GenerateImageSchema args) as [[[p a] m]|]; simpl;
        [exact (move_generate s p a m (e_gen e 0)) | apply move_none]. }
    destruct (decide (name = "check_job_status")) as [->|?].
    { destruct (CheckJobStatusSchema args); simpl; apply move_none. }
    destruct (decide (name = "save_image")) as [->|?].
    { destruct (SaveImageSchema args) as [[jobId filePath]|]; simpl; [|apply move_none].
      destruct (saveImageToFile (jobs s) jobId filePath fs) as [fs' [[]|err]];
        simpl; apply move_none. }
    destruct (decide (name = "list_jobs")) as [->|?].
    { simpl. apply move_none. }
    destruct (decide (name = "generate_batch_images")) as [->|?].
    { destruct (GenerateBatchImagesSchema args) as [[[prompts dar] dm]|]; simpl;
        [|apply move_none].
      destruct (generateBatchImages prompts dar dm e s) as [s' [batchId jobIds]] eqn:E.
      simpl. replace s' with (generateBatchImages prompts dar dm e s).1 by (by rewrite E).
      apply move_batch. }
    destruct (decide (name = "check_batch_status")) as [->|?].
    { destruct (CheckBatchStatusSchema args) as [batchId|]; simpl; [|apply move_none].
      destruct (getBatchStatus batchId (e_date e) s) as [s' [r|err]] eqn:E; simpl;
        (replace s' with (getBatchStatus batchId (e_date e) s).1 by (by rewrite E));
        apply move_status. }
    destruct (decide (name = "save_batch_images")) as [->|?].
    { destruct (SaveBatchImagesSchema args) as [[[batchId directory] prefix]|]; simpl;
        [|apply move_none].
      destruct (saveBatchImages (batchJobs s) (λ i, e_seen e i (jobs s))
                  batchId directory prefix fs) as [fs' [lists|err]];
        simpl; apply move_none. }
    destruct (decide (name = "list_batches")) as [->|?].
    { destruct (list_batches (e_dates e) s) as [s' [l|err]] eqn:E; simpl;
        (replace s' with (list_batches (e_dates e) s).1 by (by rewrite E));
        apply move_list. }
    simpl. apply move_none.
  - destruct (inflight s !! k) as [jobId|] eqn:Hk; simpl.
    + by apply move_settle.
    + apply move_none.
Qed.
End Moves.

(** ** Invariants of the stores *)

Lemma submitAll_preserves (P : Server → Prop) prompts dar dm gen :
  (∀ s p a m e, P s → P (generateImage p a m e s).1) →
  ∀ i s ids, P s → P (submitAll prompts dar dm gen i s ids).1.
Proof.
  intros Hstep. induction prompts as [|p prompts IH]; intros i s ids Hs; simpl; [done|].
  apply IH.
  exact (Hstep s (bp_prompt p) (or_default (bp_aspectRatio p) dar)
               (or_default (bp_model p) dm) (gen i) Hs).
Qed.

Lemma generateBatchImages_unfold prompts dar dm e s :
  let r := submitAll prompts dar dm (e_gen e) 0 s [] in
  generateBatchImages prompts dar dm e s =
  (with_batchJobs r.1
     (<[generateBatchId (e_now e) (e_rnd e) :=
          mkBatch (generateBatchId (e_now e) (e_rnd e)) r.2 (length prompts) (e_date e) None]>
        (batchJobs r.1)),
   (generateBatchId (e_now e) (e_rnd e), r.2)).
Proof.
  unfold generateBatchImages.
  by destruct (submitAll prompts dar dm (e_gen e) 0 s []).
Qed.

Lemma stamp_jobs_only batchId now s :
  with_batchJobs s (batchJobs (getBatchStatus batchId now s).1) = (getBatchStatus batchId now s).1.
Proof. unfold getBatchStatus. destruct (batchJobs s !! batchId); by destruct s. Qed.

Lemma list_batches_jobs dates s :
  jobs (list_batches dates s).1 = jobs s ∧ inflight (list_batches dates s).1 = inflight s.
Proof.
  apply (list_batches_preserves (λ s', jobs s' = jobs s ∧ inflight s' = inflight s));
    [|done].
  intros s' batchId now [Hj Hi].
  destruct (getBatchStatus_jobs batchId now s') as [-> ->]. done.
Qed.

Lemma generateImage_result_inv p a m e s :
  result_inv s → result_inv (generateImage p a m e s).1.
Proof.
  intros Hs jobId job. rewrite generateImage_lookup.
  case_decide; [|by apply Hs].
  intros [= <-]. done.
Qed.

Lemma move_result_inv s mj mb s' : move s mj mb s' → result_inv s → result_inv s'.
Proof.
  intros Hmove Hs. destruct Hmove as [|p a m e|k jobId r now Hk|prompts dar dm e|batchId now|dates].
  - done.
  - by apply generateImage_result_inv.
  - intros other job. simpl. rewrite settle_lookup.
    case_decide as Hid; [|by apply Hs].
    destruct (jobs s !! other) as [old|]; simpl; [|done].
    intros [= <-].
    destruct r as [[data|]|msg]; [destruct (truthy data) eqn:Ht|..]; simpl; try done.
    intros _. by exists data.
  - rewrite generateBatchImages_unfold. simpl.
    apply (submitAll_preserves result_inv); [|done].
    intros. by apply generateImage_result_inv.
  - intros jobId job. destruct (getBatchStatus_jobs batchId now s) as [-> _]. apply Hs.
  - intros jobId job. destruct (list_batches_jobs dates s) as [-> _]. apply Hs.
Qed.

Lemma getBatchStatus_batch_inv batchId now s :
  batch_inv s → batch_inv (getBatchStatus batchId now s).1.
Proof.
  intros Hs other batch'. rewrite getBatchStatus_lookup.
  destruct (getBatchStatus_jobs batchId now s) as [-> _].
  destruct (batchJobs s !! other) as [batch|] eqn:Hb; simpl; [|done].
  intros [= <-]. destruct (Hs other batch Hb) as (Hid & Htot & Hmem).
  case_decide; [|done].
  destruct (stamp_fields (tally (jobs s) (batch_jobIds batch)) now batch)
    as (-> & -> & -> & _). done.
Qed.

Lemma generateImage_batch_inv p a m e s :
  batch_inv s → batch_inv (generateImage p a m e s).1.
Proof.
  intros Hs batchId batch Hb. destruct (Hs batchId batch Hb) as (Hid & Htot & Hmem).
  repeat split; [done..|].
  intros jobId Hin. rewrite generateImage_lookup. case_decide; [done|]. by apply Hmem.
Qed.

Lemma minted_length gen i n : length (minted gen i n) = n.
Proof. unfold minted. by rewrite length_fmap, length_seq. Qed.

Lemma move_batch_inv s mj mb s' : move s mj mb s' → batch_inv s → batch_inv s'.
Proof.
  intros Hmove Hs. destruct Hmove as [|p a m e|k jobId r now Hk|prompts dar dm e|batchId now|dates].
  - done.
  - by apply generateImage_batch_inv.
  - intros batchId batch. simpl. destruct (settle_rest jobId r now s) as [-> _].
    intros Hb. destruct (Hs batchId batch Hb) as (Hid & Htot & Hmem).
    repeat split; [done..|].
    intros other Hin. rewrite settle_lookup.
    specialize (Hmem other Hin). case_decide; [|done]. by apply fmap_is_Some.
  - rewrite generateBatchImages_unfold. simpl.
    pose proof (submitAll_preserves batch_inv prompts dar dm (e_gen e)
                  (λ s p a m e, generateImage_batch_inv p a m e s) 0 s [] Hs) as Hinv.
    destruct (submitAll_spec prompts dar dm (e_gen e) 0 s []) as (Hids & _ & _ & _ & Hnew).
    intros batchId batch. simpl.
    destruct (decide (batchId = generateBatchId (e_now e) (e_rnd e))) as [->|Hne].
    + rewrite lookup_insert_eq. intros [= <-]. simpl.
      rewrite Hids. simpl. rewrite minted_length. repeat split; [done..|].
      intros jobId Hin. by apply Hnew.
    + rewrite lookup_insert_ne by done. apply Hinv.
  - by apply getBatchStatus_batch_inv.
  - apply (list_batches_preserves batch_inv); [|done].
    intros. by apply getBatchStatus_batch_inv.
Qed.

Section Reachable.
Context `{Node}.

Lemma reachable_result_inv w : reachable w → result_inv w.1.
Proof.
  induction 1 as [fs|w ev _ IH]; [by intros jobId job|].
  exact (move_result_inv _ _ _ _ (exec_move ev w) IH).
Qed.

Lemma reachable_batch_inv w : reachable w → batch_inv w.1.
Proof.
  induction 1 as [fs|w ev _ IH]; [by intros batchId batch|].
  exact (move_batch_inv _ _ _ _ (exec_move ev w) IH).
Qed.

Lemma reachable_fresh_reachable w : reachable_fresh w → reachable w.
Proof. induction 1; by constructor. Qed.
End Reachable.

(** ** Saving one image *)

Lemma world2_reachable : reachable (H := test_node) world2.
Proof.
  exact (reachable_exec (H := test_node) _ cat_arrives
           (reachable_exec (H := test_node) _ submit_cat
              (reachable_init (H := test_node) []))).
Qed.

(** C3. For every job id and destination path, in every reachable state:
    [saveImageToFile] fails with the NotFound error when the id is not in
    the job store; fails with the InvalidState error when the job is not
    completed, whatever else its status is; fails with the ValidationError
    error when the job is completed and the resolved path does not end in
    ".png"; in these three cases the filesystem it returns is the one it
    was given, no filesystem call being made. Otherwise it creates the
    parent directory of the resolved path, decodes the stored result, and
    writes it to the resolved path, failing only if one of the two
    filesystem calls does. (The three checks come in this order; a path
    that does not end in ".png" always ends in one of the three errors,
    with no filesystem call.) *)
Theorem C3_saveImageToFile `{Node} (w : Server * FS) (jobId filePath : string) (fs : FS) :
  reachable w →
  (jobs w.1 !! jobId = None →
     saveImageToFile (jobs w.1) jobId filePath fs = (fs, Throw (JobNotFound jobId))
     ∧ classify (JobNotFound jobId) = NotFound)
  ∧ (∀ job, jobs w.1 !! jobId = Some job → job_status job ≠ Completed →
       saveImageToFile (jobs w.1) jobId filePath fs =
         (fs, Throw (JobNotCompleted jobId (job_status job)))
       ∧ classify (JobNotCompleted jobId (job_status job)) = InvalidState)
  ∧ (∀ job, jobs w.1 !! jobId = Some job → job_status job = Completed →
       endsWith (path_resolve filePath) ".png" = false →
       saveImageToFile (jobs w.1) jobId filePath fs = (fs, Throw PathNotPng)
       ∧ classify PathNotPng = ValidationError)
  ∧ (∀ job, jobs w.1 !! jobId = Some job → job_status job = Completed →
       endsWith (path_resolve filePath) ".png" = true →
       ∃ data, job_result job = Some data
         ∧ saveImageToFile (jobs w.1) jobId filePath fs =
           let '(fs1, r1) := fs_mkdir (path_dirname (path_resolve filePath)) fs in
           match r1 with
           | Some msg => (fs1, Throw (FsError msg))
           | None =>
               let '(fs2, r2) :=
                 fs_writeFile (path_resolve filePath) (Buffer_from_base64 data) fs1 in
               (fs2, match r2 with Some msg => Throw (FsError msg) | None => Return () end)
           end)
  ∧ (endsWith (path_resolve filePath) ".png" = false →
       ∃ e, saveImageToFile (jobs w.1) jobId filePath fs = (fs, Throw e)
            ∧ classify e ≠ IOError).
Proof.
  intros Hw. pose proof (reachable_result_inv w Hw) as Hinv.
  unfold saveImageToFile. split; [|split; [|split; [|split]]]; cycle 4.
  { intros Hpng. destruct (jobs w.1 !! jobId) as [job|] eqn:Hjob; [|by eexists].
    case_decide as Hst; [|by eexists].
    destruct (Hinv jobId job Hjob Hst) as (data & -> & ->). rewrite Hpng. by eexists. }
  - by intros ->.
  - intros job Hjob Hst. rewrite Hjob. by rewrite decide_False.
  - intros job Hjob Hst Hpng. rewrite Hjob. rewrite decide_True by done.
    destruct (Hinv jobId job Hjob Hst) as (data & -> & ->). by rewrite Hpng.
  - intros job Hjob Hst Hpng.
    destruct (Hinv jobId job Hjob Hst) as (data & Hdata & Ht).
    exists data. split; [done|].
    rewrite Hjob, decide_True, Hdata, Ht, Hpng by done.
    destruct (fs_mkdir _ fs) as [fs1 [msg|]]; [done|].
    by destruct (fs_writeFile _ _ fs1) as [fs2 [msg|]].
Qed.

Lemma C3_saveImageToFile_witness :
  reachable (H := test_node) world2
  ∧ saveImageToFile (H := test_node) (jobs world2.1) "job_1_r0" "/tmp/cat.png" [] =
    ([MkdirCall "/tmp"; WriteFileCall "/tmp/cat.png" [Byte.x00]], Return ()).
Proof.
  split; [exact world2_reachable|].
  destruct (C3_saveImageToFile (H := test_node) world2 "job_1_r0" "/tmp/cat.png" []
              world2_reachable) as (_ & _ & _ & Hsave & _).
  destruct (Hsave (mkJob "job_1_r0" Completed "a cat" (Some "aGk=") None 1 (Some 5%Z)))
    as (data & Hdata & Heq); [vm_compute; reflexivity..|].
  etransitivity; [exact Heq|].
  injection Hdata as <-. vm_compute. reflexivity.
Defined.

(** C10. In every reachable state a completed job carries a non-empty
    result, so [saveImageToFile] never ends in its "has no result data"
    error, for any job id, path and filesystem. *)
Theorem C10_no_result_branch_unreachable `{Node} (w : Server * FS)
    (jobId filePath other : string) (fs : FS) :
  reachable w →
  (∀ job, jobs w.1 !! jobId = Some job → job_status job = Completed →
     ∃ data, job_result job = Some data ∧ truthy data = true)
  ∧ (saveImageToFile (jobs w.1) jobId filePath fs).2 ≠ Throw (JobNoResultData other).
Proof.
  intros Hw. pose proof (reachable_result_inv w Hw) as Hinv.
  split; [intros job; apply Hinv|].
  unfold saveImageToFile.
  destruct (jobs w.1 !! jobId) as [job|] eqn:Hjob; [|done].
  case_decide as Hst; [|done].
  destruct (Hinv jobId job Hjob Hst) as (data & -> & ->).
  destruct (endsWith _ _); [|done].
  destruct (fs_mkdir _ fs) as [fs1 [msg|]]; [done|].
  by destruct (fs_writeFile _ _ fs1) as [fs2 [msg|]].
Qed.

Lemma C10_no_result_branch_unreachable_witness :
  reachable (H := test_node) world2
  ∧ (saveImageToFile (H := test_node) (jobs world2.1) "job_1_r0" "/tmp/cat.png" []).2
    ≠ Throw (JobNoResultData "job_1_r0").
Proof.
  split; [exact world2_reachable|].
  exact (proj2 (C10_no_result_branch_unreachable (H := test_node) world2
                  "job_1_r0" "/tmp/cat.png" "job_1_r0" [] world2_reachable)).
Defined.

(** ** A member missing from the job store *)

Lemma members_present_cons js jobId ids :
  members_present js (jobId :: ids) =
  (if decide (is_Some (js !! jobId)) then 1 else 0) + members_present js ids.
Proof. unfold members_present. rewrite filter_cons. by case_decide. Qed.

Lemma tally_fold_present js ids : ∀ t,
  total_of (foldl (tally_step js) t ids) = total_of t + members_present js ids
  ∧ length (jobDetails (foldl (tally_step js) t ids)) =
    length (jobDetails t) + members_present js ids.
Proof.
  induction ids as [|jobId ids IH]; intros t; simpl.
  - unfold members_present. simpl. lia.
  - destruct (IH (tally_step js t jobId)) as [-> ->].
    rewrite members_present_cons. unfold tally_step, total_of.
    destruct (js !! jobId) as [job|] eqn:Hjob.
    + rewrite decide_True by done.
      destruct (job_status job); simpl; rewrite length_app; simpl; lia.
    + rewrite decide_False by (by intros [? ?]). lia.
Qed.

Lemma members_present_missing js ids jobId :
  jobId ∈ ids → js !! jobId = None → members_present js ids < length ids.
Proof.
  intros Hin Hnone. unfold members_present.
  apply (length_filter_lt _ _ jobId); [done|].
  rewrite Hnone. by intros [? ?].
Qed.

Lemma members_terminal_le js ids :
  members_with js Completed ids + members_with js Failed ids ≤ members_present js ids.
Proof.
  induction ids as [|jobId ids IH]; [unfold members_with, members_present; simpl; lia|].
  rewrite !members_with_cons, members_present_cons.
  destruct (js !! jobId) as [job|]; cbn [fmap option_fmap option_map].
  - destruct (decide (is_Some (Some job))) as [_|Hno]; [|by destruct Hno].
    destruct (job_status job); repeat case_decide; (congruence || lia).
  - repeat case_decide; (congruence || lia).
Qed.

(** C7 (as the code has it). When a batch lists an id that is absent from
    the job store, [getBatchStatus] raises no error: it returns a report
    whose tallies and job list cover only the members that are present,
    hence fewer than the batch lists. When totalCount is the number of
    listed ids, such a batch is reported as processing or pending and
    the call leaves the stores as they were. *)
Theorem C7_missing_member_skipped (s : Server) (batchId : string) (batch : BatchJob) (now : Z) :
  batchJobs s !! batchId = Some batch →
  (∃ jobId, jobId ∈ batch_jobIds batch ∧ jobs s !! jobId = None) →
  ∃ r, (getBatchStatus batchId now s).2 = Return r
    ∧ r_completedCount r + r_failedCount r + r_pendingCount r + r_processingCount r
      = members_present (jobs s) (batch_jobIds batch)
    ∧ length (r_jobs r) = members_present (jobs s) (batch_jobIds batch)
    ∧ members_present (jobs s) (batch_jobIds batch) < length (batch_jobIds batch)
    ∧ (batch_totalCount batch = length (batch_jobIds batch) →
       (r_status r = BatchProcessing ∨ r_status r = BatchPending)
       ∧ (getBatchStatus batchId now s).1 = s).
Proof.
  intros Hb (jobId & Hin & Hnone).
  pose proof (members_present_missing _ _ _ Hin Hnone) as Hlt.
  pose proof (members_terminal_le (jobs s) (batch_jobIds batch)) as Hle.
  destruct (tally_fold_present (jobs s) (batch_jobIds batch) tally0) as [Htot Hdet].
  pose proof (tally_count (jobs s) Completed (batch_jobIds batch)) as Hc.
  pose proof (tally_count (jobs s) Failed (batch_jobIds batch)) as Hf.
  simpl in Hc, Hf, Htot, Hdet. fold (tally (jobs s) (batch_jobIds batch)) in Htot, Hdet.
  unfold getBatchStatus. rewrite Hb. simpl.
  set (t := tally (jobs s) (batch_jobIds batch)) in *.
  eexists. split; [reflexivity|]. simpl.
  split; [exact Htot|]. split; [exact Hdet|]. split; [exact Hlt|].
  intros Hlen.
  assert (Hnot : allDone t batch = false).
  { unfold allDone. apply Nat.eqb_neq. lia. }
  split.
  - unfold overall. rewrite Hnot.
    destruct ((0 <? processingCount t) || (0 <? completedCount t)); auto.
  - unfold stamp. rewrite Hnot. rewrite insert_id by done. by destruct s.
Qed.

Lemma C7_missing_member_skipped_witness :
  batchJobs orphan_server !! "batch_4_d" = Some orphan_batch
  ∧ (∃ jobId, jobId ∈ batch_jobIds orphan_batch ∧ jobs orphan_server !! jobId = None)
  ∧ ∃ r, (getBatchStatus "batch_4_d" 7 orphan_server).2 = Return r
      ∧ length (r_jobs r) = 1.
Proof.
  assert (Hb : batchJobs orphan_server !! "batch_4_d" = Some orphan_batch)
    by (vm_compute; reflexivity).
  assert (Hm : ∃ jobId, jobId ∈ batch_jobIds orphan_batch ∧ jobs orphan_server !! jobId = None).
  { exists "job_9_z". split; [|vm_compute; reflexivity].
    simpl. apply elem_of_cons. right. apply elem_of_cons. by left. }
  split; [exact Hb|]. split; [exact Hm|].
  destruct (C7_missing_member_skipped orphan_server "batch_4_d" orphan_batch 7 Hb Hm)
    as (r & Hr & _ & Hlen & _).
  exists r. split; [exact Hr|]. rewrite Hlen. vm_compute. reflexivity.
Defined.

(** C7 as the specification words it (an absent member is a fatal
    consistency error) does not hold of the code: here is a batch with a
    member absent from the job store for which [getBatchStatus] raises
    nothing and reports "processing", counting one member out of two. *)
Lemma C7_counterexample :
  batchJobs orphan_server !! "batch_4_d" = Some orphan_batch
  ∧ "job_9_z" ∈ batch_jobIds orphan_batch
  ∧ jobs orphan_server !! "job_9_z" = None
  ∧ ¬ (∃ e, (getBatchStatus "batch_4_d" 7 orphan_server).2 = Throw e)
  ∧ ∃ r, (getBatchStatus "batch_4_d" 7 orphan_server).2 = Return r
      ∧ r_status r = BatchProcessing
      ∧ r_totalCount r = 2
      ∧ r_completedCount r + r_failedCount r + r_pendingCount r + r_processingCount r = 1.
Proof.
  split; [vm_compute; reflexivity|].
  split; [simpl; apply elem_of_cons; right; apply elem_of_cons; by left|].
  split; [vm_compute; reflexivity|].
  split.
  - intros [e He]. vm_compute in He. discriminate He.
  - eexists. split; [vm_compute; reflexivity|]. simpl. done.
Qed.

(** ** Submission returns before the generation call settles *)

(** C9. A valid [generate_image] call returns the job id while the
    generation call it issued is still outstanding (it is the last entry
    of the in-flight list; only a later [Settled] turn resumes it). In the
    state the call returns in, the job is in the job store, being
    processed, with no result, error or completion time, and a
    [check_job_status] call on it answers at once with status
    processing, and leaves the state as it is. *)
Theorem C9_submit_returns_first `{Node} (w : Server * FS) (args : option JSON) (e e' : Env)
    (prompt aspectRatio model : string) :
  GenerateImageSchema args = Some (prompt, aspectRatio, model) →
  ∃ s' jobId,
    handle "generate_image" args e w = ((s', w.2), Return (GenerateImageResponse jobId Pending))
    ∧ generateImage prompt aspectRatio model (e_gen e 0) w.1 = (s', jobId)
    ∧ last (inflight s') = Some jobId
    ∧ (∃ job, jobs s' !! jobId = Some job
         ∧ job_status job = Processing
         ∧ job_result job = None ∧ job_error job = None ∧ job_completedAt job = None)
    ∧ ∃ r, handle "check_job_status" (Some (JObject [("jobId", JString jobId)])) e' (s', w.2)
           = ((s', w.2), Return (CheckJobStatusResponse r))
        ∧ js_jobId r = jobId
        ∧ (js_status r = Pending ∨ js_status r = Processing)
        ∧ js_completedAt r = None
        ∧ js_hasResult r = false.
Proof.
  intros Hargs. destruct w as [s fs].
  set (jobId := generateJobId (g_now (e_gen e 0)) (g_rnd (e_gen e 0))).
  set (s' := (generateImage prompt aspectRatio model (e_gen e 0) s).1).
  assert (Hjob : jobs s' !! jobId =
            Some (set_processing (mkJob jobId Pending prompt None None (g_created (e_gen e 0)) None))).
  { subst s'. rewrite generateImage_lookup. by rewrite decide_True. }
  exists s', jobId. split; [|split; [|split; [|split]]].
  - unfold handle. rewrite decide_True by done. by rewrite Hargs.
  - done.
  - subst s'. simpl. apply last_snoc.
  - eexists. split; [exact Hjob|]. done.
  - assert (Hcall : handle "check_job_status" (Some (JObject [("jobId", JString jobId)]))
                      e' (s', fs) = ((s', fs), check_job_status jobId s')) by reflexivity.
    cbn [snd]. rewrite Hcall. unfold check_job_status. rewrite Hjob.
    eexists. split; [reflexivity|]. simpl. auto.
Qed.

Lemma C9_submit_returns_first_witness :
  GenerateImageSchema (Some (JObject [("prompt", JString "a cat")]))
    = Some ("a cat", "1:1", "gemini-3-pro-image-preview")
  ∧ ∃ s' jobId,
      handle (H := test_node) "generate_image" (Some (JObject [("prompt", JString "a cat")]))
        sample_env world0 = ((s', []), Return (GenerateImageResponse jobId Pending))
      ∧ last (inflight s') = Some jobId.
Proof.
  assert (Hargs : GenerateImageSchema (Some (JObject [("prompt", JString "a cat")]))
                  = Some ("a cat", "1:1", "gemini-3-pro-image-preview"))
    by (vm_compute; reflexivity).
  split; [exact Hargs|].
  destruct (C9_submit_returns_first (H := test_node) world0 _ sample_env sample_env
              _ _ _ Hargs) as (s' & jobId & Hcall & _ & Hlast & _).
  exists s', jobId. split; [exact Hcall | exact Hlast].
Defined.

(** ** The life of a job *)


Lemma dispatch_inv_same s s' :
  jobs s' = jobs s → inflight s' = inflight s → dispatch_inv s → dispatch_inv s'.
Proof. unfold dispatch_inv. by intros -> ->. Qed.

Lemma extends_refl s : extends s s.
Proof. split; [done|]. intros jobId job' Hnone Hsome. congruence. Qed.

Lemma extends_trans s1 s2 s3 : extends s1 s2 → extends s2 s3 → extends s1 s3.
Proof.
  intros [Hold12 Hnew12] [Hold23 Hnew23]. split.
  - intros jobId job Hjob. by apply Hold23, Hold12.
  - intros jobId job' Hnone Hsome.
    destruct (jobs s2 !! jobId) as [job2|] eqn:H2.
    + rewrite (Hold23 _ _ H2) in Hsome. injection Hsome as <-. by apply Hnew12.
    + by apply Hnew23.
Qed.

Lemma extends_evolution s s' : extends s s' → evolution s s'.
Proof.
  intros [Hold Hnew] jobId.
  destruct (jobs s !! jobId) as [job|] eqn:Hjob.
  - exists job. split; [by apply Hold|]. split; [by left|done].
  - intros job'. by apply Hnew.
Qed.

Lemma same_jobs_evolution s s' : jobs s' = jobs s → evolution s s'.
Proof. intros Heq. apply extends_evolution. unfold extends. rewrite Heq. apply extends_refl. Qed.

Lemma generateImage_dispatch p a m e s :
  jobs s !! generateJobId (g_now e) (g_rnd e) = None →
  dispatch_inv s →
  dispatch_inv (generateImage p a m e s).1 ∧ extends s (generateImage p a m e s).1.
Proof.
  intros Hfresh (Hnd & Hfl & Hshape).
  set (jobId := generateJobId (g_now e) (g_rnd e)) in *.
  split; [split; [|split]|split].
  - simpl. apply NoDup_app. split; [done|]. split; [|apply NoDup_singleton].
    intros x Hx Hx'. apply list_elem_of_singleton in Hx'. subst x.
    destruct (Hfl _ Hx) as (job & Hjob & _). unfold jobId in *. congruence.
  - intros x Hx. rewrite generateImage_lookup. fold jobId.
    case_decide as Hid; [by eexists|].
    simpl in Hx. apply elem_of_app in Hx as [Hx|Hx]; [by apply Hfl|].
    by apply list_elem_of_singleton in Hx.
  - intros x job. rewrite generateImage_lookup. fold jobId.
    case_decide as Hid; [|by apply Hshape].
    intros [= <-]. by cbv.
  - intros x job Hjob. rewrite generateImage_lookup. fold jobId.
    case_decide as Hid; [congruence|done].
  - intros x job' Hnone. rewrite generateImage_lookup. fold jobId.
    case_decide as Hid; [|congruence].
    intros [= <-]. by eexists _, _.
Qed.

Lemma submitAll_dispatch prompts dar dm gen : ∀ i s ids,
  NoDup (minted gen i (length prompts)) →
  (∀ jobId, jobId ∈ minted gen i (length prompts) → jobs s !! jobId = None) →
  dispatch_inv s →
  dispatch_inv (submitAll prompts dar dm gen i s ids).1
  ∧ extends s (submitAll prompts dar dm gen i s ids).1.
Proof.
  induction prompts as [|p prompts IH]; intros i s ids Hnd Hfresh Hs; simpl.
  - split; [done|apply extends_refl].
  - unfold minted in Hnd, Hfresh. simpl in Hnd, Hfresh.
    apply NoDup_cons in Hnd as [Hhead Hnd].
    set (e := gen i) in *.
    destruct (generateImage_dispatch (bp_prompt p) (or_default (bp_aspectRatio p) dar)
                (or_default (bp_model p) dm) e s) as [Hs1 Hext1]; [|done|].
    { apply Hfresh. apply elem_of_cons. by left. }
    set (s1 := startGeneration _ _) in *.
    destruct (IH (S i) s1 (ids ++ [generateJobId (g_now e) (g_rnd e)])) as [Hs2 Hext2];
      [done| |done|].
    { intros jobId Hin.
      assert (Hne : jobId ≠ generateJobId (g_now e) (g_rnd e)) by (by intros ->).
      transitivity (jobs
        (generateImage (bp_prompt p) (or_default (bp_aspectRatio p) dar)
           (or_default (bp_model p) dm) e s).1 !! jobId); [done|].
      rewrite generateImage_lookup. rewrite decide_False by done.
      apply Hfresh. apply elem_of_cons. by right. }
    split; [done|]. by apply (extends_trans _ s1).
Qed.

Lemma NoDup_delete_lookup (l : list string) k x :
  NoDup l → l !! k = Some x → x ∉ delete k l.
Proof.
  intros Hnd Hk. rewrite delete_take_drop.
  rewrite <- (take_drop_middle l k x Hk) in Hnd.
  apply NoDup_app in Hnd as (_ & Hsep & Hnd).
  apply NoDup_cons in Hnd as [Hdrop _].
  intros Hin. apply elem_of_app in Hin as [Hin|Hin]; [|done].
  apply (Hsep x Hin). apply elem_of_cons. by left.
Qed.

Lemma settle_dispatch k jobId r now s :
  inflight s !! k = Some jobId →
  dispatch_inv s →
  dispatch_inv (with_inflight (settle jobId r now s) (delete k (inflight s)))
  ∧ evolution s (with_inflight (settle jobId r now s) (delete k (inflight s))).
Proof.
  intros Hk (Hnd & Hfl & Hshape).
  assert (Hin : jobId ∈ inflight s) by (by eapply list_elem_of_lookup_2).
  destruct (Hfl _ Hin) as (job & Hjob & Hst).
  pose proof (Hshape _ _ Hjob) as Hsh. unfold job_shape in Hsh. rewrite Hst in Hsh.
  destruct Hsh as (Hres & Herr & Hat).
  split; [split; [|split]|].
  - simpl. eapply sublist_NoDup; [done|apply sublist_delete].
  - intros x Hx. simpl in Hx. simpl. rewrite settle_lookup.
    assert (x ≠ jobId).
    { intros ->. by apply (NoDup_delete_lookup _ _ _ Hnd Hk). }
    rewrite decide_False by done. apply Hfl. by eapply list_elem_of_delete_inv.
  - intros x job'. simpl. rewrite settle_lookup.
    case_decide as Hid; [|by apply Hshape].
    subst x. rewrite Hjob. simpl. intros [= <-].
    destruct r as [[data|]|msg]; [destruct (truthy data) eqn:Ht|..];
      unfold job_shape; simpl; rewrite ?Hres, ?Herr; eauto 10.
  - intros x. simpl. rewrite settle_lookup.
    case_decide as Hid.
    + subst x. rewrite Hjob. simpl. eexists. split; [done|]. split.
      * right. split; [done|]. exists now.
        destruct r as [[data|]|msg]; [destruct (truthy data) eqn:Ht|..]; eauto.
      * unfold terminal. rewrite Hst. by intros [?|?].
    + destruct (jobs s !! x) as [old|]; [|done].
      exists old. split; [done|]. split; [by left|done].
Qed.

Lemma move_dispatch s mj mb s' :
  move s mj mb s' →
  NoDup mj → (∀ jobId, jobId ∈ mj → jobs s !! jobId = None) →
  dispatch_inv s →
  dispatch_inv s' ∧ evolution s s'.
Proof.
  intros Hmove Hnd Hfresh Hs.
  destruct Hmove as [|p a m e|k jobId r now Hk|prompts dar dm e|batchId now|dates].
  - split; [done|]. by apply same_jobs_evolution.
  - destruct (generateImage_dispatch p a m e s) as [Hs' Hext]; [|done|].
    { apply Hfresh. apply elem_of_cons. by left. }
    split; [done|]. by apply extends_evolution.
  - by apply settle_dispatch.
  - rewrite generateBatchImages_unfold. simpl.
    destruct (submitAll_dispatch prompts dar dm (e_gen e) 0 s []) as [Hs' Hext]; [done..|].
    split.
    + by eapply dispatch_inv_same; [..|exact Hs'].
    + by apply extends_evolution.
  - destruct (getBatchStatus_jobs batchId now s) as [Hj Hi].
    split; [by eapply dispatch_inv_same|by apply same_jobs_evolution].
  - destruct (list_batches_jobs dates s) as [Hj Hi].
    split; [by eapply dispatch_inv_same|by apply same_jobs_evolution].
Qed.

Lemma evolves_terminal job job' :
  job_evolves job job' → job' = job ∨ terminal (job_status job').
Proof.
  intros [->|(_ & now & [(data & _ & ->)|(msg & ->)])]; [by left|right; by left|right; by right].
Qed.

Lemma evolution_lifecycle s1 s2 s3 : evolution s1 s2 → lifecycle s2 s3 → lifecycle s1 s3.
Proof.
  intros H12 H23 jobId. specialize (H12 jobId). specialize (H23 jobId).
  destruct (jobs s1 !! jobId) as [job|].
  - destruct H12 as (job2 & Hjob2 & Hev12 & Hterm12). rewrite Hjob2 in H23.
    destruct H23 as (job3 & Hjob3 & Hev23 & Hterm23).
    exists job3. split; [done|]. split.
    + destruct (evolves_terminal _ _ Hev12) as [->|Hterm]; [done|].
      by rewrite (Hterm23 Hterm).
    + intros Hterm. rewrite (Hterm12 Hterm) in Hterm23. by apply Hterm23.
  - intros job3 Hjob3. destruct (jobs s2 !! jobId) as [job2|].
    + destruct H23 as (job3' & Hjob3' & Hev23 & _).
      rewrite Hjob3 in Hjob3'. injection Hjob3' as <-.
      exists job2. split; [by apply H12|done].
    + by apply H23.
Qed.

Lemma lifecycle_refl s : lifecycle s s.
Proof.
  intros jobId. destruct (jobs s !! jobId) as [job|] eqn:Hjob.
  - exists job. split; [done|]. split; [by left|done].
  - intros job' Hjob'. congruence.
Qed.

Section Lifecycle.
Context `{Node}.

Lemma reachable_fresh_dispatch w : reachable_fresh w → dispatch_inv w.1.
Proof.
  induction 1 as [fs|w ev _ IH (Hnd & Hfresh & _)].
  - split; [apply NoDup_nil_2|]. split.
    + intros jobId Hin. by apply elem_of_nil in Hin.
    + by intros jobId job.
  - by destruct (move_dispatch _ _ _ _ (exec_move ev w) Hnd Hfresh IH).
Qed.

Lemma fresh_evolution w ev : reachable_fresh w → fresh ev w → evolution w.1 (exec ev w).1.
Proof.
  intros Hw (Hnd & Hfresh & _).
  by destruct (move_dispatch _ _ _ _ (exec_move ev w) Hnd Hfresh
                 (reachable_fresh_dispatch w Hw)).
Qed.

Lemma fresh_run_lifecycle evs : ∀ w,
  reachable_fresh w → fresh_run evs w → lifecycle w.1 (execs evs w).1.
Proof.
  induction evs as [|ev evs IH]; intros w Hw Hrun; simpl.
  - apply lifecycle_refl.
  - destruct Hrun as [Hfresh Hrun].
    apply (evolution_lifecycle _ (exec ev w).1).
    + by apply fresh_evolution.
    + apply IH; [|done]. by constructor.
Qed.

End Lifecycle.

Lemma world1_reachable_fresh : reachable_fresh (H := test_node) world1.
Proof.
  apply (reachable_fresh_exec (H := test_node) world0 submit_cat).
  - apply (reachable_fresh_init (H := test_node)).
  - split; [|split].
    + apply NoDup_singleton.
    + intros jobId _. apply lookup_empty.
    + intros batchId _. apply lookup_empty.
Qed.




(** ** The completion time of a batch *)

Lemma terminal_count js ids :
  members_with js Completed ids + members_with js Failed ids = length ids
  ↔ all_terminal js ids.
Proof.
  unfold all_terminal. induction ids as [|jobId ids IH].
  - split; [constructor|done].
  - rewrite !members_with_cons, Forall_cons, <- IH. simpl.
    pose proof (members_terminal_le js ids) as Hle.
    assert (members_present js ids ≤ length ids) by apply length_filter.
    unfold terminal.
    destruct (js !! jobId) as [job|]; cbn [fmap option_fmap option_map].
    + destruct (job_status job) eqn:Hst; repeat case_decide; try congruence;
        (split; [intros Hsum; split; [eauto|lia] | intros [(job' & [= <-] & Hterm) Hsum]]);
        try lia; destruct Hterm; congruence.
    + repeat case_decide; try congruence.
      split; [lia|]. by intros [(job' & ? & _) _].
Qed.

Lemma stamp_done t now batch : is_Some (batch_completedAt batch) → stamp t now batch = batch.
Proof. intros [at_ Hat]. unfold stamp. rewrite Hat. by destruct (allDone t batch). Qed.

Lemma getBatchStatus_stable batchId now s other batch :
  batchJobs s !! other = Some batch → is_Some (batch_completedAt batch) →
  batchJobs (getBatchStatus batchId now s).1 !! other = Some batch.
Proof.
  intros Hb Hat. rewrite getBatchStatus_lookup, Hb. simpl.
  case_decide; [|done]. by rewrite stamp_done.
Qed.

Lemma move_batch_stable s mj mb s' batchId batch :
  move s mj mb s' →
  (∀ other, other ∈ mb → batchJobs s !! other = None) →
  batchJobs s !! batchId = Some batch → is_Some (batch_completedAt batch) →
  batchJobs s' !! batchId = Some batch.
Proof.
  intros Hmove Hfresh Hb Hat.
  destruct Hmove as [|p a m e|k jobId r now Hk|prompts dar dm e|other now|dates].
  - done.
  - done.
  - simpl. by destruct (settle_rest jobId r now s) as [-> _].
  - rewrite generateBatchImages_unfold. simpl.
    destruct (submitAll_spec prompts dar dm (e_gen e) 0 s []) as (_ & -> & _).
    rewrite lookup_insert_ne; [done|].
    intros Heq. rewrite <- Heq in Hb. rewrite Hfresh in Hb; [done|].
    apply elem_of_cons. by left.
  - by apply getBatchStatus_stable.
  - apply (list_batches_preserves (λ s', batchJobs s' !! batchId = Some batch)); [|done].
    intros s1 other now Hs1. by apply getBatchStatus_stable.
Qed.

Lemma aggregate_calls_stable (calls : list (string * Z)) : ∀ s batchId batch,
  batchJobs s !! batchId = Some batch → is_Some (batch_completedAt batch) →
  batchJobs (foldl (λ s c, (getBatchStatus c.1 c.2 s).1) s calls) !! batchId = Some batch.
Proof.
  induction calls as [|[other now] calls IH]; intros s batchId batch Hb Hat; simpl; [done|].
  apply IH; [|done]. by apply getBatchStatus_stable.
Qed.

Section BatchCompletion.
Context `{Node}.

Lemma execs_batch_stable evs : ∀ (w : Server * FS) batchId batch,
  fresh_run evs w →
  batchJobs w.1 !! batchId = Some batch → is_Some (batch_completedAt batch) →
  batchJobs (execs evs w).1 !! batchId = Some batch.
Proof.
  induction evs as [|ev evs IH]; intros w batchId batch Hrun Hb Hat; simpl; [done|].
  destruct Hrun as [(_ & _ & Hfresh) Hrun].
  apply IH; [done| |done].
  by apply (move_batch_stable _ _ _ _ _ _ (exec_move ev w)).
Qed.

(** C8. For every batch of a reachable state: while some member is not
    in a terminal state an aggregate call leaves the batch record as it
    is; the aggregate call that finds every member terminal and
    completedAt unset sets completedAt to its own clock reading and
    changes nothing else in the record; and once completedAt is set, an
    aggregate call on the batch leaves the whole state as it is, no
    sequence of aggregate calls (on this or any other batch, at any
    times) changes the batch record, and neither does any sequence of
    event-loop turns in which identifiers do not repeat. *)
Theorem C8_batch_completedAt_once (w : Server * FS) (batchId : string) (batch : BatchJob) :
  reachable w →
  batchJobs w.1 !! batchId = Some batch →
  (∀ now, ¬ all_terminal (jobs w.1) (batch_jobIds batch) →
     batchJobs (getBatchStatus batchId now w.1).1 !! batchId = Some batch)
  ∧ (∀ now, all_terminal (jobs w.1) (batch_jobIds batch) → batch_completedAt batch = None →
       batchJobs (getBatchStatus batchId now w.1).1 !! batchId =
       Some (mkBatch (batch_id batch) (batch_jobIds batch) (batch_totalCount batch)
                     (batch_createdAt batch) (Some now)))
  ∧ (is_Some (batch_completedAt batch) →
       (∀ now, (getBatchStatus batchId now w.1).1 = w.1)
       ∧ (∀ calls : list (string * Z),
            batchJobs (foldl (λ s c, (getBatchStatus c.1 c.2 s).1) w.1 calls) !! batchId
            = Some batch)
       ∧ (∀ evs, fresh_run evs w → batchJobs (execs evs w).1 !! batchId = Some batch)).
Proof.
  intros Hw Hb.
  destruct (reachable_batch_inv w Hw batchId batch Hb) as (_ & Htot & _).
  pose proof (terminal_count (jobs w.1) (batch_jobIds batch)) as Hterm.
  pose proof (tally_count (jobs w.1) Completed (batch_jobIds batch)) as Hc.
  pose proof (tally_count (jobs w.1) Failed (batch_jobIds batch)) as Hf.
  simpl in Hc, Hf.
  split; [|split].
  - intros now Hnot. rewrite getBatchStatus_lookup, Hb. simpl.
    rewrite decide_True by done. unfold stamp, allDone.
    destruct (Nat.eqb_spec
      (completedCount (tally (jobs w.1) (batch_jobIds batch))
       + failedCount (tally (jobs w.1) (batch_jobIds batch)))
      (batch_totalCount batch)) as [Heq|_]; [|done].
    exfalso. apply Hnot, Hterm. lia.
  - intros now Hall Hat. rewrite getBatchStatus_lookup, Hb. simpl.
    rewrite decide_True by done. unfold stamp, allDone.
    apply Hterm in Hall.
    destruct (Nat.eqb_spec
      (completedCount (tally (jobs w.1) (batch_jobIds batch))
       + failedCount (tally (jobs w.1) (batch_jobIds batch)))
      (batch_totalCount batch)) as [_|Hne]; [by rewrite Hat|lia].
  - intros Hat. split; [|split].
    + intros now. unfold getBatchStatus. rewrite Hb. simpl.
      rewrite stamp_done by done. rewrite insert_id by done. by destruct w as [[] ?].
    + intros calls. by apply aggregate_calls_stable.
    + intros evs Hrun. by apply execs_batch_stable.
Qed.
End BatchCompletion.

Lemma world5_reachable : reachable (H := test_node) world5.
Proof.
  exact (reachable_exec (H := test_node) _ dog_fails
           (reachable_exec (H := test_node) _ cat_arrives
              (reachable_exec (H := test_node) _ submit_pair
                 (reachable_init (H := test_node) [])))).
Qed.

Lemma C8_batch_completedAt_once_witness :
  reachable (H := test_node) world5
  ∧ batchJobs world5.1 !! "batch_4_d" = Some pair_batch
  ∧ batchJobs (getBatchStatus "batch_4_d" 9 world5.1).1 !! "batch_4_d" =
    Some (mkBatch "batch_4_d" ["job_1_r0"; "job_2_r1"] 2 4 (Some 9%Z)).
Proof.
  assert (Hb : batchJobs world5.1 !! "batch_4_d" = Some pair_batch)
    by (vm_compute; reflexivity).
  split; [exact world5_reachable|]. split; [exact Hb|].
  destruct (C8_batch_completedAt_once (H := test_node) world5 "batch_4_d" pair_batch
              world5_reachable Hb) as (_ & Hstamp & _).
  apply (Hstamp 9%Z); [|reflexivity].
  apply Forall_cons. split.
  { eexists. split; [vm_compute; reflexivity|]. by left. }
  apply Forall_cons. split; [|constructor].
  eexists. split; [vm_compute; reflexivity|]. by right.
Defined.

(** ** Saving a batch *)

Section SaveBatch.
Context `{Node}.














End SaveBatch.



(** A member whose write is refused is reported in the failed list, the
    next member is still tried, and with nothing saved the success flag
    is false. *)
Example save_batch_read_only :
  (saveBatchImages (H := test_node) (batchJobs world5.1) (λ _, jobs world5.1)
     "batch_4_d" "/readonly/out" "image" []).2
  = Return ([],
            [mkFailed "job_1_r0" "EACCES: permission denied, open '/readonly/out/image_1.png'";
             mkFailed "job_2_r1" "Job job_2_r1 is not completed (status: failed)"])
  ∧ sb_success (save_batch_response
      ([], [mkFailed "job_1_r0" "EACCES: permission denied, open '/readonly/out/image_1.png'";
            mkFailed "job_2_r1" "Job job_2_r1 is not completed (status: failed)"])) = false.
Proof. split; vm_compute; reflexivity. Qed.

(** A member that completes while the batch is being saved is saved if
    its turn has not come yet: here the second job is still processing
    when the first is written, and completed when its own turn comes. *)
Example save_batch_while_completing :
  (saveBatchImages (H := test_node) (batchJobs world4.1)
     (λ i, if i is 0 then jobs world4.1
           else alter (complete "aGk=" 8) "job_2_r1" (jobs world4.1))
     "batch_4_d" "/out" "image" []).2
  = Return ([mkSaved "job_1_r0" "/out/image_1.png"; mkSaved "job_2_r1" "/out/image_2.png"], []).
Proof. vm_compute. reflexivity. Qed.

Section SavePaths.
Context `{Node}.

End SavePaths.


(** ** Validation of a batch submission *)

Section BatchValidation.
Context `{Node}.

Lemma handle_generate_batch_images args e s fs :
  handle "generate_batch_images" args e (s, fs) =
  match GenerateBatchImagesSchema args with
  | None => ((s, fs), Throw InvalidArguments)
  | Some (prompts, defaultAspectRatio, defaultModel) =>
      let '(s', (batchId, jobIds)) :=
        generateBatchImages prompts defaultAspectRatio defaultModel e s in
      ((s', fs), Return (GenerateBatchImagesResponse batchId jobIds (length prompts)))
  end.
Proof. reflexivity. Qed.

Lemma GenerateBatchImagesSchema_prompts o items :
  prop "prompts" o = Some (JArray items) →
  GenerateBatchImagesSchema (Some (JObject o)) =
  if (1 <=? length items) && (length items <=? 20) then
    prompts ← mapM (λ x, BatchPromptSchema (Some x)) items;
    defaultAspectRatio ← z_default (z_enum ASPECT_RATIOS) "1:1" (prop "defaultAspectRatio" o);
    defaultModel ← z_default (z_enum AVAILABLE_MODELS) "gemini-3-pro-image-preview"
                      (prop "defaultModel" o);
    Some (prompts, defaultAspectRatio, defaultModel)
  else None.
Proof.
  intros Hp. unfold GenerateBatchImagesSchema. rewrite Hp. unfold z_array.
  by destruct ((1 <=? length items) && (length items <=? 20)).
Qed.

(** C6. A [generate_batch_images] request whose prompts list is empty or
    has more than 20 items is rejected with the validation error and the
    state it leaves is the state it found: no job record, no batch record
    and no generation call is made. With 1 to 20 items the length check
    passes: the list goes on to the validation of its items, and when
    they and the two defaults are valid the request is accepted, one job
    per item is created and the batch lists them. *)
Theorem C6_batch_size_validated (w : Server * FS) (o : list (string * JSON))
    (items : list JSON) (e : Env) :
  prop "prompts" o = Some (JArray items) →
  (length items = 0 ∨ 20 < length items →
     handle "generate_batch_images" (Some (JObject o)) e w = (w, Throw InvalidArguments)
     ∧ classify InvalidArguments = ValidationError)
  ∧ (1 ≤ length items ≤ 20 →
     z_array BatchPromptSchema 1 20 (Some (JArray items))
       = mapM (λ x, BatchPromptSchema (Some x)) items
     ∧ ∀ prompts defaultAspectRatio defaultModel,
         mapM (λ x, BatchPromptSchema (Some x)) items = Some prompts →
         z_default (z_enum ASPECT_RATIOS) "1:1" (prop "defaultAspectRatio" o)
           = Some defaultAspectRatio →
         z_default (z_enum AVAILABLE_MODELS) "gemini-3-pro-image-preview"
                   (prop "defaultModel" o) = Some defaultModel →
         ∃ s' batchId jobIds,
           handle "generate_batch_images" (Some (JObject o)) e w
             = ((s', w.2), Return (GenerateBatchImagesResponse batchId jobIds (length items)))
           ∧ length jobIds = length items
           ∧ (∀ jobId, jobId ∈ jobIds → is_Some (jobs s' !! jobId))
           ∧ batchJobs s' !! batchId
             = Some (mkBatch batchId jobIds (length items) (e_date e) None)).
Proof.
  intros Hp. destruct w as [s fs].
  rewrite handle_generate_batch_images, (GenerateBatchImagesSchema_prompts o items Hp).
  split.
  - intros Hlen. split; [|done].
    replace ((1 <=? length items) && (length items <=? 20)) with false; [done|].
    symmetry. apply andb_false_iff.
    destruct Hlen; [left; apply Nat.leb_gt|right; apply Nat.leb_gt]; lia.
  - intros [Hlo Hhi].
    assert (Hin : (1 <=? length items) && (length items <=? 20) = true).
    { apply andb_true_iff. split; by apply Nat.leb_le. }
    split; [unfold z_array; by rewrite Hin|].
    intros prompts dar dm Hitems Hdar Hdm.
    rewrite Hin, Hitems. simpl. rewrite Hdar, Hdm. simpl.
    pose proof (length_mapM _ _ _ Hitems) as Hlen.
    rewrite generateBatchImages_unfold. simpl.
    destruct (submitAll_spec prompts dar dm (e_gen e) 0 s []) as (Hids & _ & _ & _ & Hnew).
    eexists _, _, _. split; [by rewrite Hlen|]. split; [|split].
    + rewrite Hids. simpl. by rewrite minted_length.
    + intros jobId Hj. rewrite Hids in Hj. by apply Hnew.
    + simpl. rewrite lookup_insert_eq. by rewrite Hlen.
Qed.
End BatchValidation.

Lemma C6_batch_size_validated_witness :
  prop "prompts" oversized_args
    = Some (JArray (replicate 21 (JObject [("prompt", JString "a cat")])))
  ∧ handle (H := test_node) "generate_batch_images" (Some (JObject oversized_args))
      sample_env world0 = (world0, Throw InvalidArguments).
Proof.
  assert (Hp : prop "prompts" oversized_args
               = Some (JArray (replicate 21 (JObject [("prompt", JString "a cat")]))))
    by reflexivity.
  split; [exact Hp|].
  destruct (C6_batch_size_validated (H := test_node) world0 oversized_args _ sample_env Hp)
    as [Hreject _].
  apply Hreject. right. rewrite length_replicate. lia.
Defined.

(** * Further properties of the code *)

(** ** The dispatch on the tool name *)

Section Dispatch.
Context `{Node}.

Lemma saveImageToFile_errors js jobId filePath fs e :
  (saveImageToFile js jobId filePath fs).2 = Throw e →
  e = JobNotFound jobId ∨ (∃ st, e = JobNotCompleted jobId st) ∨ e = JobNoResultData jobId
  ∨ e = PathNotPng ∨ ∃ msg, e = FsError msg.
Proof.
  unfold saveImageToFile.
  destruct (js !! jobId) as [job|]; [|intros [= <-]; auto].
  case_decide; [|intros [= <-]; eauto].
  destruct (job_result job) as [data|]; [|intros [= <-]; auto].
  destruct (truthy data); [|intros [= <-]; auto].
  destruct (endsWith _ _); [|intros [= <-]; auto 6].
  destruct (fs_mkdir _ fs) as [fs1 [msg|]]; [intros [= <-]; eauto 10|].
  destruct (fs_writeFile _ _ fs1) as [fs2 [msg|]]; [intros [= <-]; eauto 10|done].
Qed.

Lemma list_batches_errors dates l : ∀ acc e,
  (foldl (list_batches_step dates) acc l).2 = Throw e →
  acc.2 = Throw e ∨ ∃ batchId, e = BatchNotFound batchId.
Proof.
  induction l as [|kb l IH]; intros acc e; simpl; [auto|].
  intros Hthrow. apply IH in Hthrow as [Hthrow|Hthrow]; [|by right].
  unfold list_batches_step in Hthrow.
  destruct acc as [s [out|e0]]; simpl in *; [|by left].
  unfold getBatchStatus in Hthrow.
  destruct (batchJobs s !! batch_id kb.2); simpl in Hthrow; [done|].
  injection Hthrow as <-. eauto.
Qed.

(** X1. The tools the server advertises are exactly the tools it
    implements: a call to an advertised name never ends in the "Unknown
    tool" error, whatever else happens, and a call to any other name ends
    in that error and leaves the stores and the filesystem as they
    were. *)
Theorem X1_advertised_tools_implemented (name : string) (args : option JSON) (e : Env)
    (w : Server * FS) :
  (name ∈ TOOLS → ∀ other, (handle name args e w).2 ≠ Throw (UnknownTool other))
  ∧ (name ∉ TOOLS → handle name args e w = (w, Throw (UnknownTool name))).
Proof.
  destruct w as [s fs]. split.
  - intros Hin other. unfold handle.
    repeat (apply elem_of_cons in Hin as [->|Hin]); [..|by apply elem_of_nil in Hin].
    + rewrite decide_True by done.
      by destruct (GenerateImageSchema args) as [[[p a] m]|].
    + rewrite decide_False by done. rewrite decide_True by done.
      destruct (CheckJobStatusSchema args) as [jobId|]; [|done].
      unfold check_job_status. simpl. by destruct (jobs s !! jobId).
    + do 2 (rewrite decide_False by done). rewrite decide_True by done.
      destruct (SaveImageSchema args) as [[jobId filePath]|]; [|done].
      destruct (saveImageToFile (jobs s) jobId filePath fs) as [fs' [u|err]] eqn:Hs; [done|].
      simpl. intros [= ->].
      pose proof (saveImageToFile_errors (jobs s) jobId filePath fs (UnknownTool other)) as He.
      rewrite Hs in He. destruct (He eq_refl) as [?|[[? ?]|[?|[?|[? ?]]]]]; done.
    + do 3 (rewrite decide_False by done). by rewrite decide_True.
    + do 4 (rewrite decide_False by done). rewrite decide_True by done.
      destruct (GenerateBatchImagesSchema args) as [[[prompts dar] dm]|]; [|done].
      by destruct (generateBatchImages prompts dar dm e s) as [s' [batchId jobIds]].
    + do 5 (rewrite decide_False by done). rewrite decide_True by done.
      destruct (CheckBatchStatusSchema args) as [batchId|]; [|done].
      unfold getBatchStatus. by destruct (batchJobs s !! batchId).
    + do 6 (rewrite decide_False by done). rewrite decide_True by done.
      destruct (SaveBatchImagesSchema args) as [[[batchId directory] prefix]|]; [|done].
      unfold saveBatchImages.
      destruct (batchJobs s !! batchId) as [batch|]; [|done].
      destruct (fs_mkdir _ fs) as [fs1 [msg|]]; [done|].
      by destruct (saveAll _ _ _ _ _ fs1 _ _).
    + do 7 (rewrite decide_False by done). rewrite decide_True by done.
      destruct (list_batches (e_dates e) s) as [s' [l|err]] eqn:Hl; [done|].
      simpl. intros [= ->].
      unfold list_batches in Hl.
      destruct (list_batches_errors (e_dates e) (map_to_list (batchJobs s))
                  (s, Return []) (UnknownTool other)) as [?|[? ?]]; [by rewrite Hl|done..].
  - intros Hout. unfold handle.
    repeat (rewrite decide_False;
            [|intros ->; apply Hout; unfold TOOLS; set_solver]).
    done.
Qed.
End Dispatch.

(** ** What a tool call can touch *)

Lemma move_grows s mj mb s' :
  move s mj mb s' →
  (∀ jobId, is_Some (jobs s !! jobId) → is_Some (jobs s' !! jobId))
  ∧ (∀ batchId, is_Some (batchJobs s !! batchId) → is_Some (batchJobs s' !! batchId)).
Proof.
  intros Hmove.
  destruct Hmove as [|p a m e|k jobId r now Hk|prompts dar dm e|batchId now|dates].
  - done.
  - split; [|done]. intros jobId Hj. rewrite generateImage_lookup. by case_decide.
  - split.
    + intros other Hj. simpl. rewrite settle_lookup. case_decide; [|done].
      by apply fmap_is_Some.
    + simpl. by destruct (settle_rest jobId r now s) as [-> _].
  - rewrite generateBatchImages_unfold. simpl.
    destruct (submitAll_spec prompts dar dm (e_gen e) 0 s []) as (_ & Hb & _ & Hdom & _).
    split; [done|]. intros batchId Hj. rewrite Hb.
    destruct (decide (batchId = generateBatchId (e_now e) (e_rnd e))) as [->|Hne].
    + by rewrite lookup_insert_eq.
    + by rewrite lookup_insert_ne.
  - destruct (getBatchStatus_jobs batchId now s) as [-> _]. split; [done|].
    intros other Hj. rewrite getBatchStatus_lookup. by apply fmap_is_Some.
  - destruct (list_batches_jobs dates s) as [-> _]. split; [done|].
    apply (list_batches_preserves
             (λ s', ∀ other, is_Some (batchJobs s !! other) → is_Some (batchJobs s' !! other)));
      [|done].
    intros s1 batchId now Hs1 other Hj. rewrite getBatchStatus_lookup.
    apply fmap_is_Some. by apply Hs1.
Qed.

Section Footprint.
Context `{Node}.

(** X2. What one tool call can touch. Only [generate_image] and
    [generate_batch_images] change the job store or issue generation
    calls; only [generate_batch_images], [check_batch_status] and
    [list_batches] change the batch store; only [save_image] and
    [save_batch_images] touch the filesystem; a call rejected for invalid
    arguments changes nothing at all; and no call removes a job or a
    batch. *)
Theorem X2_tool_footprint (name : string) (args : option JSON) (e : Env) (w : Server * FS) :
  (name ≠ "generate_image" → name ≠ "generate_batch_images" →
     jobs (handle name args e w).1.1 = jobs w.1
     ∧ inflight (handle name args e w).1.1 = inflight w.1)
  ∧ (name ≠ "generate_batch_images" → name ≠ "check_batch_status" →
     name ≠ "list_batches" →
     batchJobs (handle name args e w).1.1 = batchJobs w.1)
  ∧ (name ≠ "save_image" → name ≠ "save_batch_images" → (handle name args e w).1.2 = w.2)
  ∧ ((handle name args e w).2 = Throw InvalidArguments → (handle name args e w).1 = w)
  ∧ (∀ jobId, is_Some (jobs w.1 !! jobId) → is_Some (jobs (handle name args e w).1.1 !! jobId))
  ∧ (∀ batchId, is_Some (batchJobs w.1 !! batchId) →
       is_Some (batchJobs (handle name args e w).1.1 !! batchId)).
Proof.
  pose proof (move_grows _ _ _ _ (exec_move (ToolCall name args e) w)) as [Hjobs Hbatches].
  split; [|split; [|split; [|split; [|split]]]]; [..|exact Hjobs|exact Hbatches];
    clear Hjobs Hbatches; destruct w as [s fs]; unfold handle.
  - intros Hn1 Hn2. rewrite (decide_False (P := name = "generate_image")) by done.
    rewrite (decide_False (P := name = "generate_batch_images")) by done.
    repeat case_decide; try done.
    + by destruct (CheckJobStatusSchema args).
    + destruct (SaveImageSchema args) as [[jobId filePath]|]; [|done].
      by destruct (saveImageToFile (jobs s) jobId filePath fs) as [fs' [u|err]].
    + destruct (CheckBatchStatusSchema args) as [batchId|]; [|done].
      pose proof (getBatchStatus_jobs batchId (e_date e) s) as Hsame.
      by destruct (getBatchStatus batchId (e_date e) s) as [s' [r|err]].
    + destruct (SaveBatchImagesSchema args) as [[[batchId directory] prefix]|]; [|done].
      by destruct (saveBatchImages _ _ batchId directory prefix fs) as [fs' [l|err]].
    + pose proof (list_batches_jobs (e_dates e) s) as Hsame.
      by destruct (list_batches (e_dates e) s) as [s' [l|err]].
  - intros Hn1 Hn2 Hn3.
    rewrite (decide_False (P := name = "generate_batch_images")) by done.
    rewrite (decide_False (P := name = "check_batch_status")) by done.
    rewrite (decide_False (P := name = "list_batches")) by done.
    repeat case_decide; try done.
    + by destruct (GenerateImageSchema args) as [[[p a] m]|].
    + by destruct (CheckJobStatusSchema args).
    + destruct (SaveImageSchema args) as [[jobId filePath]|]; [|done].
      by destruct (saveImageToFile (jobs s) jobId filePath fs) as [fs' [u|err]].
    + destruct (SaveBatchImagesSchema args) as [[[batchId directory] prefix]|]; [|done].
      by destruct (saveBatchImages _ _ batchId directory prefix fs) as [fs' [l|err]].
  - intros Hn1 Hn2.
    rewrite (decide_False (P := name = "save_image")) by done.
    rewrite (decide_False (P := name = "save_batch_images")) by done.
    repeat case_decide; try done.
    + by destruct (GenerateImageSchema args) as [[[p a] m]|].
    + by destruct (CheckJobStatusSchema args).
    + destruct (GenerateBatchImagesSchema args) as [[[prompts dar] dm]|]; [|done].
      by destruct (generateBatchImages prompts dar dm e s) as [s' [batchId jobIds]].
    + destruct (CheckBatchStatusSchema args) as [batchId|]; [|done].
      by destruct (getBatchStatus batchId (e_date e) s) as [s' [r|err]].
    + by destruct (list_batches (e_dates e) s) as [s' [l|err]].
  - repeat case_decide.
    + by destruct (GenerateImageSchema args) as [[[p a] m]|].
    + destruct (CheckJobStatusSchema args) as [jobId|]; [|done].
      unfold check_job_status. by destruct (jobs s !! jobId).
    + destruct (SaveImageSchema args) as [[jobId filePath]|]; [|done].
      destruct (saveImageToFile (jobs s) jobId filePath fs) as [fs' [u|err]] eqn:Hs; [done|].
      simpl. intros [= ->].
      pose proof (saveImageToFile_errors (jobs s) jobId filePath fs InvalidArguments) as He.
      rewrite Hs in He. destruct (He eq_refl) as [?|[[? ?]|[?|[?|[? ?]]]]]; done.
    + done.
    + destruct (GenerateBatchImagesSchema args) as [[[prompts dar] dm]|]; [|done].
      by destruct (generateBatchImages prompts dar dm e s) as [s' [batchId jobIds]].
    + destruct (CheckBatchStatusSchema args) as [batchId|]; [|done].
      unfold getBatchStatus. by destruct (batchJobs s !! batchId).
    + destruct (SaveBatchImagesSchema args) as [[[batchId directory] prefix]|]; [|done].
      unfold saveBatchImages.
      destruct (batchJobs s !! batchId) as [batch|]; [|done].
      destruct (fs_mkdir _ fs) as [fs1 [msg|]]; [done|].
      by destruct (saveAll _ _ _ _ _ fs1 _ _).
    + destruct (list_batches (e_dates e) s) as [s' [l|err]] eqn:Hl; [done|].
      simpl. intros [= ->]. unfold list_batches in Hl.
      destruct (list_batches_errors (e_dates e) (map_to_list (batchJobs s))
                  (s, Return []) InvalidArguments) as [?|[? ?]]; [by rewrite Hl|done..].
    + done.
Qed.
End Footprint.

(** ** Jobs are never seen pending *)

Lemma generateImage_store_inv p a m e s :
  store_inv s → store_inv (generateImage p a m e s).1.
Proof.
  intros Hs jobId job. rewrite generateImage_lookup.
  case_decide; [|by apply Hs]. by intros [= <-].
Qed.

Lemma move_store_inv s mj mb s' : move s mj mb s' → store_inv s → store_inv s'.
Proof.
  intros Hmove Hs.
  destruct Hmove as [|p a m e|k jobId r now Hk|prompts dar dm e|batchId now|dates].
  - done.
  - by apply generateImage_store_inv.
  - intros other job. simpl. rewrite settle_lookup.
    case_decide as Hid; [|by apply Hs].
    destruct (jobs s !! other) as [old|] eqn:Hold; simpl; [|done].
    intros [= <-]. destruct (Hs _ _ Hold) as [Hkey _].
    by destruct r as [[data|]|msg]; [destruct (truthy data)|..].
  - rewrite generateBatchImages_unfold. simpl.
    apply (submitAll_preserves store_inv); [|done].
    intros. by apply generateImage_store_inv.
  - intros jobId job. destruct (getBatchStatus_jobs batchId now s) as [-> _]. apply Hs.
  - intros jobId job. destruct (list_batches_jobs dates s) as [-> _]. apply Hs.
Qed.

Lemma elem_of_delete_ne (l : list string) k x y :
  x ∈ l → l !! k = Some y → x ≠ y → x ∈ delete k l.
Proof.
  intros Hin Hk Hne. rewrite delete_take_drop.
  rewrite <- (take_drop_middle l k y Hk) in Hin.
  apply elem_of_app in Hin as [Hin|Hin]; [apply elem_of_app; by left|].
  apply elem_of_cons in Hin as [->|Hin]; [done|]. apply elem_of_app. by right.
Qed.

Lemma generateImage_outstanding_inv p a m e s :
  outstanding_inv s → outstanding_inv (generateImage p a m e s).1.
Proof.
  intros Hs jobId job. rewrite generateImage_lookup. simpl.
  case_decide as Hid.
  - intros _ _. subst jobId. apply elem_of_app. right. by apply list_elem_of_singleton.
  - intros Hjob Hst. apply elem_of_app. left. by eapply Hs.
Qed.

Lemma move_outstanding_inv s mj mb s' :
  move s mj mb s' → outstanding_inv s → outstanding_inv s'.
Proof.
  intros Hmove Hs.
  destruct Hmove as [|p a m e|k jobId r now Hk|prompts dar dm e|batchId now|dates].
  - done.
  - by apply generateImage_outstanding_inv.
  - intros other job. simpl. rewrite settle_lookup.
    case_decide as Hid.
    + destruct (jobs s !! other) as [old|]; simpl; [|done]. intros [= <-].
      by destruct r as [[data|]|msg]; [destruct (truthy data)|..].
    + intros Hjob Hst. eapply elem_of_delete_ne; [by eapply Hs|done..].
  - rewrite generateBatchImages_unfold. simpl.
    apply (submitAll_preserves outstanding_inv); [|done].
    intros. by apply generateImage_outstanding_inv.
  - intros jobId job. destruct (getBatchStatus_jobs batchId now s) as [-> ->]. apply Hs.
  - intros jobId job. destruct (list_batches_jobs dates s) as [-> ->]. apply Hs.
Qed.

Section NeverPending.
Context `{Node}.

Lemma reachable_store_inv w : reachable w → store_inv w.1.
Proof.
  induction 1 as [fs|w ev _ IH]; [by intros jobId job|].
  exact (move_store_inv _ _ _ _ (exec_move ev w) IH).
Qed.

Lemma reachable_outstanding_inv w : reachable w → outstanding_inv w.1.
Proof.
  induction 1 as [fs|w ev _ IH]; [by intros jobId job|].
  exact (move_outstanding_inv _ _ _ _ (exec_move ev w) IH).
Qed.

(** X3. [generateImage] advances the job it creates to processing before
    it returns, so between two turns of the event loop no job of the
    store is pending, and every job is stored under its own id:
    [check_job_status] never answers "pending" (the "pending" in the
    answer of [generate_image] is a fixed text), and the id it answers
    with is the id it was asked about. *)
Theorem X3_never_pending (w : Server * FS) (jobId : string) :
  reachable w →
  (∀ job, jobs w.1 !! jobId = Some job →
     job_id job = jobId ∧ job_status job ≠ Pending)
  ∧ (∀ r, check_job_status jobId w.1 = Return (CheckJobStatusResponse r) →
       js_jobId r = jobId ∧ js_status r ≠ Pending).
Proof.
  intros Hw. pose proof (reachable_store_inv w Hw) as Hinv. split.
  - intros job. apply Hinv.
  - intros r. unfold check_job_status.
    destruct (jobs w.1 !! jobId) as [job|] eqn:Hjob; [|done].
    intros [= <-]. simpl. by apply Hinv.
Qed.
End NeverPending.

Lemma X3_never_pending_witness :
  reachable (H := test_node) world1
  ∧ ∃ r, check_job_status "job_1_r0" world1.1 = Return (CheckJobStatusResponse r)
       ∧ js_jobId r = "job_1_r0" ∧ js_status r ≠ Pending.
Proof.
  assert (Hw : reachable (H := test_node) world1).
  { exact (reachable_exec (H := test_node) _ submit_cat (reachable_init (H := test_node) [])). }
  split; [exact Hw|].
  eexists. split; [vm_compute; reflexivity|].
  apply (X3_never_pending (H := test_node) world1 "job_1_r0" Hw). vm_compute. reflexivity.
Defined.

(** ** The report of the aggregator in a reachable state *)

Lemma members_present_all (js : gmap string ImageJob) (ids : list string) :
  (∀ jobId, jobId ∈ ids → is_Some (js !! jobId)) → members_present js ids = length ids.
Proof.
  induction ids as [|jobId ids IH]; intros Hall; [done|].
  rewrite members_present_cons. simpl.
  rewrite decide_True by (apply Hall; apply elem_of_cons; by left).
  rewrite IH; [done|]. intros other Hin. apply Hall. apply elem_of_cons. by right.
Qed.

Lemma members_with_none (js : gmap string ImageJob) st (ids : list string) :
  (∀ jobId job, js !! jobId = Some job → job_status job ≠ st) → members_with js st ids = 0.
Proof.
  intros Hnone. induction ids as [|jobId ids IH]; [done|].
  rewrite members_with_cons, IH.
  destruct (js !! jobId) as [job|] eqn:Hjob; cbn [fmap option_fmap option_map].
  - rewrite decide_False; [done|]. intros [= Hst]. by eapply Hnone.
  - by rewrite decide_False.
Qed.

Lemma tally_fold_details js ids : ∀ t,
  jobDetails (foldl (tally_step js) t ids) =
  jobDetails t ++ omap (λ jobId, detail_of <$> js !! jobId) ids.
Proof.
  induction ids as [|jobId ids IH]; intros t; simpl.
  - by rewrite app_nil_r.
  - rewrite IH. unfold tally_step.
    destruct (js !! jobId) as [job|]; simpl; [|done].
    destruct (job_status job) eqn:Hst; simpl; unfold detail_of; rewrite Hst;
      by rewrite <- app_assoc.
Qed.

Lemma details_ids (js : gmap string ImageJob) (ids : list string) :
  (∀ jobId, jobId ∈ ids → ∃ job, js !! jobId = Some job ∧ job_id job = jobId) →
  d_jobId <$> omap (λ jobId, detail_of <$> js !! jobId) ids = ids.
Proof.
  induction ids as [|jobId ids IH]; intros Hall; [done|].
  destruct (Hall jobId) as (job & Hjob & Hid); [apply elem_of_cons; by left|].
  simpl. rewrite Hjob. simpl. rewrite Hid. f_equal.
  apply IH. intros other Hin. apply Hall. apply elem_of_cons. by right.
Qed.

Section Report.
Context `{Node}.

(** X4. In a reachable state the report of [getBatchStatus] accounts for
    every member: no member is missing or pending, so pendingCount is 0,
    the completed, failed and processing tallies add up to totalCount
    (which is the number of members), the job list has one entry per
    member, in the stored order of the batch and with the status the job
    store holds, and the status of the batch is never "pending". *)
Theorem X4_report_accounts_for_members (w : Server * FS) (batchId : string)
    (batch : BatchJob) (now : Z) :
  reachable w →
  batchJobs w.1 !! batchId = Some batch →
  ∃ r, (getBatchStatus batchId now w.1).2 = Return r
    ∧ r_batchId r = batchId
    ∧ r_totalCount r = length (batch_jobIds batch)
    ∧ r_pendingCount r = 0
    ∧ r_completedCount r + r_failedCount r + r_processingCount r = r_totalCount r
    ∧ r_status r ≠ BatchPending
    ∧ r_jobs r = omap (λ jobId, detail_of <$> jobs w.1 !! jobId) (batch_jobIds batch)
    ∧ d_jobId <$> r_jobs r = batch_jobIds batch.
Proof.
  intros Hw Hb.
  destruct (reachable_batch_inv w Hw batchId batch Hb) as (Hid & Htot & Hmem).
  pose proof (reachable_store_inv w Hw) as Hstore.
  pose proof (members_present_all _ _ Hmem) as Hpresent.
  pose proof (members_with_none (jobs w.1) Pending (batch_jobIds batch)
                (λ jobId job Hjob, proj2 (Hstore jobId job Hjob))) as Hpending.
  destruct (tally_fold_present (jobs w.1) (batch_jobIds batch) tally0) as [Hsum _].
  pose proof (tally_count (jobs w.1) Pending (batch_jobIds batch)) as Hp.
  pose proof (tally_fold_details (jobs w.1) (batch_jobIds batch) tally0) as Hdet.
  simpl in Hsum, Hp, Hdet. fold (tally (jobs w.1) (batch_jobIds batch)) in Hsum, Hdet.
  unfold getBatchStatus. rewrite Hb. simpl.
  set (t := tally (jobs w.1) (batch_jobIds batch)) in *.
  destruct (stamp_fields t now batch) as (-> & _ & -> & _).
  unfold total_of in Hsum.
  eexists. split; [reflexivity|]. simpl.
  split; [done|]. split; [done|]. split; [lia|]. split; [lia|]. split; [|split].
  - unfold overall, allDone.
    destruct (completedCount t + failedCount t =? batch_totalCount batch) eqn:Hdone.
    + destruct (failedCount t =? batch_totalCount batch); [done|].
      by destruct (0 <? failedCount t).
    + apply Nat.eqb_neq in Hdone.
      replace (0 <? processingCount t) with true; [done|].
      symmetry. apply Nat.ltb_lt. lia.
  - done.
  - rewrite Hdet. apply details_ids. intros jobId Hin.
    destruct (Hmem jobId Hin) as [job Hjob]. exists job. split; [done|].
    by apply (Hstore jobId job).
Qed.
End Report.

Lemma X4_report_accounts_for_members_witness :
  reachable (H := test_node) world5
  ∧ batchJobs world5.1 !! "batch_4_d" = Some pair_batch
  ∧ ∃ r, (getBatchStatus "batch_4_d" 9 world5.1).2 = Return r
      ∧ d_jobId <$> r_jobs r = ["job_1_r0"; "job_2_r1"].
Proof.
  assert (Hb : batchJobs world5.1 !! "batch_4_d" = Some pair_batch)
    by (vm_compute; reflexivity).
  split; [exact world5_reachable|]. split; [exact Hb|].
  destruct (X4_report_accounts_for_members (H := test_node) world5 "batch_4_d" pair_batch 9
              world5_reachable Hb) as (r & Hr & _ & _ & _ & _ & _ & _ & Hids).
  exists r. split; [exact Hr|exact Hids].
Defined.

(** ** Outstanding generation calls *)

Section Outstanding.
Context `{Node}.

(** X5. With identifiers that never repeat, a job is being processed
    exactly while its generation call is outstanding, and no job has two
    calls outstanding. So every processing job can be settled: the turn
    that resumes its closure, however the call ended, leaves it completed
    or failed and with no call outstanding. *)
Theorem X5_processing_iff_outstanding (w : Server * FS) :
  reachable_fresh w →
  NoDup (inflight w.1)
  ∧ (∀ jobId, jobId ∈ inflight w.1 ↔
       ∃ job, jobs w.1 !! jobId = Some job ∧ job_status job = Processing)
  ∧ (∀ jobId job r now,
       jobs w.1 !! jobId = Some job → job_status job = Processing →
       ∃ k job', inflight w.1 !! k = Some jobId
         ∧ jobs (exec (Settled k r now) w).1 !! jobId = Some job'
         ∧ terminal (job_status job')
         ∧ jobId ∉ inflight (exec (Settled k r now) w).1).
Proof.
  intros Hw.
  destruct (reachable_fresh_dispatch w Hw) as (Hnd & Hfl & _).
  pose proof (reachable_outstanding_inv w (reachable_fresh_reachable w Hw)) as Hout.
  split; [done|]. split.
  - intros jobId. split; [apply Hfl|]. intros (job & Hjob & Hst). by eapply Hout.
  - intros jobId job r now Hjob Hst.
    destruct (list_elem_of_lookup_1 _ _ (Hout _ _ Hjob Hst)) as [k Hk].
    exists k. simpl. rewrite Hk. simpl.
    rewrite settle_lookup, decide_True, Hjob by done. simpl.
    eexists. split; [done|]. split; [done|]. split.
    + unfold terminal.
      destruct r as [[data|]|msg]; [destruct (truthy data)|..]; simpl; auto.
    + by apply NoDup_delete_lookup.
Qed.
End Outstanding.

Lemma X5_processing_iff_outstanding_witness :
  reachable_fresh (H := test_node) world1
  ∧ NoDup (inflight world1.1)
  ∧ ("job_1_r0" ∈ inflight world1.1 ↔
       ∃ job, jobs world1.1 !! "job_1_r0" = Some job ∧ job_status job = Processing).
Proof.
  split; [exact world1_reachable_fresh|].
  destruct (X5_processing_iff_outstanding (H := test_node) world1 world1_reachable_fresh)
    as (Hnd & Hiff & _).
  split; [exact Hnd|exact (Hiff "job_1_r0")].
Defined.

(** ** What a batch submission creates *)

Lemma submitAll_other prompts dar dm gen jobId : ∀ i s ids,
  jobId ∉ minted gen i (length prompts) →
  jobs (submitAll prompts dar dm gen i s ids).1 !! jobId = jobs s !! jobId.
Proof.
  induction prompts as [|p prompts IH]; intros i s ids Hout; simpl; [done|].
  unfold minted in Hout. simpl in Hout.
  apply not_elem_of_cons in Hout as [Hne Hout].
  set (e := gen i) in *. set (s1 := startGeneration _ _).
  rewrite IH by done.
  transitivity (jobs (generateImage (bp_prompt p) (or_default (bp_aspectRatio p) dar)
                        (or_default (bp_model p) dm) e s).1 !! jobId); [done|].
  rewrite generateImage_lookup. by rewrite decide_False.
Qed.

Lemma submitAll_created prompts dar dm gen : ∀ i s ids k p,
  NoDup (minted gen i (length prompts)) →
  prompts !! k = Some p →
  jobs (submitAll prompts dar dm gen i s ids).1
    !! generateJobId (g_now (gen (i + k))) (g_rnd (gen (i + k)))
  = Some (mkJob (generateJobId (g_now (gen (i + k))) (g_rnd (gen (i + k)))) Processing
                (bp_prompt p) None None (g_created (gen (i + k))) None).
Proof.
  induction prompts as [|q prompts IH]; intros i s ids k p Hnd Hk; [done|].
  unfold minted in Hnd. simpl in Hnd. apply NoDup_cons in Hnd as [Hhead Hnd].
  simpl. set (s1 := startGeneration _ _).
  destruct k as [|k].
  - injection Hk as ->. rewrite Nat.add_0_r.
    rewrite submitAll_other by done.
    transitivity (jobs (generateImage (bp_prompt p) (or_default (bp_aspectRatio p) dar)
                          (or_default (bp_model p) dm) (gen i) s).1
                    !! generateJobId (g_now (gen i)) (g_rnd (gen i))); [done|].
    rewrite generateImage_lookup. by rewrite decide_True.
  - rewrite Nat.add_succ_r. by apply (IH (S i)).
Qed.

Lemma minted_lookup gen i n k :
  k < n → minted gen i n !! k = Some (generateJobId (g_now (gen (i + k))) (g_rnd (gen (i + k)))).
Proof.
  intros Hk. unfold minted. rewrite list_lookup_fmap, lookup_seq_lt by done. done.
Qed.

(** X6. [generateBatchImages] creates one job per prompt, in input order,
    and then the batch that lists them. When the identifiers it mints are
    pairwise distinct, the job at position [i] of the returned list
    carries the text of prompt [i] and is being processed; the batch is
    stored under the returned identifier with exactly the returned job
    ids, totalCount the number of prompts, and no completion time; and
    the generation calls are outstanding in submission order. *)
Theorem X6_batch_submission (prompts : list BatchPrompt) (dar dm : string) (e : Env)
    (s : Server) :
  NoDup (minted (e_gen e) 0 (length prompts)) →
  let r := generateBatchImages prompts dar dm e s in
  r.2.1 = generateBatchId (e_now e) (e_rnd e)
  ∧ r.2.2 = minted (e_gen e) 0 (length prompts)
  ∧ length r.2.2 = length prompts
  ∧ batchJobs r.1 !! r.2.1 = Some (mkBatch r.2.1 r.2.2 (length prompts) (e_date e) None)
  ∧ inflight r.1 = inflight s ++ r.2.2
  ∧ (∀ i p, prompts !! i = Some p →
       ∃ jobId, r.2.2 !! i = Some jobId
         ∧ jobs r.1 !! jobId =
           Some (mkJob jobId Processing (bp_prompt p) None None
                       (g_created (e_gen e i)) None)).
Proof.
  intros Hnd r. subst r. rewrite generateBatchImages_unfold. simpl.
  destruct (submitAll_spec prompts dar dm (e_gen e) 0 s []) as (Hids & _ & Hfl & _).
  rewrite Hids. simpl.
  split; [done|]. split; [done|]. split; [apply minted_length|].
  split; [by rewrite lookup_insert_eq|]. split; [done|].
  intros i p Hi. eexists. split.
  - apply minted_lookup. by eapply lookup_lt_Some.
  - apply (submitAll_created prompts dar dm (e_gen e) 0 s [] i p Hnd Hi).
Qed.

Lemma X6_batch_submission_witness :
  NoDup (minted (e_gen sample_env) 0 2)
  ∧ (generateBatchImages [mkPrompt "a cat" None None; mkPrompt "a dog" (Some "16:9") None]
       "1:1" "gemini-3-pro-image-preview" sample_env init).2.2
    = ["job_1_r0"; "job_2_r1"].
Proof.
  assert (Hnd : NoDup (minted (e_gen sample_env) 0 2)).
  { apply NoDup_cons. split; [|apply NoDup_singleton].
    intros Hin. apply list_elem_of_singleton in Hin. vm_compute in Hin. discriminate Hin. }
  split; [exact Hnd|].
  destruct (X6_batch_submission
              [mkPrompt "a cat" None None; mkPrompt "a dog" (Some "16:9") None]
              "1:1" "gemini-3-pro-image-preview" sample_env init Hnd) as (_ & Hids & _).
  etransitivity; [exact Hids|]. vm_compute. reflexivity.
Defined.

(** ** What the schemas accept *)

Lemma z_enum_Some values v s :
  z_enum values v = Some s ↔ v = Some (JString s) ∧ s ∈ values.
Proof.
  unfold z_enum. destruct v as [[| | |s'| |]|]; try (split; [done|by intros [? _]]).
  case_decide; split.
  - intros [= ->]. done.
  - intros [[= ->] _]. done.
  - done.
  - intros [[= ->] ?]. done.
Qed.

Lemma z_string_Some v s : z_string v = Some s ↔ v = Some (JString s).
Proof.
  unfold z_string. destruct v as [[| | |s'| |]|]; try (split; done).
  split; by intros [= ->].
Qed.

Lemma z_default_enum_Some values d v s :
  z_default (z_enum values) d v = Some s ↔
  (v = None ∧ s = d) ∨ (v = Some (JString s) ∧ s ∈ values).
Proof.
  destruct v as [j|]; unfold z_default.
  - rewrite z_enum_Some. split; [by right|]. by intros [[? _]|?].
  - split; [intros [= <-]; by left|]. intros [[_ ->]|[? _]]; done.
Qed.

Lemma z_optional_enum_Some values v o :
  z_optional (z_enum values) v = Some o ↔
  (v = None ∧ o = None) ∨ (∃ s, v = Some (JString s) ∧ s ∈ values ∧ o = Some s).
Proof.
  destruct v as [j|]; unfold z_optional.
  - destruct (z_enum values (Some j)) as [s|] eqn:He; simpl.
    + apply z_enum_Some in He as [[= ->] Hin]. split.
      * intros [= <-]. right. by exists s.
      * intros [[? _]|(s' & [= <-] & _ & ->)]; done.
    + split; [done|]. intros [[? _]|(s' & [= ->] & Hin & _)]; [done|].
      assert (z_enum values (Some (JString s')) = Some s') as Hs by (by apply z_enum_Some).
      congruence.
  - split; [intros [= <-]; by left|]. intros [[_ ->]|(s & ? & _)]; done.
Qed.

(** X7. [GenerateImageSchema] accepts exactly the objects whose [prompt]
    is a string and whose [aspectRatio] and [model], when present, are
    strings of the enumerated sets; an absent [aspectRatio] becomes "1:1"
    and an absent [model] the pro model; other properties are ignored. So
    whatever is accepted carries an aspect ratio and a model of the
    enumerated sets. *)
Theorem X7_generate_image_arguments (args : option JSON) (prompt aspectRatio model : string) :
  (GenerateImageSchema args = Some (prompt, aspectRatio, model) ↔
   ∃ o, args = Some (JObject o)
     ∧ prop "prompt" o = Some (JString prompt)
     ∧ ((prop "aspectRatio" o = None ∧ aspectRatio = "1:1")
        ∨ (prop "aspectRatio" o = Some (JString aspectRatio) ∧ aspectRatio ∈ ASPECT_RATIOS))
     ∧ ((prop "model" o = None ∧ model = "gemini-3-pro-image-preview")
        ∨ (prop "model" o = Some (JString model) ∧ model ∈ AVAILABLE_MODELS)))
  ∧ (GenerateImageSchema args = Some (prompt, aspectRatio, model) →
     aspectRatio ∈ ASPECT_RATIOS ∧ model ∈ AVAILABLE_MODELS).
Proof.
  assert (Hiff : GenerateImageSchema args = Some (prompt, aspectRatio, model) ↔
   ∃ o, args = Some (JObject o)
     ∧ prop "prompt" o = Some (JString prompt)
     ∧ ((prop "aspectRatio" o = None ∧ aspectRatio = "1:1")
        ∨ (prop "aspectRatio" o = Some (JString aspectRatio) ∧ aspectRatio ∈ ASPECT_RATIOS))
     ∧ ((prop "model" o = None ∧ model = "gemini-3-pro-image-preview")
        ∨ (prop "model" o = Some (JString model) ∧ model ∈ AVAILABLE_MODELS))).
  { unfold GenerateImageSchema. split.
    - destruct args as [[| | | | |o]|]; try done.
      destruct (z_string (prop "prompt" o)) as [p|] eqn:Hp; simpl; [|done].
      destruct (z_default (z_enum ASPECT_RATIOS) "1:1" (prop "aspectRatio" o))
        as [a|] eqn:Ha; simpl; [|done].
      destruct (z_default (z_enum AVAILABLE_MODELS) "gemini-3-pro-image-preview"
                  (prop "model" o)) as [m|] eqn:Hm; simpl; [|done].
      intros [= -> -> ->]. exists o.
      apply z_string_Some in Hp. apply z_default_enum_Some in Ha, Hm. done.
    - intros (o & -> & Hp & Ha & Hm).
      apply z_string_Some in Hp. apply z_default_enum_Some in Ha, Hm.
      by rewrite Hp, Ha, Hm. }
  split; [exact Hiff|].
  intros (o & _ & _ & Ha & Hm)%Hiff. split.
  - destruct Ha as [[_ ->]|[_ ?]]; [|done]. repeat first [apply list_elem_of_here | apply list_elem_of_further].
  - destruct Hm as [[_ ->]|[_ ?]]; [|done]. repeat first [apply list_elem_of_here | apply list_elem_of_further].
Qed.

Lemma BatchPromptSchema_Some x p :
  BatchPromptSchema (Some x) = Some p →
  (∀ a, bp_aspectRatio p = Some a → a ∈ ASPECT_RATIOS)
  ∧ (∀ m, bp_model p = Some m → m ∈ AVAILABLE_MODELS).
Proof.
  unfold BatchPromptSchema. destruct x as [| | | | |o]; try done.
  destruct (z_string (prop "prompt" o)) as [t|]; simpl; [|done].
  destruct (z_optional (z_enum ASPECT_RATIOS) (prop "aspectRatio" o)) as [a|] eqn:Ha;
    simpl; [|done].
  destruct (z_optional (z_enum AVAILABLE_MODELS) (prop "model" o)) as [m|] eqn:Hm;
    simpl; [|done].
  intros [= <-]. simpl.
  apply z_optional_enum_Some in Ha, Hm. split.
  - intros a' ->. by destruct Ha as [[_ ?]|(s & _ & ? & [= ->])].
  - intros m' ->. by destruct Hm as [[_ ?]|(s & _ & ? & [= ->])].
Qed.

Lemma enum_truthy values s : s ∈ values → Forall (λ v, truthy v = true) values → truthy s = true.
Proof. intros Hin Hall. by eapply (proj1 (Forall_forall _ _) Hall). Qed.

Lemma GenerateBatchImagesSchema_sound args prompts defaultAspectRatio defaultModel :
  GenerateBatchImagesSchema args = Some (prompts, defaultAspectRatio, defaultModel) →
  1 ≤ length prompts ≤ 20
  ∧ defaultAspectRatio ∈ ASPECT_RATIOS
  ∧ defaultModel ∈ AVAILABLE_MODELS
  ∧ ∀ p, p ∈ prompts →
      (∀ a, bp_aspectRatio p = Some a → a ∈ ASPECT_RATIOS)
      ∧ (∀ m, bp_model p = Some m → m ∈ AVAILABLE_MODELS).
Proof.
  unfold GenerateBatchImagesSchema. destruct args as [[| | | | |o]|]; try done.
  unfold z_array at 1.
  destruct (prop "prompts" o) as [[| | | |items|]|]; try done.
  destruct ((1 <=? length items) && (length items <=? 20)) eqn:Hlen; [|done].
  destruct (mapM (λ x, BatchPromptSchema (Some x)) items) as [ps|] eqn:Hitems; simpl; [|done].
  destruct (z_default (z_enum ASPECT_RATIOS) "1:1" (prop "defaultAspectRatio" o))
    as [a|] eqn:Ha; simpl; [|done].
  destruct (z_default (z_enum AVAILABLE_MODELS) "gemini-3-pro-image-preview"
              (prop "defaultModel" o)) as [m|] eqn:Hm; simpl; [|done].
  intros [= -> -> ->].
  apply andb_true_iff in Hlen as [Hlo%Nat.leb_le Hhi%Nat.leb_le].
  pose proof (length_mapM _ _ _ Hitems) as Hsame.
  split; [lia|]. split; [|split].
  - apply z_default_enum_Some in Ha as [[_ ->]|[_ ?]]; [|done].
    repeat first [apply list_elem_of_here | apply list_elem_of_further].
  - apply z_default_enum_Some in Hm as [[_ ->]|[_ ?]]; [|done].
    repeat first [apply list_elem_of_here | apply list_elem_of_further].
  - intros p Hp. apply mapM_Some_1 in Hitems.
    destruct (proj1 (list_elem_of_lookup _ _) Hp) as [i Hi].
    destruct (Forall2_lookup_r _ _ _ _ _ Hitems Hi) as (x & _ & Hx).
    by apply BatchPromptSchema_Some in Hx.
Qed.

(** X8. Whatever [GenerateBatchImagesSchema] accepts has between 1 and 20
    prompts, batch defaults of the enumerated sets, and per-prompt
    overrides of the enumerated sets. So the aspect ratio and the model
    that [generateBatchImages] passes on for a prompt, namely its own
    override if it has one and the batch default otherwise, are always of
    the enumerated sets. *)
Theorem X8_batch_arguments (args : option JSON) (prompts : list BatchPrompt)
    (defaultAspectRatio defaultModel : string) :
  GenerateBatchImagesSchema args = Some (prompts, defaultAspectRatio, defaultModel) →
  1 ≤ length prompts ≤ 20
  ∧ defaultAspectRatio ∈ ASPECT_RATIOS
  ∧ defaultModel ∈ AVAILABLE_MODELS
  ∧ ∀ p, p ∈ prompts →
      or_default (bp_aspectRatio p) defaultAspectRatio ∈ ASPECT_RATIOS
      ∧ or_default (bp_model p) defaultModel ∈ AVAILABLE_MODELS
      ∧ (∀ a, bp_aspectRatio p = Some a →
           or_default (bp_aspectRatio p) defaultAspectRatio = a)
      ∧ (bp_aspectRatio p = None →
           or_default (bp_aspectRatio p) defaultAspectRatio = defaultAspectRatio)
      ∧ (∀ m, bp_model p = Some m → or_default (bp_model p) defaultModel = m)
      ∧ (bp_model p = None → or_default (bp_model p) defaultModel = defaultModel).
Proof.
  intros (Hlen & Hratio & Hmodel & Hitems)%GenerateBatchImagesSchema_sound.
  assert (Hr : Forall (λ v, truthy v = true) ASPECT_RATIOS) by (by repeat constructor).
  assert (Hmo : Forall (λ v, truthy v = true) AVAILABLE_MODELS) by (by repeat constructor).
  split; [done|]. split; [done|]. split; [done|].
  intros p Hp. destruct (Hitems p Hp) as [Hpa Hpm].
  unfold or_default.
  destruct (bp_aspectRatio p) as [a'|], (bp_model p) as [m'|];
    rewrite ?(enum_truthy _ a' (Hpa a' eq_refl) Hr), ?(enum_truthy _ m' (Hpm m' eq_refl) Hmo);
    repeat split; auto; try (intros ? [= ->]; done); try done.
Qed.

Lemma X8_batch_arguments_witness :
  GenerateBatchImagesSchema
    (Some (JObject [("prompts", JArray [JObject [("prompt", JString "a dog");
                                                 ("aspectRatio", JString "16:9")]])]))
  = Some ([mkPrompt "a dog" (Some "16:9") None], "1:1", "gemini-3-pro-image-preview")
  ∧ 1 ≤ length [mkPrompt "a dog" (Some "16:9") None] ≤ 20.
Proof.
  assert (Hs : GenerateBatchImagesSchema
    (Some (JObject [("prompts", JArray [JObject [("prompt", JString "a dog");
                                                 ("aspectRatio", JString "16:9")]])]))
    = Some ([mkPrompt "a dog" (Some "16:9") None], "1:1", "gemini-3-pro-image-preview"))
    by (vm_compute; reflexivity).
  split; [exact Hs|].
  exact (proj1 (X8_batch_arguments _ _ _ _ Hs)).
Defined.

(** ** The batches of a reachable state *)

Lemma move_keeps_totalCount s mj mb s' :
  move s mj mb s' → mb = [] →
  ∀ batchId batch', batchJobs s' !! batchId = Some batch' →
    ∃ batch, batchJobs s !! batchId = Some batch
             ∧ batch_totalCount batch' = batch_totalCount batch.
Proof.
  intros Hmove Hmb.
  assert (Hstatus : ∀ s1 other now,
    (∀ batchId batch', batchJobs s1 !! batchId = Some batch' →
       ∃ batch, batchJobs s !! batchId = Some batch
                ∧ batch_totalCount batch' = batch_totalCount batch) →
    ∀ batchId batch', batchJobs (getBatchStatus other now s1).1 !! batchId = Some batch' →
       ∃ batch, batchJobs s !! batchId = Some batch
                ∧ batch_totalCount batch' = batch_totalCount batch).
  { intros s1 other now Hs1 batchId batch'. rewrite getBatchStatus_lookup.
    destruct (batchJobs s1 !! batchId) as [b1|] eqn:Hb1; simpl; [|done].
    intros [= <-]. destruct (Hs1 _ _ Hb1) as (batch & Hb & Htot).
    exists batch. split; [done|]. case_decide; [|done].
    by destruct (stamp_fields (tally (jobs s1) (batch_jobIds b1)) now b1) as (_ & _ & -> & _). }
  destruct Hmove as [|p a m e|k jobId r now Hk|prompts dar dm e|batchId now|dates].
  - eauto.
  - eauto.
  - intros batchId batch'. simpl. destruct (settle_rest jobId r now s) as [-> _]. eauto.
  - done.
  - apply Hstatus. eauto.
  - apply (list_batches_preserves
             (λ s1, ∀ batchId batch', batchJobs s1 !! batchId = Some batch' →
                ∃ batch, batchJobs s !! batchId = Some batch
                         ∧ batch_totalCount batch' = batch_totalCount batch)); [|eauto].
    intros s1 other now. apply Hstatus.
Qed.

Section Batches.
Context `{Node}.

Lemma exec_size_inv ev w : size_inv w.1 → size_inv (exec ev w).1.
Proof.
  intros Hw. destruct (minted_batches ev) as [|minted_id rest] eqn:Hmb.
  - intros batchId batch' Hb'.
    pose proof (exec_move ev w) as Hmove. rewrite Hmb in Hmove.
    destruct (move_keeps_totalCount _ _ _ _ Hmove eq_refl _ _ Hb') as (batch & Hb & ->).
    by eapply Hw.
  - destruct ev as [name args e|k r now]; [|done]. simpl in Hmb.
    case_decide as Hname; [|done]. subst name.
    destruct (GenerateBatchImagesSchema args) as [[[prompts dar] dm]|] eqn:Hargs; [|done].
    destruct w as [s fs]. unfold exec.
    rewrite handle_generate_batch_images, Hargs, generateBatchImages_unfold.
    intros batchId batch'. simpl.
    destruct (submitAll_spec prompts dar dm (e_gen e) 0 s []) as (_ & -> & _).
    destruct (decide (batchId = generateBatchId (e_now e) (e_rnd e))) as [->|Hne].
    + rewrite lookup_insert_eq. intros [= <-]. simpl.
      by apply GenerateBatchImagesSchema_sound in Hargs as [? _].
    + rewrite lookup_insert_ne by done. apply Hw.
Qed.

Lemma reachable_size_inv w : reachable w → size_inv w.1.
Proof.
  induction 1 as [fs|w ev _ IH]; [by intros batchId batch|]. by apply exec_size_inv.
Qed.

(** X9. In every reachable state each batch is stored under its own
    identifier, has between 1 and 20 members (the bounds of the schema:
    no other path creates a batch), a totalCount equal to the number of
    its members, and only members that are in the job store, each under
    its own id: the batch was created after its jobs, and neither is ever
    removed. *)
Theorem X9_batches_well_formed (w : Server * FS) (batchId : string) (batch : BatchJob) :
  reachable w →
  batchJobs w.1 !! batchId = Some batch →
  batch_id batch = batchId
  ∧ batch_totalCount batch = length (batch_jobIds batch)
  ∧ 1 ≤ length (batch_jobIds batch) ≤ 20
  ∧ ∀ jobId, jobId ∈ batch_jobIds batch →
      ∃ job, jobs w.1 !! jobId = Some job ∧ job_id job = jobId.
Proof.
  intros Hw Hb.
  destruct (reachable_batch_inv w Hw batchId batch Hb) as (Hid & Htot & Hmem).
  pose proof (reachable_size_inv w Hw batchId batch Hb) as Hsize.
  split; [done|]. split; [done|]. split; [lia|].
  intros jobId Hin. destruct (Hmem jobId Hin) as [job Hjob].
  exists job. split; [done|]. by apply (reachable_store_inv w Hw jobId job).
Qed.
End Batches.

Lemma X9_batches_well_formed_witness :
  reachable (H := test_node) world5
  ∧ batchJobs world5.1 !! "batch_4_d" = Some pair_batch
  ∧ batch_totalCount pair_batch = length (batch_jobIds pair_batch).
Proof.
  assert (Hb : batchJobs world5.1 !! "batch_4_d" = Some pair_batch)
    by (vm_compute; reflexivity).
  split; [exact world5_reachable|]. split; [exact Hb|].
  exact (proj1 (proj2 (X9_batches_well_formed (H := test_node) world5 "batch_4_d" pair_batch
                         world5_reachable Hb))).
Defined.

(** ** Unknown identifiers *)

Section Unknown.
Context `{Node}.

(** X10. An unknown identifier is an error and nothing else.
    [getBatchStatus] throws exactly when the batch id is not in the batch
    store, the error is "Batch <id> not found" and the state is left as
    it was; [saveBatchImages] on an unknown batch throws the same error
    before any filesystem call; [check_job_status] throws exactly when
    the job id is not in the job store, with "Job <id> not found". *)
Theorem X10_unknown_identifiers (s : Server) (id directory prefix filePath : string) (now : Z)
    (view : nat → gmap string ImageJob) (fs : FS) :
  ((∃ e, (getBatchStatus id now s).2 = Throw e) ↔ batchJobs s !! id = None)
  ∧ (batchJobs s !! id = None →
       getBatchStatus id now s = (s, Throw (BatchNotFound id))
       ∧ saveBatchImages (batchJobs s) view id directory prefix fs
         = (fs, Throw (BatchNotFound id))
       ∧ message (BatchNotFound id) = "Batch " +:+ id +:+ " not found")
  ∧ ((∃ e, check_job_status id s = Throw e) ↔ jobs s !! id = None)
  ∧ (jobs s !! id = None →
       check_job_status id s = Throw (JobNotFound id)
       ∧ saveImageToFile (jobs s) id filePath fs = (fs, Throw (JobNotFound id))
       ∧ message (JobNotFound id) = "Job " +:+ id +:+ " not found").
Proof.
  split; [|split; [|split]].
  - unfold getBatchStatus. destruct (batchJobs s !! id); split; try done.
    + by intros [e ?].
    + by eexists.
  - intros Hb. unfold getBatchStatus, saveBatchImages. by rewrite Hb.
  - unfold check_job_status. destruct (jobs s !! id); split; try done.
    + by intros [e ?].
    + by eexists.
  - intros Hj. unfold check_job_status, saveImageToFile. by rewrite Hj.
Qed.
End Unknown.

(** ** The footprint of the aggregator *)

(** X11. [getBatchStatus] changes nothing but the completion time of the
    batch it is asked about: the job store, the outstanding calls and
    every other batch are left as they were; of the batch itself the id,
    the members, the count and the creation time are unchanged; a
    completion time that is set is kept, and one that is unset stays
    unset unless completed + failed = totalCount, in which case it becomes
    the time of the call. The report carries the completion time as it is
    after the call. *)
Theorem X11_aggregator_footprint (s : Server) (batchId : string) (batch : BatchJob) (now : Z) :
  batchJobs s !! batchId = Some batch →
  jobs (getBatchStatus batchId now s).1 = jobs s
  ∧ inflight (getBatchStatus batchId now s).1 = inflight s
  ∧ (∀ other, other ≠ batchId →
       batchJobs (getBatchStatus batchId now s).1 !! other = batchJobs s !! other)
  ∧ ∃ batch' r,
      batchJobs (getBatchStatus batchId now s).1 !! batchId = Some batch'
      ∧ (getBatchStatus batchId now s).2 = Return r
      ∧ batch_id batch' = batch_id batch
      ∧ batch_jobIds batch' = batch_jobIds batch
      ∧ batch_totalCount batch' = batch_totalCount batch
      ∧ batch_createdAt batch' = batch_createdAt batch
      ∧ r_completedAt r = batch_completedAt batch'
      ∧ r_createdAt r = batch_createdAt batch
      ∧ (is_Some (batch_completedAt batch) → batch' = batch)
      ∧ (batch_completedAt batch = None →
           batch_completedAt batch' =
           if r_completedCount r + r_failedCount r =? r_totalCount r
           then Some now else None).
Proof.
  intros Hb. destruct (getBatchStatus_jobs batchId now s) as [Hj Hi].
  split; [done|]. split; [done|]. split.
  - intros other Hne. rewrite getBatchStatus_lookup.
    destruct (batchJobs s !! other); simpl; [|done]. by rewrite decide_False.
  - unfold getBatchStatus. rewrite Hb. simpl. rewrite lookup_insert_eq.
    set (t := tally (jobs s) (batch_jobIds batch)).
    destruct (stamp_fields t now batch) as (Hid & Hids & Htot & Hc).
    eexists _, _. split; [done|]. split; [done|]. simpl.
    rewrite Htot. repeat split; try done.
    + intros Hat. by apply stamp_done.
    + intros Hat. unfold stamp, allDone. rewrite Hat.
      by destruct (completedCount t + failedCount t =? batch_totalCount batch).
Qed.

Lemma X11_aggregator_footprint_witness :
  batchJobs sample_server !! "batch_4_d" = Some sample_batch
  ∧ jobs (getBatchStatus "batch_4_d" 7 sample_server).1 = jobs sample_server.
Proof.
  assert (Hb : batchJobs sample_server !! "batch_4_d" = Some sample_batch)
    by (vm_compute; reflexivity).
  split; [exact Hb|].
  exact (proj1 (X11_aggregator_footprint sample_server "batch_4_d" sample_batch 7 Hb)).
Defined.

(** ** Listing the batches *)

Lemma list_batches_step_known dates s out k b :
  batchJobs s !! k = Some b → batch_id b = k →
  list_batches_step dates (s, Return out) (k, b)
  = (with_batchJobs s (<[k := visited dates (jobs s) b]> (batchJobs s)),
     Return (out ++ [summary_of dates (jobs s) b])).
Proof.
  intros Hb Hid. unfold list_batches_step, getBatchStatus. simpl.
  rewrite Hid, Hb. simpl. rewrite lookup_insert_eq. simpl.
  unfold summary_of, visited. rewrite Hid.
  destruct (stamp_fields (tally (jobs s) (batch_jobIds b)) (dates k) b)
    as (-> & _ & -> & ->).
  by rewrite Hid.
Qed.

Lemma list_batches_run dates (js : gmap string ImageJob) :
  ∀ (l : list (string * BatchJob)) (s : Server) (out : list BatchSummary),
  NoDup l.*1 →
  jobs s = js →
  (∀ k b, (k, b) ∈ l → batchJobs s !! k = Some b ∧ batch_id b = k) →
  ∃ s', foldl (list_batches_step dates) (s, Return out) l
        = (s', Return (out ++ ((λ kb, summary_of dates js kb.2) <$> l)))
      ∧ jobs s' = js ∧ inflight s' = inflight s
      ∧ ∀ k, batchJobs s' !! k =
             match list_to_map (M := gmap string BatchJob) l !! k with
             | Some b => Some (visited dates js b)
             | None => batchJobs s !! k
             end.
Proof.
  induction l as [|[k b] l IH]; intros s out Hnd Hjs Hl.
  - exists s. simpl. rewrite app_nil_r. repeat split; try done.
  - rewrite fmap_cons in Hnd. apply NoDup_cons in Hnd as [Hk Hnd].
    destruct (Hl k b) as [Hb Hid]; [apply elem_of_cons; by left|].
    cbn [foldl]. rewrite (list_batches_step_known dates s out k b Hb Hid).
    set (s1 := with_batchJobs s (<[k:=visited dates (jobs s) b]> (batchJobs s))).
    destruct (IH s1 (out ++ [summary_of dates (jobs s) b]) Hnd)
      as (s' & Hrun & Hjobs & Hfl & Hlook).
    { done. }
    { intros k' b0 Hin. destruct (Hl k' b0) as [Hb0 Hid0]; [apply elem_of_cons; by right|].
      split; [|done]. simpl. rewrite lookup_insert_ne; [done|].
      intros <-. apply Hk. apply list_elem_of_fmap. by exists (k, b0). }
    exists s'. split; [|split; [done|split; [done|]]].
    + rewrite Hrun, fmap_cons, <- app_assoc. simpl. by rewrite Hjs.
    + intros k'. rewrite Hlook. cbn [list_to_map foldr]. simpl.
      destruct (decide (k' = k)) as [->|Hne].
      * rewrite lookup_insert_eq.
        rewrite (not_elem_of_list_to_map_1 _ k Hk). rewrite lookup_insert_eq.
        by rewrite Hjs.
      * by rewrite !lookup_insert_ne by done.
Qed.

Lemma server_eq (s s' : Server) :
  jobs s' = jobs s → batchJobs s' = batchJobs s → inflight s' = inflight s → s' = s.
Proof. destruct s, s'; simpl. by intros -> -> ->. Qed.

Lemma list_batches_in_spec dates (s : Server) (order : list (string * BatchJob)) :
  batch_inv s →
  order ≡ₚ map_to_list (batchJobs s) →
  ∃ s', list_batches_in dates order s
        = (s', Return ((λ kb, summary_of dates (jobs s) kb.2) <$> order))
      ∧ jobs s' = jobs s
      ∧ inflight s' = inflight s
      ∧ (∀ batchId, batchJobs s' !! batchId
                    = visited dates (jobs s) <$> batchJobs s !! batchId).
Proof.
  intros Hinv Hperm.
  assert (Hnd : NoDup order.*1).
  { rewrite Hperm. apply NoDup_fst_map_to_list. }
  destruct (list_batches_run dates (jobs s) order s [])
    as (s' & Hrun & Hjobs & Hfl & Hlook); [done|done| |].
  { intros k b Hin. rewrite Hperm in Hin. apply elem_of_map_to_list in Hin.
    split; [done|]. by apply (Hinv k b). }
  exists s'. split; [done|]. split; [done|]. split; [done|].
  intros batchId. rewrite Hlook.
  rewrite (list_to_map_proper (M := gmap string) order (map_to_list (batchJobs s)) Hnd Hperm).
  rewrite list_to_map_to_list. by destruct (batchJobs s !! batchId).
Qed.

Section ListBatches.
Context `{Node}.

(** X12. In a reachable state listing the batches never throws. In
    whatever order the store enumerates its batches (the code's [Map]
    does in insertion order), the listing is one summary per batch, in
    that order, each with the status and the completed tally that
    [getBatchStatus] computes for that batch; [list_batches], which
    takes the order of [map_to_list], returns the same summaries up to
    their order. Whatever the order, the listing leaves every batch as a
    [getBatchStatus] call on it would: stamped with a completion time if
    all its members are done and it had none, unchanged otherwise. The
    job store and the outstanding calls are left as they were. *)
Theorem X12_list_batches (w : Server * FS) (dates : string → Z)
    (order : list (string * BatchJob)) :
  reachable w →
  order ≡ₚ map_to_list (batchJobs w.1) →
  ∃ s' listed,
    list_batches_in dates order w.1
    = (s', Return ((λ kb, summary_of dates (jobs w.1) kb.2) <$> order))
    ∧ list_batches dates w.1 = (s', Return listed)
    ∧ listed ≡ₚ (λ kb, summary_of dates (jobs w.1) kb.2) <$> order
    ∧ jobs s' = jobs w.1
    ∧ inflight s' = inflight w.1
    ∧ (∀ batchId, batchJobs s' !! batchId
                  = visited dates (jobs w.1) <$> batchJobs w.1 !! batchId)
    ∧ (∀ batchId batch, batchJobs w.1 !! batchId = Some batch →
         batchJobs s' !! batchId
         = batchJobs (getBatchStatus batchId (dates batchId) w.1).1 !! batchId).
Proof.
  intros Hw Hperm. pose proof (reachable_batch_inv w Hw) as Hinv.
  destruct (list_batches_in_spec dates w.1 order Hinv Hperm)
    as (s' & Hrun & Hjobs & Hfl & Hvisit).
  destruct (list_batches_in_spec dates w.1 (map_to_list (batchJobs w.1)) Hinv)
    as (s0 & Hrun0 & Hjobs0 & Hfl0 & Hvisit0); [done|].
  assert (Hsame : s0 = s').
  { apply server_eq; [congruence| |congruence].
    apply map_eq. intros batchId. by rewrite Hvisit0, Hvisit. }
  subst s0.
  exists s', ((λ kb, summary_of dates (jobs w.1) kb.2) <$> map_to_list (batchJobs w.1)).
  split; [done|]. split; [exact Hrun0|]. split; [by rewrite Hperm|].
  split; [done|]. split; [done|]. split; [done|].
  intros batchId batch Hb. rewrite Hvisit, getBatchStatus_lookup, Hb. simpl.
  rewrite decide_True by done. unfold visited.
  by destruct (Hinv batchId batch Hb) as (-> & _).
Qed.
End ListBatches.

Lemma world7_reachable : reachable (H := test_node) world7.
Proof. exact (reachable_exec (H := test_node) _ submit_bird world5_reachable). Qed.

Lemma X12_list_batches_witness :
  reachable (H := test_node) world7
  ∧ [("batch_4_d", pair_batch); ("batch_9_z", bird_batch)] ≡ₚ map_to_list (batchJobs world7.1)
  ∧ (list_batches_in (λ _, 9%Z) [("batch_4_d", pair_batch); ("batch_9_z", bird_batch)]
       world7.1).2
    = Return [mkBatchSummary "batch_4_d" BatchPartial 1 2 4 (Some 9%Z);
              mkBatchSummary "batch_9_z" BatchProcessing 0 1 9 None].
Proof.
  assert (Hperm : [("batch_4_d", pair_batch); ("batch_9_z", bird_batch)]
                  ≡ₚ map_to_list (batchJobs world7.1)).
  { vm_compute. first [reflexivity | apply perm_swap]. }
  split; [exact world7_reachable|]. split; [exact Hperm|].
  destruct (X12_list_batches (H := test_node) world7 (λ _, 9%Z) _ world7_reachable Hperm)
    as (s' & listed & Hrun & _).
  etransitivity; [exact (f_equal snd Hrun)|]. vm_compute. reflexivity.
Defined.

(** ** Listing the jobs *)

Lemma string_length_app (a b : string) :
  String.length (a +:+ b) = String.length a + String.length b.
Proof. induction a as [|c a IH]; simpl; [done|]. by rewrite IH. Qed.

Lemma string_app_nil_r (s : string) : s +:+ "" = s.
Proof.
  induction s as [|c s IH]; [done|].
  change (String c (s +:+ "") = String c s). by rewrite IH.
Qed.

Lemma substring_0_all (n : nat) : ∀ s, String.length s ≤ n → String.substring 0 n s = s.
Proof.
  induction n as [|n IH]; intros [|c s]; simpl; try done; [lia|].
  intros Hlen. rewrite IH; [done|lia].
Qed.

Lemma substring_0_length (n : nat) : ∀ s,
  String.length (String.substring 0 n s) = n `min` String.length s.
Proof.
  induction n as [|n IH]; intros [|c s]; simpl; try done. by rewrite IH.
Qed.

Lemma substring_0_prefix (n : nat) : ∀ s,
  s = String.substring 0 n s +:+ String.substring n (String.length s - n) s.
Proof.
  induction n as [|n IH]; intros [|c s]; simpl; try done.
  - rewrite (substring_0_all (String.length s)) by done. reflexivity.
  - change (String c s = String c (String.substring 0 n s
                                    +:+ String.substring n (String.length s - n) s)).
    f_equal. apply IH.
Qed.

Lemma preview_spec p :
  (String.length p ≤ 50 → preview p = p)
  ∧ (50 < String.length p →
       preview p = String.substring 0 50 p +:+ "..."
       ∧ String.length (preview p) = 53
       ∧ ∃ rest, rest ≠ "" ∧ p = String.substring 0 50 p +:+ rest)
  ∧ String.length (preview p) ≤ 53.
Proof.
  unfold preview.
  destruct (Nat.ltb_spec 50 (String.length p)) as [Hlong|Hshort].
  - split; [lia|]. split.
    + intros _. split; [done|]. split.
      * rewrite string_length_app, substring_0_length, Nat.min_l by lia. reflexivity.
      * exists (String.substring 50 (String.length p - 50) p). split.
        -- intros Hnil. pose proof (substring_0_prefix 50 p) as Hp.
           rewrite Hnil in Hp. apply (f_equal String.length) in Hp.
           rewrite string_length_app, substring_0_length, Nat.min_l in Hp by lia.
           change (String.length "") with 0 in Hp. lia.
        -- apply substring_0_prefix.
    + rewrite string_length_app, substring_0_length, Nat.min_l by lia. reflexivity.
  - assert (Hid : String.substring 0 50 p +:+ "" = p).
    { rewrite substring_0_all by done. apply string_app_nil_r. }
    rewrite Hid. split; [done|]. split; [lia|]. lia.
Qed.

(** X13. [list_jobs] lists every job of the store once and nothing else:
    as many entries as the store has jobs, each carrying the id, status
    and times of a stored job. The prompt it shows is the job's prompt if
    that has at most 50 characters, and otherwise its first 50 characters
    followed by "...": never more than 53 characters. *)
Theorem X13_list_jobs (s : Server) :
  length (list_jobs s) = size (jobs s)
  ∧ (∀ entry, entry ∈ list_jobs s ↔
       ∃ jobId job, jobs s !! jobId = Some job
         ∧ entry = mkJobSummary (job_id job) (job_status job) (preview (job_prompt job))
                                (job_createdAt job) (job_completedAt job))
  ∧ (∀ jobId job, jobs s !! jobId = Some job →
       String.length (preview (job_prompt job)) ≤ 53
       ∧ (String.length (job_prompt job) ≤ 50 → preview (job_prompt job) = job_prompt job)
       ∧ (50 < String.length (job_prompt job) →
            preview (job_prompt job) = String.substring 0 50 (job_prompt job) +:+ "..."
            ∧ ∃ rest, rest ≠ ""
                ∧ job_prompt job = String.substring 0 50 (job_prompt job) +:+ rest)).
Proof.
  split; [|split].
  - unfold list_jobs. by rewrite length_fmap, length_map_to_list.
  - intros entry. unfold list_jobs. rewrite list_elem_of_fmap. split.
    + intros ([jobId job] & -> & Hin%elem_of_map_to_list). by exists jobId, job.
    + intros (jobId & job & Hjob & ->). exists (jobId, job). split; [done|].
      by apply elem_of_map_to_list.
  - intros jobId job _.
    destruct (preview_spec (job_prompt job)) as (Hshort & Hlong & Hbound).
    split; [done|]. split; [done|].
    intros Hlen. destruct (Hlong Hlen) as (Heq & _ & Hrest). done.
Qed.

(** ** Identifiers *)

Lemma pretty_N_char_not_underscore x : pretty_N_char x ≠ underscore.
Proof. unfold pretty_N_char. by repeat case_match. Qed.

Lemma pretty_N_go_free x : ∀ s, free_of underscore s → free_of underscore (pretty_N_go x s).
Proof.
  induction (N.lt_wf_0 x) as [x _ IH]; intros s Hs.
  assert (x = 0 ∨ 0 < x)%N as [->|Hpos] by lia.
  - by rewrite pretty_N_go_0.
  - rewrite pretty_N_go_step by done. apply IH.
    + by apply N.div_lt.
    + split; [apply pretty_N_char_not_underscore|done].
Qed.

Lemma pretty_Z_free (x : Z) : free_of underscore (pretty x).
Proof.
  assert (HN : ∀ n : N, free_of underscore (pretty n)).
  { intros n. unfold pretty, pretty_N. case_decide; [by split|].
    by apply pretty_N_go_free. }
  destruct x as [|p|p]; unfold pretty, pretty_Z.
  - by split.
  - apply (HN (Npos p)).
  - split; [done|]. apply (HN (Npos p)).
Qed.

Lemma app_sep_inj c : ∀ a a' r r',
  free_of c a → free_of c a' →
  a +:+ String c r = a' +:+ String c r' → a = a' ∧ r = r'.
Proof.
  induction a as [|x a IH]; intros [|x' a'] r r' Ha Ha' Heq.
  - by injection Heq as ->.
  - injection Heq as -> _. by destruct Ha' as [? _].
  - injection Heq as -> _. by destruct Ha as [? _].
  - injection Heq as -> Heq. destruct Ha as [_ Ha], Ha' as [_ Ha'].
    destruct (IH a' r r' Ha Ha' Heq) as [-> ->]. done.
Qed.

(** X14. An identifier determines the clock reading and the random suffix
    it was made from: two job ids are equal only if both are, and
    likewise two batch ids. A job id is never a batch id. So as long as
    the clock or the random suffix differs between two calls, the two
    identifiers differ. *)
Theorem X14_identifiers_injective (now now' : Z) (rnd rnd' : string) :
  (generateJobId now rnd = generateJobId now' rnd' → now = now' ∧ rnd = rnd')
  ∧ (generateBatchId now rnd = generateBatchId now' rnd' → now = now' ∧ rnd = rnd')
  ∧ generateJobId now rnd ≠ generateBatchId now' rnd'.
Proof.
  assert (Hcore : pretty now +:+ "_" +:+ rnd = pretty now' +:+ "_" +:+ rnd' →
                  now = now' ∧ rnd = rnd').
  { intros Heq.
    destruct (app_sep_inj underscore (pretty now) (pretty now') rnd rnd'
                (pretty_Z_free now) (pretty_Z_free now') Heq) as [Hnow ->].
    split; [|done]. by apply (inj pretty). }
  split; [|split].
  - unfold generateJobId. intros Heq. apply Hcore. by apply (inj (String.append "job_")).
  - unfold generateBatchId. intros Heq. apply Hcore.
    by apply (inj (String.append "batch_")).
  - unfold generateJobId, generateBatchId. intros Heq. discriminate Heq.
Qed.

(** ** The progress of a batch *)

Lemma length_filter_mono {A} (P Q : A → Prop) `{∀ x, Decision (P x)} `{∀ x, Decision (Q x)}
    (l : list A) :
  (∀ x, x ∈ l → P x → Q x) → length (filter P l) ≤ length (filter Q l).
Proof.
  induction l as [|x l IH]; intros Himp; [done|].
  assert (length (filter P l) ≤ length (filter Q l)) as Hle.
  { apply IH. intros y Hy. apply Himp. by apply list_elem_of_further. }
  rewrite !filter_cons.
  destruct (decide (P x)) as [HP|HP]; destruct (decide (Q x)) as [HQ|HQ]; simpl; try lia.
  destruct HQ. apply Himp; [apply list_elem_of_here|done].
Qed.

Lemma tally_fold_ext js js' ids :
  (∀ jobId, jobId ∈ ids → js' !! jobId = js !! jobId) →
  ∀ t, foldl (tally_step js') t ids = foldl (tally_step js) t ids.
Proof.
  induction ids as [|jobId ids IH]; intros Heq t; simpl; [done|].
  rewrite IH by (intros x Hx; apply Heq; by apply list_elem_of_further).
  f_equal. unfold tally_step. rewrite Heq by apply list_elem_of_here. done.
Qed.

Lemma lifecycle_terminal s s' jobId job :
  lifecycle s s' → jobs s !! jobId = Some job → terminal (job_status job) →
  jobs s' !! jobId = Some job.
Proof.
  intros Hlife Hjob Hterm. specialize (Hlife jobId). rewrite Hjob in Hlife.
  destruct Hlife as (job' & Hjob' & _ & Hkeep). by rewrite <- (Hkeep Hterm).
Qed.

Lemma lifecycle_processing s s' jobId job' :
  lifecycle s s' → is_Some (jobs s !! jobId) →
  jobs s' !! jobId = Some job' → job_status job' = Processing →
  jobs s !! jobId = Some job'.
Proof.
  intros Hlife [job Hjob] Hjob' Hst. specialize (Hlife jobId). rewrite Hjob in Hlife.
  destruct Hlife as (job2 & Hjob2 & Hev & _).
  rewrite Hjob' in Hjob2. injection Hjob2 as <-.
  destruct (evolves_terminal _ _ Hev) as [->|[Hterm|Hterm]]; [done|congruence..].
Qed.

Section Progress.
Context `{Node}.

(** X15. Seen through the tallies of a batch, time only moves forward.
    In a state reached with identifiers that never repeat, and after any
    further turns of the event loop in which they do not repeat either,
    the number of completed members of a batch and the number of failed
    members are at least what they were, the number of members being
    processed is at most what it was, and every member that was in a
    terminal state has the record it had. Once every member is in a
    terminal state the tallies, the job details and the overall status
    of the batch are final. *)
Theorem X15_batch_progress (w : Server * FS) (evs : list Event) (batchId : string)
    (batch : BatchJob) :
  reachable_fresh w → fresh_run evs w →
  batchJobs w.1 !! batchId = Some batch →
  let t := tally (jobs w.1) (batch_jobIds batch) in
  let t' := tally (jobs (execs evs w).1) (batch_jobIds batch) in
  completedCount t ≤ completedCount t'
  ∧ failedCount t ≤ failedCount t'
  ∧ processingCount t' ≤ processingCount t
  ∧ (∀ jobId job, jobs w.1 !! jobId = Some job → terminal (job_status job) →
       jobs (execs evs w).1 !! jobId = Some job)
  ∧ (all_terminal (jobs w.1) (batch_jobIds batch) →
       t' = t ∧ overall t' batch = overall t batch
       ∧ overall t batch ∈ [BatchCompleted; BatchPartial; BatchFailed]).
Proof.
  intros Hw Hrun Hb t t'.
  pose proof (fresh_run_lifecycle evs w Hw Hrun) as Hlife.
  destruct (reachable_batch_inv w (reachable_fresh_reachable w Hw) batchId batch Hb)
    as (_ & Htot & Hmem).
  assert (Hkeep : ∀ jobId job, jobs w.1 !! jobId = Some job → terminal (job_status job) →
                    jobs (execs evs w).1 !! jobId = Some job).
  { intros jobId job. by apply lifecycle_terminal. }
  assert (Hup : ∀ st, terminal st →
            members_with (jobs w.1) st (batch_jobIds batch)
            ≤ members_with (jobs (execs evs w).1) st (batch_jobIds batch)).
  { intros st Hst. unfold members_with. apply length_filter_mono.
    intros jobId _. destruct (jobs w.1 !! jobId) as [job|] eqn:Hjob; [|done].
    cbn [fmap option_fmap option_map]. intros [= Hjst].
    rewrite (Hkeep jobId job Hjob) by (by rewrite Hjst). simpl. by rewrite Hjst. }
  split; [|split; [|split; [|split]]].
  - pose proof (tally_count (jobs w.1) Completed (batch_jobIds batch)) as E.
    pose proof (tally_count (jobs (execs evs w).1) Completed (batch_jobIds batch)) as E'.
    simpl in E, E'. fold t in E. fold t' in E'. rewrite E, E'. apply Hup. by left.
  - pose proof (tally_count (jobs w.1) Failed (batch_jobIds batch)) as E.
    pose proof (tally_count (jobs (execs evs w).1) Failed (batch_jobIds batch)) as E'.
    simpl in E, E'. fold t in E. fold t' in E'. rewrite E, E'. apply Hup. by right.
  - pose proof (tally_count (jobs w.1) Processing (batch_jobIds batch)) as E.
    pose proof (tally_count (jobs (execs evs w).1) Processing (batch_jobIds batch)) as E'.
    simpl in E, E'. fold t in E. fold t' in E'. rewrite E, E'.
    unfold members_with. apply length_filter_mono.
    intros jobId Hin.
    destruct (jobs (execs evs w).1 !! jobId) as [job'|] eqn:Hjob'; [|done].
    cbn [fmap option_fmap option_map]. intros [= Hjst].
    rewrite (lifecycle_processing _ _ _ _ Hlife (Hmem _ Hin) Hjob' Hjst). simpl.
    by rewrite Hjst.
  - done.
  - intros Hall.
    assert (Heq : t' = t).
    { unfold t, t', tally. apply tally_fold_ext. intros jobId Hin.
      unfold all_terminal in Hall. rewrite Forall_forall in Hall.
      destruct (Hall _ Hin) as (job & Hjob & Hterm).
      rewrite Hjob. by apply Hkeep. }
    split; [done|]. split; [by rewrite Heq|].
    apply terminal_count in Hall.
    pose proof (tally_count (jobs w.1) Completed (batch_jobIds batch)) as Ec.
    pose proof (tally_count (jobs w.1) Failed (batch_jobIds batch)) as Ef.
    simpl in Ec, Ef. fold t in Ec, Ef.
    unfold overall, allDone. rewrite Ec, Ef, Htot, Hall, Nat.eqb_refl.
    destruct (_ =? _); [repeat first [apply list_elem_of_here | apply list_elem_of_further]|].
    destruct (0 <? _); repeat first [apply list_elem_of_here | apply list_elem_of_further].
Qed.
End Progress.

Lemma settled_fresh `{Node} k r now (w : Server * FS) : fresh (Settled k r now) w.
Proof.
  split; [apply NoDup_nil_2|].
  split; intros x Hin; by apply elem_of_nil in Hin.
Qed.

Lemma world3_reachable_fresh : reachable_fresh (H := test_node) world3.
Proof.
  apply (reachable_fresh_exec (H := test_node) world0 submit_pair).
  - apply (reachable_fresh_init (H := test_node)).
  - split; [|split].
    + apply (bool_decide_unpack _). vm_compute. reflexivity.
    + intros jobId _. apply lookup_empty.
    + intros batchId _. apply lookup_empty.
Qed.

Lemma X15_batch_progress_witness :
  reachable_fresh (H := test_node) world3
  ∧ fresh_run (H := test_node) [cat_arrives; dog_fails] world3
  ∧ batchJobs world3.1 !! "batch_4_d" = Some pair_batch
  ∧ completedCount (tally (jobs world3.1) (batch_jobIds pair_batch))
    ≤ completedCount (tally (jobs (execs (H := test_node) [cat_arrives; dog_fails] world3).1)
                            (batch_jobIds pair_batch)).
Proof.
  assert (Hrun : fresh_run (H := test_node) [cat_arrives; dog_fails] world3).
  { split; [apply (settled_fresh (H := test_node))|].
    split; [apply (settled_fresh (H := test_node))|exact I]. }
  assert (Hb : batchJobs world3.1 !! "batch_4_d" = Some pair_batch)
    by (vm_compute; reflexivity).
  split; [exact world3_reachable_fresh|]. split; [exact Hrun|]. split; [exact Hb|].
  exact (proj1 (X15_batch_progress (H := test_node) world3 [cat_arrives; dog_fails]
                  "batch_4_d" pair_batch world3_reachable_fresh Hrun Hb)).
Defined.

(** ** Batches that carry a completion time *)

Lemma evolution_all_terminal s s' ids :
  evolution s s' → all_terminal (jobs s) ids → all_terminal (jobs s') ids.
Proof.
  intros Hev Hall. unfold all_terminal in *. eapply Forall_impl; [exact Hall|].
  intros jobId (job & Hjob & Hterm). simpl.
  specialize (Hev jobId). rewrite Hjob in Hev.
  destruct Hev as (job' & Hjob' & _ & Hkeep).
  exists job. split; [|done]. by rewrite <- (Hkeep Hterm).
Qed.

Lemma getBatchStatus_stamped_inv batchId now s :
  batch_inv s → stamped_inv s → stamped_inv (getBatchStatus batchId now s).1.
Proof.
  intros Hbs Hs other batch'. rewrite getBatchStatus_lookup.
  destruct (getBatchStatus_jobs batchId now s) as [-> _].
  destruct (batchJobs s !! other) as [batch|] eqn:Hb; simpl; [|done].
  intros [= <-]. case_decide; [|exact (Hs other batch Hb)].
  destruct (stamp_fields (tally (jobs s) (batch_jobIds batch)) now batch) as (_ & -> & _).
  unfold stamp. destruct (allDone _ batch) eqn:Hdone; [|exact (Hs other batch Hb)].
  intros _. destruct (Hbs other batch Hb) as (_ & Htot & _).
  apply terminal_count.
  pose proof (tally_count (jobs s) Completed (batch_jobIds batch)) as Ec.
  pose proof (tally_count (jobs s) Failed (batch_jobIds batch)) as Ef.
  simpl in Ec, Ef. unfold allDone in Hdone. apply Nat.eqb_eq in Hdone. lia.
Qed.

Lemma move_stamped_inv s mj mb s' :
  move s mj mb s' →
  NoDup mj → (∀ jobId, jobId ∈ mj → jobs s !! jobId = None) →
  dispatch_inv s → batch_inv s → stamped_inv s → stamped_inv s'.
Proof.
  intros Hmove Hnd Hfresh Hd Hbs Hs.
  destruct (move_dispatch _ _ _ _ Hmove Hnd Hfresh Hd) as [_ Hev].
  destruct Hmove as [|p a m e|k jobId r now Hk|prompts dar dm e|batchId now|dates].
  - done.
  - intros batchId batch Hb Hat. apply (evolution_all_terminal s); [done|].
    exact (Hs batchId batch Hb Hat).
  - intros batchId batch. simpl. destruct (settle_rest jobId r now s) as [-> _].
    intros Hb Hat. apply (evolution_all_terminal s); [done|]. exact (Hs batchId batch Hb Hat).
  - intros batchId batch Hb Hat. apply (evolution_all_terminal s); [done|].
    revert Hb. rewrite generateBatchImages_unfold. simpl.
    destruct (submitAll_spec prompts dar dm (e_gen e) 0 s []) as (_ & -> & _).
    destruct (decide (batchId = generateBatchId (e_now e) (e_rnd e))) as [->|Hne].
    + rewrite lookup_insert_eq. intros [= <-]. by destruct Hat.
    + rewrite lookup_insert_ne by done. intros Hb. exact (Hs batchId batch Hb Hat).
  - by apply getBatchStatus_stamped_inv.
  - apply (list_batches_preserves (λ s1, batch_inv s1 ∧ stamped_inv s1)); [|done].
    intros s1 other now [Hb1 Hs1]. split.
    + by apply getBatchStatus_batch_inv.
    + by apply getBatchStatus_stamped_inv.
Qed.

Section Stamped.
Context `{Node}.

Lemma reachable_fresh_stamped_inv w : reachable_fresh w → stamped_inv w.1.
Proof.
  induction 1 as [fs|w ev Hw IH (Hnd & Hfresh & _)]; [by intros batchId batch|].
  apply (move_stamped_inv _ _ _ _ (exec_move ev w) Hnd Hfresh).
  - by apply reachable_fresh_dispatch.
  - apply reachable_batch_inv. by apply reachable_fresh_reachable.
  - done.
Qed.

(** X16. In a state reached with identifiers that never repeat, a batch
    that carries a completion time has every member in the job store in
    a terminal state. The aggregator then reports it as completed,
    partial or failed, with no member pending or being processed, with
    the completion time the batch carries whatever the clock reads, and
    it leaves the state as it is. *)
Theorem X16_stamped_batch_is_done (w : Server * FS) (batchId : string) (batch : BatchJob)
    (now : Z) :
  reachable_fresh w →
  batchJobs w.1 !! batchId = Some batch →
  is_Some (batch_completedAt batch) →
  all_terminal (jobs w.1) (batch_jobIds batch)
  ∧ ∃ r, getBatchStatus batchId now w.1 = (w.1, Return r)
      ∧ r_status r ∈ [BatchCompleted; BatchPartial; BatchFailed]
      ∧ r_completedCount r + r_failedCount r = r_totalCount r
      ∧ r_pendingCount r = 0 ∧ r_processingCount r = 0
      ∧ length (r_jobs r) = r_totalCount r
      ∧ r_completedAt r = batch_completedAt batch.
Proof.
  intros Hw Hb Hat.
  pose proof (reachable_fresh_stamped_inv w Hw batchId batch Hb Hat) as Hall.
  split; [done|].
  destruct (reachable_batch_inv w (reachable_fresh_reachable w Hw) batchId batch Hb)
    as (_ & Htot & Hmem).
  pose proof (tally_count (jobs w.1) Completed (batch_jobIds batch)) as Ec.
  pose proof (tally_count (jobs w.1) Failed (batch_jobIds batch)) as Ef.
  pose proof (tally_count (jobs w.1) Pending (batch_jobIds batch)) as Ep.
  pose proof (tally_count (jobs w.1) Processing (batch_jobIds batch)) as Er.
  destruct (tally_fold_present (jobs w.1) (batch_jobIds batch) tally0) as [Htotal Hlen].
  fold (tally (jobs w.1) (batch_jobIds batch)) in Htotal, Hlen.
  pose proof (proj2 (terminal_count (jobs w.1) (batch_jobIds batch)) Hall) as Hsum.
  assert (members_present (jobs w.1) (batch_jobIds batch) ≤ length (batch_jobIds batch))
    as Hle by apply length_filter.
  simpl in Ec, Ef, Ep, Er, Htotal, Hlen. unfold total_of in Htotal.
  unfold getBatchStatus. rewrite Hb.
  rewrite (stamp_done _ now batch Hat).
  rewrite insert_id by done.
  assert (Hsame : with_batchJobs w.1 (batchJobs w.1) = w.1) by (by destruct w as [[? ? ?] ?]).
  rewrite Hsame. eexists. split; [reflexivity|]. simpl.
  split; [|split; [lia|split; [lia|split; [lia|split; [lia|done]]]]].
  unfold overall, allDone. rewrite Ec, Ef, Htot, Hsum, Nat.eqb_refl.
  destruct (_ =? _); [repeat first [apply list_elem_of_here | apply list_elem_of_further]|].
  destruct (0 <? _); repeat first [apply list_elem_of_here | apply list_elem_of_further].
Qed.
End Stamped.


Lemma world6_reachable_fresh : reachable_fresh (H := test_node) world6.
Proof.
  apply (reachable_fresh_exec (H := test_node) world5 poll_pair).
  - apply (reachable_fresh_exec (H := test_node) world4 dog_fails).
    + apply (reachable_fresh_exec (H := test_node) world3 cat_arrives).
      * exact world3_reachable_fresh.
      * apply (settled_fresh (H := test_node)).
    + apply (settled_fresh (H := test_node)).
  - split; [apply NoDup_nil_2|].
    split; intros x Hin; by apply elem_of_nil in Hin.
Qed.

Lemma X16_stamped_batch_is_done_witness :
  reachable_fresh (H := test_node) world6
  ∧ batchJobs world6.1 !! "batch_4_d" = Some pair_batch_done
  ∧ is_Some (batch_completedAt pair_batch_done)
  ∧ all_terminal (jobs world6.1) (batch_jobIds pair_batch_done).
Proof.
  assert (Hb : batchJobs world6.1 !! "batch_4_d" = Some pair_batch_done)
    by (vm_compute; reflexivity).
  assert (Hat : is_Some (batch_completedAt pair_batch_done)) by (by eexists).
  split; [exact world6_reachable_fresh|]. split; [exact Hb|]. split; [exact Hat|].
  exact (proj1 (X16_stamped_batch_is_done (H := test_node) world6 "batch_4_d"
                  pair_batch_done 0 world6_reachable_fresh Hb Hat)).
Defined.

(** ** Saving a batch none of whose members is completed *)

Section SaveEarly.
Context `{Node}.

Lemma saveImageToFile_not_ready js jobId filePath fs :
  (∀ job, js !! jobId = Some job → job_status job ≠ Completed) →
  saveImageToFile js jobId filePath fs = (fs, Throw (not_ready js jobId)).
Proof.
  intros Hnot. unfold saveImageToFile, not_ready.
  destruct (js !! jobId) as [job|]; [|done].
  by rewrite decide_False by (by apply Hnot).
Qed.

Lemma saveAll_not_ready view dir prefix : ∀ ids i fs saved failed,
  (∀ k jobId job, ids !! k = Some jobId → view (i + k) !! jobId = Some job →
     job_status job ≠ Completed) →
  saveAll view dir prefix i ids fs saved failed =
  (fs, (saved,
        failed ++ imap (λ k jobId, mkFailed jobId (message (not_ready (view (i + k)) jobId)))
                       ids)).
Proof.
  induction ids as [|jobId ids IH]; intros i fs saved failed Hnot; simpl.
  - by rewrite app_nil_r.
  - rewrite saveImageToFile_not_ready.
    2: { intros job. specialize (Hnot 0 jobId job). rewrite Nat.add_0_r in Hnot.
         by apply Hnot. }
    rewrite IH.
    2: { intros k x job Hk. specialize (Hnot (S k) x job Hk).
         by rewrite Nat.add_succ_r in Hnot. }
    rewrite <- app_assoc. simpl. rewrite Nat.add_0_r.
    do 4 f_equal. apply imap_ext. intros k x _. simpl. by rewrite Nat.add_succ_r.
Qed.

(** X17. A batch saved while none of its members is completed: if each
    iteration of the loop finds its member missing from the job store or
    in it with a status other than completed, then once the target
    directory is created no further filesystem call is made, nothing is
    saved, and every member is reported as failed, in the order of the
    batch, with the message of its own error ("not found", or "is not
    completed" with its status). The handler reports success false,
    savedCount 0 and failedCount equal to the number of members. *)
Theorem X17_save_batch_nothing_completed (bs : gmap string BatchJob)
    (view : nat → gmap string ImageJob) (batchId directory prefix : string)
    (batch : BatchJob) (fs fs1 : FS) :
  bs !! batchId = Some batch →
  fs_mkdir (path_resolve directory) fs = (fs1, None) →
  (∀ i jobId job, batch_jobIds batch !! i = Some jobId → view i !! jobId = Some job →
     job_status job ≠ Completed) →
  let failed := imap (λ i jobId, mkFailed jobId (message (not_ready (view i) jobId)))
                     (batch_jobIds batch) in
  saveBatchImages bs view batchId directory prefix fs = (fs1, Return ([], failed))
  ∧ sb_success (save_batch_response ([], failed)) = false
  ∧ sb_savedCount (save_batch_response ([], failed)) = 0
  ∧ sb_failedCount (save_batch_response ([], failed)) = length (batch_jobIds batch).
Proof.
  intros Hb Hmk Hnot failed.
  split; [|split; [done|split; [done|]]].
  - unfold saveBatchImages. rewrite Hb. simpl. rewrite Hmk.
    by rewrite (saveAll_not_ready view (path_resolve directory) prefix
                  (batch_jobIds batch) 0 fs1 [] [] Hnot).
  - simpl. unfold failed. by rewrite length_imap.
Qed.
End SaveEarly.

Lemma X17_save_batch_nothing_completed_witness :
  batchJobs world3.1 !! "batch_4_d" = Some pair_batch
  ∧ saveBatchImages (H := test_node) (batchJobs world3.1) (λ _, jobs world3.1)
      "batch_4_d" "/out" "image" []
    = ([MkdirCall "/out"],
       Return ([], [mkFailed "job_1_r0" "Job job_1_r0 is not completed (status: processing)";
                    mkFailed "job_2_r1" "Job job_2_r1 is not completed (status: processing)"])).
Proof.
  assert (Hb : batchJobs world3.1 !! "batch_4_d" = Some pair_batch)
    by (vm_compute; reflexivity).
  assert (Hnot : ∀ i jobId job, batch_jobIds pair_batch !! i = Some jobId →
                   jobs world3.1 !! jobId = Some job → job_status job ≠ Completed).
  { intros i jobId job Hi Hj.
    destruct i as [|[|i]]; simpl in Hi; [| |done]; injection Hi as <-;
      vm_compute in Hj; injection Hj as <-; discriminate. }
  split; [exact Hb|].
  etransitivity.
  - exact (proj1 (X17_save_batch_nothing_completed (H := test_node) (batchJobs world3.1)
                    (λ _, jobs world3.1) "batch_4_d" "/out" "image" pair_batch []
                    [MkdirCall "/out"] Hb eq_refl Hnot)).
  - vm_compute. reflexivity.
Defined.

(** ** The [.env] loader *)

Lemma split_nonempty sep s : ∃ x xs, split sep s = x :: xs.
Proof.
  destruct s as [|c rest]; simpl; [by eexists _, _|].
  destruct (Ascii.eqb c sep); [by eexists _, _|].
  destruct (split sep rest); by eexists _, _.
Qed.

Lemma split_free sep s : free_of sep s → split sep s = [s].
Proof.
  induction s as [|c rest IH]; [done|].
  intros [Hne Hfree]. simpl.
  destruct (Ascii.eqb_spec c sep) as [->|_]; [done|].
  by rewrite IH.
Qed.

Lemma split_app sep a b :
  split sep (a +:+ String sep b) = split sep a ++ split sep b.
Proof.
  induction a as [|c a IH]; simpl.
  - by rewrite Ascii.eqb_refl.
  - destruct (Ascii.eqb c sep); [by rewrite IH|].
    rewrite IH. by destruct (split_nonempty sep a) as (x & xs & ->).
Qed.

Lemma join_split sep s : join (String sep EmptyString) (split sep s) = s.
Proof.
  induction s as [|c rest IH]; [done|]. simpl.
  destruct (split_nonempty sep rest) as (x & xs & Hsplit).
  rewrite Hsplit in *.
  destruct (Ascii.eqb_spec c sep) as [->|_].
  - change (String sep (join (String sep EmptyString) (x :: xs)) = String sep rest).
    by rewrite IH.
  - destruct xs as [|y ys].
    + simpl in *. by rewrite IH.
    + change (String c (join (String sep EmptyString) (x :: y :: ys)) = String c rest).
      by rewrite IH.
Qed.

Lemma first_separator sep s :
  free_of sep s ∨ ∃ a b, s = a +:+ String sep b ∧ free_of sep a.
Proof.
  induction s as [|c rest IH]; [by left|].
  destruct (Ascii.eqb_spec c sep) as [->|Hne].
  - right. by exists EmptyString, rest.
  - destruct IH as [Hfree|(a & b & -> & Hfree)].
    + left. by split.
    + right. exists (String c a), b. split; [done|]. by split.
Qed.

Lemma trimStart_head s c rest : trimStart s = String c rest → is_space c = false.
Proof.
  induction s as [|c' s IH]; [done|]. simpl.
  destruct (is_space c') eqn:Hc; [done|]. by intros [= <- _].
Qed.

Lemma trimEnd_head c rest : is_space c = false → ∃ rest', trimEnd (String c rest) = String c rest'.
Proof.
  intros Hc. simpl. destruct (trimEnd rest); [|by eexists].
  rewrite Hc. by eexists.
Qed.

Lemma trim_head s c rest : trim s = String c rest → is_space c = false.
Proof.
  unfold trim. destruct (trimStart s) as [|c' s'] eqn:Hs; [done|].
  pose proof (trimStart_head _ _ _ Hs) as Hc'.
  destruct (trimEnd_head c' s' Hc') as (rest' & ->). by intros [= <- _].
Qed.

Lemma trim_nonempty c rest : is_space c = false → trim (String c rest) ≠ EmptyString.
Proof.
  intros Hc. unfold trim. cbn [trimStart]. rewrite Hc.
  by destruct (trimEnd_head c rest Hc) as (rest' & ->).
Qed.

Lemma load_line_assigns env line key value :
  trim line = key +:+ "=" +:+ value → key ≠ EmptyString → free_of equals_sign key →
  String.prefix "#" (trim line) = false →
  trim key ≠ EmptyString ∧ load_line env line = <[trim key := trim value]> env.
Proof.
  intros Ht Hkey Hfree Hhash.
  destruct key as [|c key]; [done|]. split.
  - apply trim_nonempty. by apply (trim_head line c (key +:+ "=" +:+ value)).
  - unfold load_line. rewrite Hhash, Ht.
    change (String c key +:+ "=" +:+ value)
      with (String c key +:+ String equals_sign value).
    rewrite split_app, (split_free _ _ Hfree).
    destruct (split_nonempty equals_sign value) as (x & xs & Hsplit).
    cbn [app truthy andb negb]. rewrite Hsplit. cbn [length Nat.ltb Nat.leb].
    rewrite <- Hsplit.
    change "=" with (String equals_sign EmptyString). by rewrite join_split.
Qed.

Lemma load_line_ignores env line :
  trim line = EmptyString ∨ String.prefix "#" (trim line) = true
  ∨ free_of equals_sign (trim line) ∨ String.prefix "=" (trim line) = true →
  load_line env line = env.
Proof.
  unfold load_line. intros [->|[->|[Hfree|Heq]]].
  - done.
  - by rewrite andb_false_r.
  - rewrite (split_free _ _ Hfree). simpl. by rewrite andb_false_r; destruct (_ && _).
  - apply String.prefix_correct in Heq.
    destruct (trim line) as [|c t]; [done|].
    cbn [String.length String.substring] in Heq.
    assert (c = equals_sign) as -> by (by destruct t; injection Heq as ->).
    cbn [split]. rewrite Ascii.eqb_refl. cbn [truthy andb]. by destruct (negb _).
Qed.

(** X18. What one line of the [.env] file does. With [t] the line
    trimmed: a line that is blank, starts with "#", holds no "=" or
    starts with "=" changes nothing. Any other line is [key=value] with
    a non-empty [key] free of "=", and it sets the variable named by the
    trimmed key to the trimmed value, where the value is everything
    after the first "=", further "=" signs included; the name it sets is
    never empty. Every line is of one of these kinds. *)
Theorem X18_env_line (env : gmap string string) (line : string) :
  (trim line = EmptyString ∨ String.prefix "#" (trim line) = true
   ∨ free_of equals_sign (trim line) ∨ String.prefix "=" (trim line) = true →
   load_line env line = env)
  ∧ (∀ key value,
       trim line = key +:+ "=" +:+ value → key ≠ EmptyString → free_of equals_sign key →
       String.prefix "#" (trim line) = false →
       trim key ≠ EmptyString ∧ load_line env line = <[trim key := trim value]> env)
  ∧ (free_of equals_sign (trim line)
     ∨ ∃ key value, trim line = key +:+ "=" +:+ value ∧ free_of equals_sign key).
Proof.
  split; [apply load_line_ignores|]. split.
  - intros key value. apply load_line_assigns.
  - apply first_separator.
Qed.

Lemma X18_env_line_witness :
  load_line ∅ "  KEY = a=b  " = <["KEY" := "a=b"]> ∅.
Proof.
  exact (proj2 (proj1 (proj2 (X18_env_line ∅ "  KEY = a=b  ")) "KEY " " a=b"
                  eq_refl ltac:(discriminate)
                  ltac:(vm_compute; intuition discriminate) eq_refl)).
Defined.


Lemma load_line_footprint env line k :
  load_line env line !! k ≠ env !! k →
  k ≠ EmptyString
  ∧ ∃ key value, trim line = key +:+ "=" +:+ value ∧ free_of equals_sign key
                 ∧ trim key = k ∧ load_line env line !! k = Some (trim value).
Proof.
  intros Hchg.
  destruct (first_separator equals_sign (trim line)) as [Hfree|(key & value & Ht & Hfree)].
  { rewrite load_line_ignores in Hchg by auto. done. }
  destruct (String.prefix "#" (trim line)) eqn:Hhash.
  { rewrite load_line_ignores in Hchg by auto. done. }
  destruct key as [|c key].
  { rewrite load_line_ignores in Hchg; [done|].
    right; right; right. rewrite Ht. apply String.prefix_correct.
    cbn [String.length String.append String.substring]. by destruct value. }
  destruct (load_line_assigns env line (String c key) value Ht ltac:(done) Hfree Hhash)
    as [Hne Hset].
  rewrite Hset in Hchg |- *.
  destruct (decide (trim (String c key) = k)) as [<-|Hk].
  - split; [done|]. exists (String c key), value. by rewrite lookup_insert_eq.
  - by rewrite lookup_insert_ne in Hchg.
Qed.

Lemma load_lines_footprint lines : ∀ env k,
  foldl load_line env lines !! k ≠ env !! k →
  k ≠ EmptyString
  ∧ ∃ line key value, line ∈ lines ∧ trim line = key +:+ "=" +:+ value
      ∧ free_of equals_sign key ∧ trim key = k.
Proof.
  induction lines as [|line lines IH]; intros env k Hchg; simpl in *; [done|].
  destruct (decide (foldl load_line (load_line env line) lines !! k = load_line env line !! k))
    as [Heq|Hne].
  - rewrite Heq in Hchg. destruct (load_line_footprint env line k Hchg)
      as (Hk & key & value & Ht & Hfree & Hkey & _).
    split; [done|]. exists line, key, value. split; [apply list_elem_of_here|done].
  - destruct (IH _ _ Hne) as (Hk & l & key & value & Hin & Hrest).
    split; [done|]. exists l, key, value. split; [by apply list_elem_of_further|done].
Qed.

(** X19. What the [.env] file does to the environment. Without a file
    the environment is left as it is. The lines are taken in order: the
    content [a], a newline, then [b] acts as [a] followed by [b], so a
    later assignment of a variable overrides an earlier one, and the
    file overrides what the environment held. A variable whose value
    changes is named, trimmed, before the first "=" of some line of the
    file; the variable with the empty name is never touched. *)
Theorem X19_env_file (env : gmap string string) :
  load_env None env = env
  ∧ (∀ a b, load_env (Some (a +:+ String newline b)) env
            = load_env (Some b) (load_env (Some a) env))
  ∧ (∀ content, load_env (Some content) env !! EmptyString = env !! EmptyString)
  ∧ (∀ content k, load_env (Some content) env !! k ≠ env !! k →
       ∃ line key value, line ∈ split newline content
         ∧ trim line = key +:+ "=" +:+ value ∧ free_of equals_sign key ∧ trim key = k).
Proof.
  split; [done|]. split; [|split].
  - intros a b. unfold load_env. by rewrite split_app, foldl_app.
  - intros content.
    destruct (decide (load_env (Some content) env !! EmptyString = env !! EmptyString))
      as [Heq|Hne]; [done|].
    by destruct (load_lines_footprint _ _ _ Hne) as [Hk _].
  - intros content k Hchg. by destruct (load_lines_footprint _ _ _ Hchg) as [_ Hline].
Qed.

Lemma trimEnd_app p s :
  s ≠ EmptyString → trimEnd s = s → trimEnd (p +:+ s) = p +:+ s.
Proof.
  intros Hne Hs. induction p as [|c p IH]; [done|].
  change (trimEnd (String c (p +:+ s)) = String c (p +:+ s)).
  cbn [trimEnd]. rewrite IH.
  destruct (p +:+ s) eqn:Hps; [|done].
  destruct p; [|done]. destruct (Hne Hps).
Qed.

Lemma trim_fixed_end s : s ≠ EmptyString → trim s = s → trimEnd s = s.
Proof.
  intros Hne Ht. destruct s as [|c s]; [done|].
  pose proof (trim_head _ _ _ Ht) as Hc.
  unfold trim in Ht. cbn [trimStart] in Ht. by rewrite Hc in Ht.
Qed.

(** X20. The API key the server starts with. It is the value of
    GEMINI_API_KEY once the file is loaded, and the server exits exactly
    when that variable is unset or empty. Without a file it is the value
    the environment holds. A file whose last line is
    [GEMINI_API_KEY=value], with a non-empty value on one line and no
    white space at its ends, starts the server with that value whatever
    the earlier lines and the environment hold. *)
Theorem X20_api_key (env : gmap string string) :
  (∀ content, startup content env = None ↔
     load_env content env !! "GEMINI_API_KEY" = None
     ∨ load_env content env !! "GEMINI_API_KEY" = Some EmptyString)
  ∧ (∀ content key, startup content env = Some key ↔
       load_env content env !! "GEMINI_API_KEY" = Some key ∧ key ≠ EmptyString)
  ∧ (∀ key, startup None env = Some key ↔
       env !! "GEMINI_API_KEY" = Some key ∧ key ≠ EmptyString)
  ∧ (∀ before value,
       value ≠ EmptyString → trim value = value → free_of newline value →
       startup (Some ("GEMINI_API_KEY=" +:+ value)) env = Some value
       ∧ startup (Some (before +:+ String newline ("GEMINI_API_KEY=" +:+ value))) env
         = Some value).
Proof.
  assert (Hkey : ∀ env0 content key, startup content env0 = Some key ↔
            load_env content env0 !! "GEMINI_API_KEY" = Some key ∧ key ≠ EmptyString).
  { intros env0 content key. unfold startup, GEMINI_API_KEY, or_default.
    destruct (load_env content env0 !! "GEMINI_API_KEY") as [[|c v]|]; simpl.
    - split; [done|]. by intros [[= <-] ?].
    - split; [by intros [= <-]|]. by intros [[= <-] _].
    - split; [done|]. by intros [? _]. }
  assert (Hlast : ∀ env0 value, value ≠ EmptyString → trim value = value →
            free_of newline value →
            startup (Some ("GEMINI_API_KEY=" +:+ value)) env0 = Some value).
  { intros env0 value Hne Hfix Hfree. apply Hkey. split; [|done].
    set (k := "GEMINI_API_KEY").
    assert (Hline : trim ("GEMINI_API_KEY=" +:+ value) = k +:+ "=" +:+ value).
    { unfold trim.
      change (trimStart ("GEMINI_API_KEY=" +:+ value)) with ("GEMINI_API_KEY=" +:+ value).
      rewrite trimEnd_app; [done..|]. by apply trim_fixed_end. }
    unfold load_env. rewrite split_free.
    2: { repeat (split; [by vm_compute|]). done. }
    cbn [foldl].
    destruct (load_line_assigns env0 ("GEMINI_API_KEY=" +:+ value) k value Hline)
      as [_ ->]; [done|vm_compute; intuition discriminate| |].
    { rewrite Hline. reflexivity. }
    change (trim k) with k. rewrite lookup_insert_eq. by rewrite Hfix. }
  split; [|split; [apply Hkey|split]].
  - intros content. unfold startup, GEMINI_API_KEY, or_default.
    destruct (load_env content env !! "GEMINI_API_KEY") as [[|c v]|]; simpl.
    + split; auto.
    + split; [done|]. by intros [|].
    + split; auto.
  - intros key. apply (Hkey env None).
  - intros before value Hne Hfix Hfree. split; [by apply Hlast|].
    pose proof (Hlast (load_env (Some before) env) value Hne Hfix Hfree) as Hl.
    unfold startup in *.
    unfold load_env in *. by rewrite split_app, foldl_app.
Qed.


Lemma X20_api_key_witness :
  startup (Some ("# the key" +:+ String newline "GEMINI_API_KEY=abc"))
          (<["GEMINI_API_KEY" := "old"]> ∅) = Some "abc".
Proof.
  assert (Hne : "abc" ≠ EmptyString) by discriminate.
  assert (Hfree : free_of newline "abc") by (vm_compute; intuition discriminate).
  destruct (X20_api_key (<["GEMINI_API_KEY" := "old"]> ∅)) as (_ & _ & _ & Hlast).
  exact (proj2 (Hlast "# the key" "abc" Hne eq_refl Hfree)).
Defined.


(** ** Polling a job whose generation call has settled *)

Section PollSettled.
Context `{Node}.

(** X21. The answer to a poll after the generation call of a job has
    settled. In a state reached with identifiers that never repeat, let
    the [k]-th outstanding call belong to [jobId] and settle at [now].
    The job was in the store, and [check_job_status] then answers with
    its identifier, prompt and creation time, completion time [now],
    and: status completed with hasResult set and no error when the call
    resolved with non-empty image data; status failed with the error
    "No image data in response" when it resolved with no data or empty
    data; status failed with the message of the rejection when it was
    rejected. The call is no longer outstanding. *)
Theorem X21_poll_after_settle (w : Server * FS) (k : nat) (jobId : string) (r : GenResult)
    (now : Z) :
  reachable_fresh w →
  inflight w.1 !! k = Some jobId →
  let w' := exec (Settled k r now) w in
  ∃ job, jobs w.1 !! jobId = Some job
    ∧ (jobId ∉ inflight w'.1)
    ∧ check_job_status jobId w'.1 =
      Return (CheckJobStatusResponse
        (match r with
        | Resolved (Some data) =>
            if truthy data
            then mkJobStatusResponse jobId Completed (job_prompt job) (job_createdAt job)
                   (Some now) true None
            else mkJobStatusResponse jobId Failed (job_prompt job) (job_createdAt job)
                   (Some now) false (Some "No image data in response")
        | Resolved None =>
            mkJobStatusResponse jobId Failed (job_prompt job) (job_createdAt job)
              (Some now) false (Some "No image data in response")
        | Rejected msg =>
            mkJobStatusResponse jobId Failed (job_prompt job) (job_createdAt job)
              (Some now) false (Some msg)
         end)).
Proof.
  intros Hw Hk w'.
  destruct (reachable_fresh_dispatch w Hw) as (Hnd & Hfl & _).
  assert (Hin : jobId ∈ inflight w.1) by (by eapply list_elem_of_lookup_2).
  destruct (Hfl _ Hin) as (job & Hjob & Hst).
  destruct (reachable_store_inv w (reachable_fresh_reachable w Hw) jobId job Hjob)
    as [Hid _].
  exists job. split; [done|].
  assert (Hw' : w' = (with_inflight (settle jobId r now w.1) (delete k (inflight w.1)), w.2)).
  { unfold w', exec. by rewrite Hk. }
  rewrite Hw'. cbn [fst]. split.
  - cbn [inflight with_inflight]. by apply NoDup_delete_lookup.
  - unfold check_job_status. cbn [jobs with_inflight].
    rewrite settle_lookup, decide_True, Hjob by done.
    cbn [fmap option_fmap option_map].
    destruct r as [[data|]|msg]; [destruct (truthy data)|..]; simpl; by rewrite Hid.
Qed.
End PollSettled.

Lemma X21_poll_after_settle_witness :
  reachable_fresh (H := test_node) world3
  ∧ inflight world3.1 !! 1 = Some "job_2_r1"
  ∧ check_job_status "job_2_r1"
      (exec (H := test_node) (Settled 1 (Rejected "quota exceeded") 6) world3).1
    = Return (CheckJobStatusResponse
               (mkJobStatusResponse "job_2_r1" Failed "a dog" 2 (Some 6%Z) false
                  (Some "quota exceeded"))).
Proof.
  assert (Hk : inflight world3.1 !! 1 = Some "job_2_r1") by (vm_compute; reflexivity).
  split; [exact world3_reachable_fresh|]. split; [exact Hk|].
  destruct (X21_poll_after_settle (H := test_node) world3 1 "job_2_r1"
              (Rejected "quota exceeded") 6 world3_reachable_fresh Hk)
    as (job & Hjob & _ & Hpoll).
  etransitivity; [exact Hpoll|].
  assert (job = mkJob "job_2_r1" Processing "a dog" None None 2 None) as ->.
  { vm_compute in Hjob. by injection Hjob as <-. }
  reflexivity.
Defined.


(** ** The extension check of [saveImageToFile] *)

Lemma substring_skip (a : string) : ∀ b n,
  String.substring (String.length a) n (a +:+ b) = String.substring 0 n b.
Proof. induction a as [|c a IH]; intros b n; [done|]. simpl. apply IH. Qed.

Lemma endsWith_spec (s suffix : string) :
  endsWith s suffix = true ↔ ∃ stem, s = stem +:+ suffix.
Proof.
  unfold endsWith. rewrite andb_true_iff, Nat.leb_le, String.eqb_eq. split.
  - intros [Hlen Hsub].
    exists (String.substring 0 (String.length s - String.length suffix) s).
    pose proof (substring_0_prefix (String.length s - String.length suffix) s) as Hp.
    replace (String.length s - (String.length s - String.length suffix))
      with (String.length suffix) in Hp by lia.
    by rewrite Hsub in Hp.
  - intros [stem ->]. rewrite string_length_app. split; [lia|].
    replace (String.length stem + String.length suffix - String.length suffix)
      with (String.length stem) by lia.
    rewrite substring_skip. by apply substring_0_all.
Qed.

Section Extension.
Context `{Node}.

(** X22. Which destinations [saveImageToFile] takes for a completed job
    that holds image data: the path is refused with "File path must end
    in .png", before any filesystem call, exactly when its resolved form
    is not some string followed by the four characters ".png" (in
    lower case; what is tested is the resolved path, not the path as
    given). Otherwise the call creates the parent directory and, if that
    succeeds, writes the decoded data to the resolved path. *)
Theorem X22_png_extension (js : gmap string ImageJob) (jobId filePath data : string)
    (job : ImageJob) (fs : FS) :
  js !! jobId = Some job → job_status job = Completed →
  job_result job = Some data → truthy data = true →
  (saveImageToFile js jobId filePath fs = (fs, Throw PathNotPng)
   ↔ ¬ ∃ stem, path_resolve filePath = stem +:+ ".png")
  ∧ ((∃ stem, path_resolve filePath = stem +:+ ".png") →
     ∀ fs1, fs_mkdir (path_dirname (path_resolve filePath)) fs = (fs1, None) →
     ∃ fs2 r, fs_writeFile (path_resolve filePath) (Buffer_from_base64 data) fs1 = (fs2, r)
       ∧ saveImageToFile js jobId filePath fs
         = (fs2, match r with Some msg => Throw (FsError msg) | None => Return () end)).
Proof.
  intros Hjob Hst Hres Hdata.
  unfold saveImageToFile. rewrite Hjob, decide_True, Hres, Hdata by done.
  pose proof (endsWith_spec (path_resolve filePath) ".png") as Hspec.
  destruct (endsWith (path_resolve filePath) ".png").
  - assert (Hstem : ∃ stem, path_resolve filePath = stem +:+ ".png") by (by apply Hspec).
    split.
    + split; [|done].
      destruct (fs_mkdir _ fs) as [fs1 [msg|]]; [done|].
      by destruct (fs_writeFile _ _ fs1) as [fs2 [msg|]].
    + intros _ fs1 ->.
      destruct (fs_writeFile _ _ fs1) as [fs2 r]. exists fs2, r. split; [done|].
      by destruct r.
  - assert (Hno : ¬ ∃ stem, path_resolve filePath = stem +:+ ".png").
    { intros Hstem. by apply Hspec in Hstem. }
    split; [done|]. intros Hstem. by destruct Hno.
Qed.
End Extension.

Lemma X22_png_extension_witness :
  saveImageToFile (H := test_node) (jobs world2.1) "job_1_r0" "/out/cat.PNG" []
  = ([], Throw PathNotPng).
Proof.
  assert (Hno : ¬ ∃ stem, path_resolve (Node := test_node) "/out/cat.PNG" = stem +:+ ".png").
  { intros Hstem. apply endsWith_spec in Hstem. vm_compute in Hstem. discriminate Hstem. }
  exact (proj2 (proj1 (X22_png_extension (H := test_node) (jobs world2.1) "job_1_r0"
                         "/out/cat.PNG" "aGk="
                         (mkJob "job_1_r0" Completed "a cat" (Some "aGk=") None 1 (Some 5%Z))
                         [] ltac:(vm_compute; reflexivity) eq_refl eq_refl eq_refl)) Hno).
Defined.
